(** * lego: regular expressions as algebraic terms

    A shallow embedding of [lego.py] (greenery): character classes,
    multipliers, mults, concs and patterns, with their constructors,
    set-like operators, reduction, rendering ([regex()]) and the
    recursive-descent parser ([match]/[parse]).

    Conventions of the embedding.
    - A Python exception is a value of [exn]; a method that may raise
      returns a [result].  Exception messages are not modelled.
    - Symbols of a character class are 8-bit characters ([ascii]); text is
      [string].
    - Python integers are [Z]; [None] standing for infinity is [None] of
      [option Z].
    - Loops and recursive calls whose termination is not structural take a
      fuel argument; running out of it is the result [Raise OutOfFuel],
      which no handler of the source catches. *)

From Stdlib Require Import ZArith String Ascii List Lia.
From Stdlib Require Import DecimalString DecimalFacts DecimalPos.
From stdpp Require Import base gmap strings list.

Open Scope string_scope.
Open Scope list_scope.

(** ** Exceptions *)

Inductive exn : Type :=
| Exception                       (* raise Exception(...) *)
| AttributeError                  (* attribute access on the wrong kind of object *)
| MatchFailureException
| NoRegexException
| NoCommonMultiplicandException
| NoMultPrefixException
| NoMultSuffixException
| OutOfFuel.

#[global] Instance exn_eq_dec : EqDecision exn.
Proof. solve_decision. Defined.

Inductive result (A : Type) : Type :=
| Ok (a : A)
| Raise (e : exn).
Arguments Ok {A} a.
Arguments Raise {A} e.

#[global] Instance result_ret : MRet result := fun A a => Ok a.
#[global] Instance result_bind : MBind result := fun A B f m =>
  match m with
  | Ok a => f a
  | Raise e => Raise e
  end.

(** [try: body except caught: handler] *)
Definition try_except {A} (body : result A) (caught : exn) (handler : result A)
  : result A :=
  match body with
  | Ok a => Ok a
  | Raise e => if decide (e = caught) then handler else Raise e
  end.

Definition is_ok {A} (r : result A) : bool :=
  match r with Ok _ => true | Raise _ => false end.

(** ** Text helpers (Python [str] operations used by the source) *)

Definition chr (n : nat) : ascii := ascii_of_nat n.
Definition str1 (c : ascii) : string := String c EmptyString.

(** [c in s] for a character and a string (or a set of characters written
    as a string). *)
Fixpoint char_in (c : ascii) (s : string) : bool :=
  match s with
  | EmptyString => false
  | String x s' => if Ascii.eqb c x then true else char_in c s'
  end.

(** [s.index(c)] *)
Fixpoint str_index (c : ascii) (s : string) : option nat :=
  match s with
  | EmptyString => None
  | String x s' => if Ascii.eqb c x then Some 0 else S <$> str_index c s'
  end.

(** [s[-1]] *)
Fixpoint str_last (s : string) : option ascii :=
  match s with
  | EmptyString => None
  | String x EmptyString => Some x
  | String _ s' => str_last s'
  end.

Definition str_first (s : string) : option ascii := String.get 0 s.

(** [s * n] *)
Fixpoint str_repeat (s : string) (n : nat) : string :=
  match n with
  | O => ""
  | S n' => s +:+ str_repeat s n'
  end.

(** [sep.join(l)] is [String.concat sep l]. *)

(** [str(n)] for an integer *)
Definition str_of_Z (n : Z) : string := NilZero.string_of_int (Z.to_int n).

(** [sorted(...)]: insertion sort by a total order given as [leb]. *)
Section Sorted.
Context {A : Type} (leb : A -> A -> bool).
Fixpoint insert_sorted (x : A) (l : list A) : list A :=
  match l with
  | [] => [x]
  | y :: l' => if leb x y then x :: y :: l' else y :: insert_sorted x l'
  end.
Definition sorted (l : list A) : list A := foldr insert_sorted [] l.
End Sorted.

Definition ascii_leb (a b : ascii) : bool := (nat_of_ascii a <=? nat_of_ascii b)%nat.

(** ** Module constants *)

Definition escapes : list (ascii * string) :=
  [ (chr 9, "\t"); (chr 10, "\n"); (chr 11, "\v"); (chr 12, "\f"); (chr 13, "\r") ].

Definition escapes_get (c : ascii) : option string :=
  snd <$> List.find (fun kv => Ascii.eqb c (fst kv)) escapes.

Definition allSpecial : string := "\[]|().?*+{}".
Definition classSpecial : string := "\[]^-".
Definition allowableRanges : list string :=
  [ "ABCDEFGHIJKLMNOPQRSTUVWXYZ"; "abcdefghijklmnopqrstuvwxyz"; "0123456789" ].

(** ** class charclass *)

Record charclass : Type := Charclass { chars : gset ascii; negated : bool }.

#[global] Instance charclass_eq_dec : EqDecision charclass.
Proof. solve_decision. Defined.

(** [charclass(chars, negateMe)] for [chars] given as a string *)
Definition charclass_init (cs : string) (negateMe : bool) : charclass :=
  Charclass (list_to_set (list_ascii_of_string cs)) negateMe.

Definition charclass_empty : charclass := Charclass ∅ false.

(** *** set operations *)

Definition charclass_invert (self : charclass) : charclass :=
  Charclass (chars self) (negb (negated self)).

Definition charclass_or (self other : charclass) : charclass :=
  if negated self then
    if negated other then charclass_invert (Charclass (chars self ∩ chars other) false)
    else charclass_invert (Charclass (chars self ∖ chars other) false)
  else if negated other then charclass_invert (Charclass (chars other ∖ chars self) false)
  else Charclass (chars self ∪ chars other) false.

Definition charclass_sub (self other : charclass) : charclass :=
  if negated self then
    if negated other then Charclass (chars other ∖ chars self) false
    else charclass_invert (Charclass (chars self ∪ chars other) false)
  else if negated other then Charclass (chars self ∩ chars other) false
  else Charclass (chars self ∖ chars other) false.

Definition charclass_and (self other : charclass) : charclass :=
  if negated self then
    if negated other then charclass_invert (Charclass (chars self ∪ chars other) false)
    else Charclass (chars other ∖ chars self) false
  else if negated other then Charclass (chars self ∖ chars other) false
  else Charclass (chars self ∩ chars other) false.

Definition charclass_issubset (self other : charclass) : bool :=
  if negated self then
    if negated other then bool_decide (chars other ⊆ chars self) else false
  else if negated other then bool_decide (chars self ## chars other)
  else bool_decide (chars self ⊆ chars other).

(** *** the shorthand classes *)

Definition cc_w : charclass :=
  charclass_init "0123456789ABCDEFGHIJKLMNOPQRSTUVWXYZ_abcdefghijklmnopqrstuvwxyz" false.
Definition cc_d : charclass := charclass_init "0123456789" false.
Definition cc_s : charclass :=
  Charclass (list_to_set [chr 9; chr 10; chr 11; chr 12; chr 13; chr 32]) false.
Definition cc_W : charclass := charclass_invert cc_w.
Definition cc_D : charclass := charclass_invert cc_d.
Definition cc_S : charclass := charclass_invert cc_s.
Definition dot : charclass := charclass_invert (charclass_init "" false).

Definition shorthand : list (charclass * string) :=
  [ (cc_w, "\w"); (cc_d, "\d"); (cc_s, "\s");
    (cc_W, "\W"); (cc_D, "\D"); (cc_S, "\S");
    (dot, ".") ].

Definition shorthand_get (c : charclass) : option string :=
  snd <$> List.find (fun kv => bool_decide (c = fst kv)) shorthand.

(** *** rendering *)

Definition escapeChar (char : ascii) : string :=
  if char_in char classSpecial then "\" +:+ str1 char
  else match escapes_get char with
       | Some e => e
       | None => str1 char
       end.

(** The two [nonlocal] variables of [escape] are threaded as a pair
    [(currentRange, output)]. *)
Definition recordRange (st : string * string) : string * string :=
  let '(currentRange, output) := st in
  if (String.length currentRange <=? 3)%nat then
    ("", output +:+ String.concat "" (map escapeChar (list_ascii_of_string currentRange)))
  else
    match str_first currentRange, str_last currentRange with
    | Some a, Some b => ("", output +:+ escapeChar a +:+ "-" +:+ escapeChar b)
    | _, _ => ("", output)
    end.

Definition escape_step (st : string * string) (char : ascii) : string * string :=
  let st1 :=
    if (0 <? String.length (fst st))%nat then
      match List.find (char_in char) allowableRanges with
      | None => recordRange st
      | Some superRange =>
          match str_index char superRange with
          | Some i =>
              if (i =? 0)%nat
                 || negb (bool_decide (String.get (i - 1) superRange = str_last (fst st)))
              then recordRange st else st
          | None => st
          end
      end
    else st in
  (fst st1 +:+ str1 char, snd st1).

Definition sorted_chars (self : charclass) : list ascii :=
  sorted ascii_leb (elements (chars self)).

Definition charclass_escape (self : charclass) : string :=
  snd (recordRange (fold_left escape_step (sorted_chars self) ("", ""))).

Definition charclass_regex (self : charclass) : result string :=
  match shorthand_get self with
  | Some str => Ok str
  | None =>
      if (size (chars self) <? 1)%nat then Raise NoRegexException
      else if negated self then Ok ("[^" +:+ charclass_escape self +:+ "]")
      else
        match elements (chars self) with
        | [char] =>
            match escapes_get char with
            | Some e => Ok e
            | None =>
                if char_in char allSpecial then Ok ("\" +:+ str1 char)
                else Ok (str1 char)
            end
        | _ => Ok ("[" +:+ charclass_escape self +:+ "]")
        end
  end.

(** ** class multiplier *)

(** The attributes [min] and [max] (here [mmin], [mmax]); [None] is
    infinity.  [mandatory] and [optional] are the two further attributes
    that [__init__] computes from them and stores. *)
Record multiplier : Type := Multiplier { mmin : option Z; mmax : option Z }.

#[global] Instance multiplier_eq_dec : EqDecision multiplier.
Proof. solve_decision. Defined.

Definition multiplier_init (min max : option Z) : result multiplier :=
  match min with
  | None =>
      match max with
      | None => Ok (Multiplier None None)
      | Some _ => Raise Exception
      end
  | Some mn =>
      if (mn <? 0)%Z then Raise Exception
      else match max with
           | None => Ok (Multiplier (Some mn) None)
           | Some mx =>
               if (mx <? mn)%Z then Raise Exception
               else Ok (Multiplier (Some mn) (Some mx))
           end
  end.

Definition mandatory (self : multiplier) : option Z := mmin self.

Definition optional (self : multiplier) : option Z :=
  match mmin self, mmax self with
  | Some mn, Some mx => Some (mx - mn)%Z
  | _, _ => None
  end.

(** A multiplier that [__init__] accepts. *)
Definition multiplier_valid (m : multiplier) : Prop :=
  multiplier_init (mmin m) (mmax m) = Ok m.

#[global] Instance multiplier_valid_dec m : Decision (multiplier_valid m).
Proof. unfold multiplier_valid. solve_decision. Defined.

Definition zero : multiplier := Multiplier (Some 0%Z) (Some 0%Z).
Definition qm   : multiplier := Multiplier (Some 0%Z) (Some 1%Z).
Definition one  : multiplier := Multiplier (Some 1%Z) (Some 1%Z).
Definition star : multiplier := Multiplier (Some 0%Z) None.
Definition plus : multiplier := Multiplier (Some 1%Z) None.
Definition inf  : multiplier := Multiplier None None.

Definition symbolic : list (multiplier * string) :=
  [ (qm, "?"); (one, ""); (star, "*"); (plus, "+") ].

Definition symbolic_get (m : multiplier) : option string :=
  snd <$> List.find (fun kv => bool_decide (m = fst kv)) symbolic.

Definition multiplier_regex (self : multiplier) : result string :=
  match mmin self with
  | None => Raise NoRegexException
  | Some mn =>
      if bool_decide (mmax self = Some 0%Z) then Raise NoRegexException
      else match symbolic_get self with
           | Some str => Ok str
           | None =>
               match mmax self with
               | None => Ok ("{" +:+ str_of_Z mn +:+ ",}")
               | Some mx =>
                   if (mn =? mx)%Z then Ok ("{" +:+ str_of_Z mn +:+ "}")
                   else Ok ("{" +:+ str_of_Z mn +:+ "," +:+ str_of_Z mx +:+ "}")
               end
           end
  end.

Definition multiplier_mul (self other : multiplier) : result multiplier :=
  let min := match mmin self, mmin other with
             | Some a, Some b => Some (a * b)%Z
             | _, _ => None
             end in
  let max := match mmax self, mmax other with
             | Some a, Some b => Some (a * b)%Z
             | _, _ => None
             end in
  multiplier_init min max.

Definition multiplier_add (self other : multiplier) : result multiplier :=
  let min := match mmin self, mmin other with
             | Some a, Some b => Some (a + b)%Z
             | _, _ => None
             end in
  let max := match mmax self, mmax other with
             | Some a, Some b => Some (a + b)%Z
             | _, _ => None
             end in
  multiplier_init min max.

Definition multiplier_sub (self other : multiplier) : result multiplier :=
  newMandatory ←
    match mandatory other with
    | None =>
        match mandatory self with
        | None => Ok (Some 0%Z)
        | Some _ => Raise Exception
        end
    | Some b =>
        match mandatory self with
        | None => Ok None
        | Some a => Ok (Some (a - b)%Z)
        end
    end;
  newOptional ←
    match optional other with
    | None =>
        match optional self with
        | None => Ok (Some 0%Z)
        | Some _ => Raise Exception
        end
    | Some b =>
        match optional self with
        | None => Ok None
        | Some a => Ok (Some (a - b)%Z)
        end
    end;
  match newMandatory with
  | None =>
      match newOptional with
      | None => multiplier_init None None
      | Some _ => Raise Exception
      end
  | Some m =>
      match newOptional with
      | None => multiplier_init (Some m) None
      | Some o => multiplier_init (Some m) (Some (m + o)%Z)
      end
  end.

Definition multiplier_and (self other : multiplier) : result multiplier :=
  let commonMandatory :=
    match mandatory self with
    | None => mandatory other
    | Some a =>
        match mandatory other with
        | None => Some a
        | Some b => Some (Z.min a b)
        end
    end in
  let commonOptional :=
    match optional self with
    | None => optional other
    | Some a =>
        match optional other with
        | None => Some a
        | Some b => Some (Z.min a b)
        end
    end in
  match commonMandatory with
  | None =>
      match commonOptional with
      | None => multiplier_init None None
      | Some _ => Raise Exception
      end
  | Some m =>
      match commonOptional with
      | None => multiplier_init (Some m) None
      | Some o => multiplier_init (Some m) (Some (m + o)%Z)
      end
  end.

(** ** Lego pieces

    Python is dynamically typed: [reduce()] may return a piece of any of
    the four kinds, and the constructors check the kinds of their
    arguments at run time.  The embedding follows it: one type [lego] of
    pieces, [type_of] for [type(x)], and constructors [mult_init],
    [conc_init], [pattern_init] that raise like [__init__] does.  A pattern
    holds a [frozenset] of concs: a duplicate-free list, compared as a set.
    On a piece that no constructor can build, a method of the embedding
    raises [AttributeError] or takes the branch of a failed test. *)

#[warnings="-register-all"]
Inductive lego : Type :=
| LCharclass (c : charclass)
| LMult (multiplicand : lego) (x : multiplier)
| LConc (mults : list lego)
| LPattern (concs : list lego).

Inductive kind : Type := KCharclass | KMult | KConc | KPattern | KType.

#[global] Instance kind_eq_dec : EqDecision kind.
Proof. solve_decision. Defined.

Definition type_of (x : lego) : kind :=
  match x with
  | LCharclass _ => KCharclass
  | LMult _ _ => KMult
  | LConc _ => KConc
  | LPattern _ => KPattern
  end.

Definition has_type (k : kind) (x : lego) : bool := bool_decide (type_of x = k).

(** [__eq__]: charclasses by chars and negation, multipliers by min and
    max, mults by multiplicand and multiplier, concs as tuples, patterns as
    frozensets. *)
Fixpoint lego_eqb (a b : lego) {struct a} : bool :=
  match a, b with
  | LCharclass c, LCharclass d => bool_decide (c = d)
  | LMult x m, LMult y n => lego_eqb x y && bool_decide (m = n)
  | LConc ms, LConc ns =>
      (fix tuple_eqb (l1 l2 : list lego) {struct l1} : bool :=
         match l1, l2 with
         | [], [] => true
         | x :: l1', y :: l2' => lego_eqb x y && tuple_eqb l1' l2'
         | _, _ => false
         end) ms ns
  | LPattern cs, LPattern ds =>
      forallb (fun c => existsb (fun d => lego_eqb c d) ds) cs
      && forallb (fun d => existsb (fun c => lego_eqb c d) cs) ds
  | _, _ => false
  end.

(** [x in s] and the frozenset operations used by the source *)
Definition lego_in (x : lego) (s : list lego) : bool := existsb (lego_eqb x) s.

Fixpoint frozenset (l : list lego) : list lego :=
  match l with
  | [] => []
  | x :: l' => if lego_in x l' then frozenset l' else x :: frozenset l'
  end.

Definition set_difference (s t : list lego) : list lego :=
  List.filter (fun x => negb (lego_in x t)) s.

Definition set_union (s t : list lego) : list lego := frozenset (s ++ t).

Definition set_eqb (s t : list lego) : bool :=
  forallb (fun c => lego_in c t) s && forallb (fun d => lego_in d s) t.

(** [result]-valued map: a list comprehension whose body may raise *)
Definition map_result {A B} (f : A -> result B) : list A -> result (list B) :=
  fix go (l : list A) : result (list B) :=
    match l with
    | [] => Ok []
    | x :: l' => y ← f x; ys ← go l'; Ok (y :: ys)
    end.

(** *** constructors *)

Definition mult_init (multiplicand : lego) (x : multiplier) : result lego :=
  match type_of multiplicand with
  | KCharclass | KPattern => Ok (LMult multiplicand x)
  | _ => Raise Exception
  end.

Definition conc_init (mults : list lego) : result lego :=
  if forallb (has_type KMult) mults then Ok (LConc mults) else Raise Exception.

(** An argument of [pattern(...)]: a piece, or a class object (the source
    passes the class [conc] itself in [pattern.__and__]). *)
Inductive pyval : Type :=
| PLego (x : lego)
| PClass (k : kind).

Definition type_of_val (v : pyval) : kind :=
  match v with
  | PLego x => type_of x
  | PClass _ => KType
  end.

Definition pattern_init_args (concs : list pyval) : result lego :=
  elems ← map_result
    (fun v => match v with
              | PLego x => if has_type KConc x then Ok x else Raise Exception
              | PClass _ => Raise Exception
              end) concs;
  Ok (LPattern (frozenset elems)).

Definition pattern_init (concs : list lego) : result lego :=
  pattern_init_args (PLego <$> concs).

Definition emptystring : lego := LConc [].
Definition nothing : lego := LPattern [].

(** *** mult: subtraction and common part *)

Definition mult_sub (self other : lego) : result lego :=
  match self, other with
  | LMult x mu, LMult y nu =>
      if negb (lego_eqb y x) then Raise NoCommonMultiplicandException
      else m ← multiplier_sub mu nu; mult_init x m
  | _, _ => Raise AttributeError
  end.

(** [mult.__and__] when [other] is a mult (the other branch goes through
    [conc.__and__] to [pattern.__and__], see [pattern_and] below). *)
Definition mult_and_mult (self other : lego) : result lego :=
  match self, other with
  | LMult x mu, LMult y nu =>
      if negb (lego_eqb y x) then Raise NoCommonMultiplicandException
      else m ← multiplier_and mu nu; mult_init x m
  | _, _ => Raise AttributeError
  end.

Definition multiplier_of (m : lego) : result multiplier :=
  match m with
  | LMult _ mu => Ok mu
  | _ => Raise AttributeError
  end.

Definition mults_of (c : lego) : result (list lego) :=
  match c with
  | LConc ms => Ok ms
  | _ => Raise AttributeError
  end.

Definition concs_of (p : lego) : result (list lego) :=
  match p with
  | LPattern cs => Ok cs
  | _ => Raise AttributeError
  end.

(** *** pattern: common prefix and suffix *)

(** The first loop of [_multprefix]/[_multsuffix]; [pick] is [c.mults[0]]
    or [c.mults[-1]], [err] the exception of the method. *)
Definition common_mult (pick : list lego -> option lego) (err : exn)
    (concs : list lego) : result (option lego) :=
  fold_left
    (fun acc c =>
       commonMult ← acc;
       ms ← mults_of c;
       match pick ms with
       | None => Raise err
       | Some m0 =>
           cm ← match commonMult with
                | None => Ok m0
                | Some cm0 =>
                    try_except (mult_and_mult cm0 m0)
                      NoCommonMultiplicandException (Raise err)
                end;
           mu ← multiplier_of cm;
           if bool_decide (mu = zero) then Raise err else Ok (Some cm)
       end)
    concs (Ok None).

Definition list_last (l : list lego) : option lego := List.last (Some <$> l) None.

Definition pattern_multprefix (self : lego) : result (lego * lego) :=
  concs ← concs_of self;
  commonMult ← common_mult head NoMultPrefixException concs;
  match commonMult with
  | None => Raise NoMultPrefixException
  | Some commonMult =>
      leftovers ← map_result
        (fun c =>
           ms ← mults_of c;
           match ms with
           | [] => Raise AttributeError
           | m0 :: rest =>
               newMult1 ← mult_sub m0 commonMult;
               mu ← multiplier_of newMult1;
               if bool_decide (mu = zero) then conc_init rest
               else conc_init (newMult1 :: rest)
           end) concs;
      leftovers ← pattern_init leftovers;
      Ok (commonMult, leftovers)
  end.

Definition pattern_multsuffix (self : lego) : result (lego * lego) :=
  concs ← concs_of self;
  commonMult ← common_mult list_last NoMultSuffixException concs;
  match commonMult with
  | None => Raise NoMultSuffixException
  | Some commonMult =>
      leftovers ← map_result
        (fun c =>
           ms ← mults_of c;
           match list_last ms with
           | None => Raise AttributeError
           | Some m0 =>
               newMult1 ← mult_sub m0 commonMult;
               mu ← multiplier_of newMult1;
               if bool_decide (mu = zero) then conc_init (removelast ms)
               else conc_init (removelast ms ++ [newMult1])
           end) concs;
      leftovers ← pattern_init leftovers;
      Ok (leftovers, commonMult)
  end.

(** The [while True] loops of [_concprefix] and [_concsuffix]. *)
Fixpoint concprefix_loop (fuel : nat) (prefix : list lego) (leftovers : lego)
  : result (lego * lego) :=
  match fuel with
  | O => Raise OutOfFuel
  | S fuel' =>
      match pattern_multprefix leftovers with
      | Ok (commonMult, leftovers') =>
          concprefix_loop fuel' (prefix ++ [commonMult]) leftovers'
      | Raise NoMultPrefixException =>
          c ← conc_init prefix; Ok (c, leftovers)
      | Raise e => Raise e
      end
  end.

Definition pattern_concprefix (fuel : nat) (self : lego) : result (lego * lego) :=
  concprefix_loop fuel [] self.

Fixpoint concsuffix_loop (fuel : nat) (suffix : list lego) (leftovers : lego)
  : result (lego * lego) :=
  match fuel with
  | O => Raise OutOfFuel
  | S fuel' =>
      match pattern_multsuffix leftovers with
      | Ok (leftovers', commonMult) =>
          concsuffix_loop fuel' (commonMult :: suffix) leftovers'
      | Raise NoMultSuffixException =>
          c ← conc_init suffix; Ok (leftovers, c)
      | Raise e => Raise e
      end
  end.

Definition pattern_concsuffix (fuel : nat) (self : lego) : result (lego * lego) :=
  concsuffix_loop fuel [] self.

(** ** reduce()

    Each [reduce] method takes the function [reduce] that answers the
    method calls [x.reduce()] it makes on other pieces (dynamic dispatch);
    [reduce] below ties the knot with fuel. *)

Definition is_dead_mult (m : lego) : bool :=
  match m with
  | LMult x mu =>
      lego_eqb x (LCharclass charclass_empty)
      && match mmin mu with
         | None => true
         | Some n => (0 <? n)%Z
         end
  | _ => false
  end.

Definition mult_reduce (reduce : lego -> result lego) (self : lego) : result lego :=
  match self with
  | LMult multiplicand mu =>
      if match multiplicand with
         | LPattern concs => lego_in emptystring concs
         | _ => false
         end
      then
        concs ← concs_of multiplicand;
        p ← pattern_init (set_difference concs [emptystring]);
        mu' ← multiplier_mul mu qm;
        m ← mult_init p mu';
        reduce m
      else if bool_decide (mu = zero) then reduce (LCharclass charclass_empty)
      else if lego_eqb multiplicand nothing then
        if bool_decide (mmin mu = Some 0%Z) then reduce emptystring
        else reduce (LCharclass charclass_empty)
      else if bool_decide (mu = one) then reduce multiplicand
      else
        reducedMultiplicand ← reduce multiplicand;
        reducedMultiplicand ←
          (if has_type KMult reducedMultiplicand
           then conc_init [reducedMultiplicand] else Ok reducedMultiplicand);
        reducedMultiplicand ←
          (if has_type KConc reducedMultiplicand
           then pattern_init [reducedMultiplicand] else Ok reducedMultiplicand);
        if negb (lego_eqb reducedMultiplicand multiplicand) then
          m ← mult_init reducedMultiplicand mu; reduce m
        else
          match multiplicand with
          | LPattern [singleton] =>
              ms ← mults_of singleton;
              match ms with
              | [LMult y nu] =>
                  mu' ← multiplier_mul nu mu;
                  m ← mult_init y mu';
                  reduce m
              | _ => Ok self
              end
          | _ => Ok self
          end
  | _ => Raise AttributeError
  end.

(** The first adjacent pair of mults with equal multiplicands, merged. *)
Fixpoint squish (mults : list lego) : option (result (list lego)) :=
  match mults with
  | [] => None
  | m1 :: tl =>
      match tl with
      | [] => None
      | m2 :: rest =>
          match m1, m2 with
          | LMult x mu, LMult y nu =>
              if lego_eqb x y then
                Some (m ← multiplier_add mu nu;
                      squished ← mult_init x m;
                      Ok (squished :: rest))
              else (fun r => ms ← r; Ok (m1 :: ms)) <$> squish tl
          | _, _ => Some (Raise AttributeError)
          end
      end
  end.

(** The first mult [(p){1}] whose pattern [p] has a single conc, inlined. *)
Fixpoint flatten (mults : list lego) : option (list lego) :=
  match mults with
  | [] => None
  | m :: rest =>
      match m with
      | LMult (LPattern [LConc single]) mu =>
          if bool_decide (mu = one) then Some (single ++ rest)
          else cons m <$> flatten rest
      | _ => cons m <$> flatten rest
      end
  end.

Definition conc_reduce (reduce : lego -> result lego) (self : lego) : result lego :=
  match self with
  | LConc mults =>
      if existsb is_dead_mult mults then reduce (LCharclass charclass_empty)
      else
        match mults with
        | [m] => reduce m
        | _ =>
            reducedMults ← map_result reduce mults;
            reducedMults ← map_result
              (fun x => if has_type KConc x then pattern_init [x] else Ok x)
              reducedMults;
            reducedMults ← map_result
              (fun x => if has_type KCharclass x || has_type KPattern x
                        then mult_init x one else Ok x)
              reducedMults;
            if negb (lego_eqb (LConc reducedMults) (LConc mults)) then
              c ← conc_init reducedMults; reduce c
            else
              match squish mults with
              | Some r => newMults ← r; c ← conc_init newMults; reduce c
              | None =>
                  match flatten mults with
                  | Some newMults => c ← conc_init newMults; reduce c
                  | None => Ok self
                  end
              end
        end
  | _ => Raise AttributeError
  end.

(** The loop of [pattern.reduce] that merges the single-charclass
    branches by multiplier: [(isChanged, merged, rest)]; the dict [merged]
    is an association list in insertion order. *)
Fixpoint merged_update (merged : list (multiplier * charclass)) (key : multiplier)
    (c : charclass) : list (multiplier * charclass) :=
  match merged with
  | [] => []
  | (k, v) :: merged' =>
      if bool_decide (k = key) then (k, charclass_or v c) :: merged'
      else (k, v) :: merged_update merged' key c
  end.

Definition merge_step (st : bool * list (multiplier * charclass) * list lego)
    (x : lego) : bool * list (multiplier * charclass) * list lego :=
  let '(isChanged, merged, rest) := st in
  match x with
  | LConc [LMult (LCharclass c) key] =>
      if existsb (fun kv => bool_decide (fst kv = key)) merged
      then (true, merged_update merged key c, rest)
      else (isChanged, merged ++ [(key, c)], rest)
  | _ => (isChanged, merged, rest ++ [x])
  end.

Definition pattern_reduce (reduce : lego -> result lego) (fuel : nat) (self : lego)
  : result lego :=
  match self with
  | LPattern concs =>
      match List.find (fun c => match c with
                                | LConc ms => existsb is_dead_mult ms
                                | _ => false
                                end) concs with
      | Some c => p ← pattern_init (set_difference concs [c]); reduce p
      | None =>
          match concs with
          | [e] => reduce e
          | _ =>
              reducedConcs ← map_result reduce concs;
              reducedConcs ← map_result
                (fun x => if has_type KCharclass x || has_type KPattern x
                          then mult_init x one else Ok x)
                reducedConcs;
              reducedConcs ← map_result
                (fun x => if has_type KMult x then conc_init [x] else Ok x)
                reducedConcs;
              let reducedConcs := frozenset reducedConcs in
              if negb (set_eqb reducedConcs concs) then
                p ← pattern_init reducedConcs; reduce p
              else
                let '(isChanged, merged, rest) :=
                  fold_left merge_step concs (false, [], []) in
                if isChanged then
                  new ← map_result
                    (fun kv => m ← mult_init (LCharclass (snd kv)) (fst kv);
                               conc_init [m]) merged;
                  p ← pattern_init (rest ++ new);
                  reduce p
                else
                  '(concPrefix, leftovers) ← pattern_concprefix fuel self;
                  if negb (lego_eqb concPrefix emptystring) then
                    ms ← mults_of concPrefix;
                    m ← mult_init leftovers one;
                    c ← conc_init (ms ++ [m]);
                    reduce c
                  else
                    '(leftovers, concSuffix) ← pattern_concsuffix fuel self;
                    if negb (lego_eqb concSuffix emptystring) then
                      m ← mult_init leftovers one;
                      ms ← mults_of concSuffix;
                      c ← conc_init (m :: ms);
                      reduce c
                    else Ok self
          end
      end
  | _ => Raise AttributeError
  end.

Definition reduce_body (reduce : lego -> result lego) (fuel : nat) (self : lego)
  : result lego :=
  match self with
  | LCharclass _ => Ok self
  | LMult _ _ => mult_reduce reduce self
  | LConc _ => conc_reduce reduce self
  | LPattern _ => pattern_reduce reduce fuel self
  end.

Fixpoint reduce (fuel : nat) (self : lego) : result lego :=
  match fuel with
  | O => Raise OutOfFuel
  | S fuel' => reduce_body (reduce fuel') fuel' self
  end.

(** ** regex(): rendering *)

Fixpoint lego_regex (self : lego) : result string :=
  match self with
  | LCharclass c => charclass_regex c
  | LMult multiplicand mu =>
      output ←
        (if has_type KPattern multiplicand
         then r ← lego_regex multiplicand; Ok ("(" +:+ r +:+ ")")
         else lego_regex multiplicand);
      suffix ← multiplier_regex mu;
      match mmin mu with
      | Some mn =>
          if bool_decide (mmin mu = mmax mu)
             && (Z.of_nat (String.length output) * mn
                 <=? Z.of_nat (String.length output) + Z.of_nat (String.length suffix))%Z
          then Ok (output +:+ str_repeat output (Z.to_nat (mn - 1)))
          else Ok (output +:+ suffix)
      | None => Ok (output +:+ suffix)
      end
  | LConc mults =>
      rs ← map_result lego_regex mults;
      Ok (String.concat "" rs)
  | LPattern concs =>
      if (length concs <? 1)%nat then Raise NoRegexException
      else
        rs ← map_result lego_regex concs;
        Ok (String.concat "|" (sorted String.leb rs))
  end.

(** ** match(): the parser *)

Definition matchStatic (str : string) (i : nat) (static : string) : result nat :=
  if String.eqb (String.substring i (String.length static) str) static
  then Ok (i + String.length static)%nat
  else Raise MatchFailureException.

(** [matchAny(string, i)] *)
Definition matchAny (str : string) (i : nat) : result (ascii * nat) :=
  match String.get i str with
  | None => Raise MatchFailureException
  | Some c => Ok (c, S i)
  end.

(** [for x in l: try: return f(x) except MatchFailureException: pass],
    followed by [otherwise] *)
Definition first_match {A B} (f : A -> result B) (l : list A) (otherwise : result B)
  : result B :=
  foldr (fun x k => try_except (f x) MatchFailureException k) otherwise l.

(** [matchAny(string, i, collection)] *)
Definition matchAnyOf (str : string) (i : nat) (collection : string)
  : result (ascii * nat) :=
  first_match (fun char => j ← matchStatic str i (str1 char); Ok (char, j))
    (list_ascii_of_string collection) (Raise MatchFailureException).

Definition matchInternalChar (str : string) (i : nat) : result (ascii * nat) :=
  first_match (fun kv => j ← matchStatic str i (snd kv); Ok (fst kv, j)) escapes
    (first_match
       (fun char => j ← matchStatic str i ("\" +:+ str1 char); Ok (char, j))
       (list_ascii_of_string classSpecial)
       ('(char, j) ← matchAny str i;
        if char_in char classSpecial then Raise MatchFailureException
        else Ok (char, j))).

(** The [for allowableRange in allowableRanges] loop of
    [matchRangeInternal]. *)
Fixpoint matchRange_span (firstChar lastChar : ascii) (ranges : list string)
  : result string :=
  match ranges with
  | [] => Raise MatchFailureException
  | allowableRange :: ranges' =>
      if char_in firstChar allowableRange then
        if negb (char_in lastChar allowableRange) then Raise MatchFailureException
        else
          match str_index firstChar allowableRange, str_index lastChar allowableRange with
          | Some firstIndex, Some lastIndex =>
              if (lastIndex <=? firstIndex)%nat then Raise MatchFailureException
              else Ok (String.substring firstIndex (lastIndex + 1 - firstIndex) allowableRange)
          | _, _ => Raise MatchFailureException
          end
      else matchRange_span firstChar lastChar ranges'
  end.

Definition matchRangeInternal (str : string) (i : nat) : result (string * nat) :=
  '(firstChar, i) ← matchInternalChar str i;
  try_except
    (j ← matchStatic str i "-";
     '(lastChar, j) ← matchInternalChar str j;
     span ← matchRange_span firstChar lastChar allowableRanges;
     Ok (span, j))
    MatchFailureException
    (Ok (str1 firstChar, i)).

(** The [while True] loop of [matchRangeInterior]; every round consumes a
    character, so the length of the text that remains (plus one) bounds the
    rounds.  The other loops of the parser are bounded in the same way. *)
Fixpoint matchRangeInterior_loop (fuel : nat) (str : string) (internals : string)
    (i : nat) : result (string * nat) :=
  match fuel with
  | O => Raise OutOfFuel
  | S fuel' =>
      match matchRangeInternal str i with
      | Ok (internal, i') =>
          matchRangeInterior_loop fuel' str (internals +:+ internal) i'
      | Raise MatchFailureException => Ok (internals, i)
      | Raise e => Raise e
      end
  end.

Definition matchRangeInterior (str : string) (i : nat) : result (string * nat) :=
  matchRangeInterior_loop (S (String.length str - i)) str "" i.

Definition matchNegatedRange (str : string) (i : nat) : result (charclass * nat) :=
  i ← matchStatic str i "[^";
  '(cs, i) ← matchRangeInterior str i;
  i ← matchStatic str i "]";
  Ok (charclass_invert (charclass_init cs false), i).

Definition matchRange (str : string) (i : nat) : result (charclass * nat) :=
  i ← matchStatic str i "[";
  '(cs, i) ← matchRangeInterior str i;
  i ← matchStatic str i "]";
  Ok (charclass_init cs false, i).

Definition charclass_match (str : string) (i : nat) : result (charclass * nat) :=
  first_match (fun kv => j ← matchStatic str i (snd kv); Ok (fst kv, j)) shorthand
    (try_except (matchNegatedRange str i) MatchFailureException
       (try_except (matchRange str i) MatchFailureException
          (first_match
             (fun kv => j ← matchStatic str i (snd kv);
                        Ok (charclass_init (str1 (fst kv)) false, j))
             escapes
             (first_match
                (fun char => j ← matchStatic str i ("\" +:+ str1 char);
                             Ok (charclass_init (str1 char) false, j))
                (list_ascii_of_string allSpecial)
                ('(char, i) ← matchAny str i;
                 if char_in char allSpecial then Raise MatchFailureException
                 else Ok (charclass_init (str1 char) false, i)))))).

(** [int(digit)] for a decimal digit *)
Definition int_of_digit (c : ascii) : Z := Z.of_nat (nat_of_ascii c - 48).

Fixpoint matchInteger_loop (fuel : nat) (str : string) (integer : Z) (i : nat)
  : result (Z * nat) :=
  match fuel with
  | O => Raise OutOfFuel
  | S fuel' =>
      match matchAnyOf str i "0123456789" with
      | Ok (digit, i') =>
          matchInteger_loop fuel' str (integer * 10 + int_of_digit digit)%Z i'
      | Raise MatchFailureException => Ok (integer, i)
      | Raise e => Raise e
      end
  end.

Definition matchInteger (str : string) (i : nat) : result (Z * nat) :=
  try_except (j ← matchStatic str i "0"; Ok (0%Z, j)) MatchFailureException
    ('(digit, i) ← matchAnyOf str i "123456789";
     matchInteger_loop (S (String.length str - i)) str (int_of_digit digit) i).

(** [sorted(symbolic, key=lambda key: -len(symbolic[key]))]: the three
    one-character symbols, then the empty one. *)
Definition symbolic_by_length : list (multiplier * string) :=
  [ (qm, "?"); (star, "*"); (plus, "+"); (one, "") ].

Definition multiplier_match (str : string) (i : nat) : result (multiplier * nat) :=
  try_except
    (j ← matchStatic str i "{";
     '(min, j) ← matchInteger str j;
     j ← matchStatic str j ",";
     '(max, j) ← matchInteger str j;
     j ← matchStatic str j "}";
     m ← multiplier_init (Some min) (Some max);
     Ok (m, j))
    MatchFailureException
    (try_except
       (j ← matchStatic str i "{";
        '(min, j) ← matchInteger str j;
        j ← matchStatic str j ",}";
        m ← multiplier_init (Some min) None;
        Ok (m, j))
       MatchFailureException
       (try_except
          (j ← matchStatic str i "{";
           '(min, j) ← matchInteger str j;
           j ← matchStatic str j "}";
           m ← multiplier_init (Some min) (Some min);
           Ok (m, j))
          MatchFailureException
          (first_match (fun kv => j ← matchStatic str i (snd kv); Ok (fst kv, j))
             symbolic_by_length (Raise MatchFailureException)))).

Section Match.
(** [pattern.match], as [mult.match] calls it for a parenthesised
    subpattern. *)
Variable pattern_match : string -> nat -> result (lego * nat).

Definition mult_match (str : string) (i : nat) : result (lego * nat) :=
  '(multiplicand, j) ←
    try_except
      (j ← matchStatic str i "(";
       '(multiplicand, j) ← pattern_match str j;
       j ← matchStatic str j ")";
       Ok (multiplicand, j))
      MatchFailureException
      ('(c, j) ← charclass_match str i; Ok (LCharclass c, j));
  '(x, j) ← multiplier_match str j;
  m ← mult_init multiplicand x;
  Ok (m, j).

Fixpoint conc_match_loop (fuel : nat) (str : string) (mults : list lego) (i : nat)
  : result (lego * nat) :=
  match fuel with
  | O => Raise OutOfFuel
  | S fuel' =>
      match mult_match str i with
      | Ok (x, i') => conc_match_loop fuel' str (mults ++ [x]) i'
      | Raise MatchFailureException => c ← conc_init mults; Ok (c, i)
      | Raise e => Raise e
      end
  end.

Definition conc_match (str : string) (i : nat) : result (lego * nat) :=
  conc_match_loop (S (String.length str - i)) str [] i.

Fixpoint pattern_match_loop (fuel : nat) (str : string) (concs : list lego) (i : nat)
  : result (lego * nat) :=
  match fuel with
  | O => Raise OutOfFuel
  | S fuel' =>
      match (i' ← matchStatic str i "|"; conc_match str i') with
      | Ok (x, i') => pattern_match_loop fuel' str (concs ++ [x]) i'
      | Raise MatchFailureException => p ← pattern_init concs; Ok (p, i)
      | Raise e => Raise e
      end
  end.

Definition pattern_match_body (str : string) (i : nat) : result (lego * nat) :=
  '(x, i) ← conc_match str i;
  pattern_match_loop (S (String.length str - i)) str [x] i.
End Match.

(** [pattern.match]; the fuel bounds the nesting of parentheses. *)
Fixpoint pattern_match_fuel (fuel : nat) (str : string) (i : nat)
  : result (lego * nat) :=
  match fuel with
  | O => Raise OutOfFuel
  | S fuel' => pattern_match_body (pattern_match_fuel fuel') str i
  end.

Definition pattern_match (str : string) (i : nat) : result (lego * nat) :=
  pattern_match_fuel (S (String.length str - i)) str i.

Definition pattern_parse (str : string) : result lego :=
  '(result, i) ← pattern_match str 0;
  if negb (i =? String.length str)%nat then Raise MatchFailureException
  else Ok result.

(** ** fsm() and the intersection operator

    The module [fsm] is an external collaborator: its constructor and
    operators are parameters.  An alphabet is a set of symbols that may
    hold the extra symbol [None]. *)

Fixpoint lego_alphabet (self : lego) : gset ascii :=
  match self with
  | LPattern concs =>
      fold_left
        (fun alphabet c =>
           match c with
           | LConc mults =>
               fold_left
                 (fun alphabet m =>
                    match m with
                    | LMult (LCharclass c) _ => alphabet ∪ chars c
                    | LMult p _ => alphabet ∪ lego_alphabet p
                    | _ => alphabet
                    end) mults alphabet
           | _ => alphabet
           end) concs ∅
  | _ => ∅
  end.

(** [pattern.alphabet()]; only patterns have the method. *)
Definition pattern_alphabet (self : lego) : result (gset ascii) :=
  if has_type KPattern self then Ok (lego_alphabet self) else Raise AttributeError.

Section Fsm.
Variable fsm : Type.
(** [fsm(alphabet, states, initialState, finalStates, map)] *)
Variable fsm_init :
  gset (option ascii) -> gset nat -> nat -> gset nat ->
  gmap nat (gmap (option ascii) nat) -> fsm.
Variables epsilon null : gset (option ascii) -> fsm.
(** [+], [|], [&] and [* (min, max)] on machines; [fsm.pattern()] *)
Variables fsm_add fsm_or fsm_and : fsm -> fsm -> fsm.
Variable fsm_mul : fsm -> option Z * option Z -> fsm.
Variable fsm_pattern : fsm -> result lego.

Definition charclass_fsm (self : charclass) (alphabet : gset (option ascii)) : fsm :=
  let in_chars (symbol : option ascii) : bool :=
    match symbol with
    | Some c => bool_decide (c ∈ chars self)
    | None => false
    end in
  let row (f : option ascii -> nat) : gmap (option ascii) nat :=
    set_to_map (fun symbol => (symbol, f symbol)) alphabet in
  let map : gmap nat (gmap (option ascii) nat) :=
    if negated self then
      {[ 0%nat := row (fun symbol => if in_chars symbol then 2%nat else 1%nat);
         1%nat := row (fun _ => 2%nat);
         2%nat := row (fun _ => 2%nat) ]}
    else
      {[ 0%nat := row (fun symbol => if in_chars symbol then 1%nat else 2%nat);
         1%nat := row (fun _ => 2%nat);
         2%nat := row (fun _ => 2%nat) ]} in
  fsm_init alphabet {[ 0%nat; 1%nat; 2%nat ]} 0%nat {[ 1%nat ]} map.

Fixpoint lego_fsm (self : lego) (alphabet : gset (option ascii)) : fsm :=
  match self with
  | LCharclass c => charclass_fsm c alphabet
  | LMult multiplicand mu => fsm_mul (lego_fsm multiplicand alphabet) (mmin mu, mmax mu)
  | LConc mults =>
      fold_left (fun fsm1 m => fsm_add fsm1 (lego_fsm m alphabet)) mults (epsilon alphabet)
  | LPattern concs =>
      fold_left (fun fsm1 c => fsm_or fsm1 (lego_fsm c alphabet)) concs (null alphabet)
  end.

(** [pattern.__and__]; [pattern(conc)] passes the class [conc]. *)
Definition pattern_and (self other : lego) : result lego :=
  other ← (if has_type KMult other then conc_init [other] else Ok other);
  other ← (if has_type KConc other then pattern_init_args [PClass KConc] else Ok other);
  a1 ← pattern_alphabet self;
  a2 ← pattern_alphabet other;
  let alphabet : gset (option ascii) := set_map Some (a1 ∪ a2) ∪ {[ None ]} in
  let combinedFsm := fsm_and (lego_fsm self alphabet) (lego_fsm other alphabet) in
  fsm_pattern combinedFsm.

Definition conc_and (self other : lego) : result lego :=
  p ← pattern_init [self]; pattern_and p other.

Definition mult_and (self other : lego) : result lego :=
  if negb (has_type KMult other) then c ← conc_init [self]; conc_and c other
  else mult_and_mult self other.

Definition charclass_and_lego (self other : lego) : result lego :=
  match self, other with
  | LCharclass a, LCharclass b => Ok (LCharclass (charclass_and a b))
  | _, _ => m ← mult_init self one; mult_and m other
  end.

(** [self & other]: dispatch on the class of [self]. *)
Definition lego_and (self other : lego) : result lego :=
  match self with
  | LCharclass _ => charclass_and_lego self other
  | LMult _ _ => mult_and self other
  | LConc _ => conc_and self other
  | LPattern _ => pattern_and self other
  end.
End Fsm.

(** ** __hash__

    [tuple.__hash__] and [frozenset.__hash__] are builtins.  The hash of
    a tuple combines the hashes of its items in order; the hash of a
    frozenset combines the hashes of its members with an operation that
    does not depend on the order in which they are visited. *)
Section Hash.
Variable H : Type.
Variable hash_chars : gset ascii -> H.
Variable hash_bool : bool -> H.
Variable hash_int : option Z -> H.
(** [tuple.__hash__]: a left fold of [tuple_step] from [tuple_seed] *)
Variable tuple_seed : H.
Variable tuple_step : H -> H -> H.
(** [frozenset.__hash__]: [set_finish] of the [set_op]-combination of
    the members' hashes *)
Variable set_unit : H.
Variable set_op : H -> H -> H.
Variable set_finish : nat -> H -> H.

Definition tuple_hash (items : list H) : H := fold_left tuple_step items tuple_seed.
Definition frozenset_hash (members : list H) : H :=
  set_finish (length members) (foldr set_op set_unit members).

Definition multiplier_hash (m : multiplier) : H :=
  tuple_hash [hash_int (mmin m); hash_int (mmax m)].

Fixpoint lego_hash (self : lego) : H :=
  match self with
  | LCharclass c => tuple_hash [hash_chars (chars c); hash_bool (negated c)]
  | LMult multiplicand mu => tuple_hash [lego_hash multiplicand; multiplier_hash mu]
  | LConc mults => tuple_hash (List.map lego_hash mults)
  | LPattern concs => frozenset_hash (List.map lego_hash concs)
  end.
End Hash.

(** ** Well-formed pieces and the vocabulary of the specification *)

(** The pieces that the constructors can build: the multiplicand of a mult
    is a charclass or a pattern and its multiplier is one that
    [multiplier.__init__] accepts, a conc holds mults, a pattern holds
    concs without repetition. *)
Fixpoint nodup_eqb (l : list lego) : bool :=
  match l with
  | [] => true
  | x :: l' => negb (lego_in x l') && nodup_eqb l'
  end.

Fixpoint well_formed (t : lego) : bool :=
  match t with
  | LCharclass _ => true
  | LMult x mu =>
      (has_type KCharclass x || has_type KPattern x)
      && well_formed x && bool_decide (multiplier_valid mu)
  | LConc ms => forallb (fun m => has_type KMult m && well_formed m) ms
  | LPattern cs =>
      forallb (fun c => has_type KConc c && well_formed c) cs && nodup_eqb cs
  end.

(** Arithmetic on one component of the (mandatory, optional) view, in the
    words of the specification: [n - m] when both are finite, infinity
    minus infinity is 0, infinity minus [n] is infinity, [n] minus
    infinity fails ([None]). *)
Definition component_minus (a b : option Z) : option (option Z) :=
  match a, b with
  | Some n, Some m => Some (Some (n - m)%Z)
  | None, None => Some (Some 0%Z)
  | None, Some _ => Some None
  | Some _, None => None
  end.

(** The smaller of two components, infinity being larger than every
    finite value. *)
Definition component_min (a b : option Z) : option Z :=
  match a, b with
  | Some n, Some m => Some (Z.min n m)
  | Some n, None => Some n
  | None, b => b
  end.

(** Addition with infinity absorbing. *)
Definition component_plus (a b : option Z) : option Z :=
  match a, b with
  | Some n, Some m => Some (n + m)%Z
  | _, _ => None
  end.

(** The terms without a printable form: the empty charclass, a multiplier
    with max = 0 or min infinite, the empty pattern, and every term that
    contains one of them. *)
Definition multiplier_unprintable (mu : multiplier) : bool :=
  bool_decide (mmax mu = Some 0%Z) || bool_decide (mmin mu = None).

Fixpoint unprintable (t : lego) : bool :=
  match t with
  | LCharclass c => bool_decide (c = charclass_empty)
  | LMult x mu => unprintable x || multiplier_unprintable mu
  | LConc ms => existsb unprintable ms
  | LPattern cs => bool_decide (cs = []) || existsb unprintable cs
  end.

(** Membership of a symbol in the set that a charclass denotes. *)
Definition charclass_accepts (c : charclass) (x : ascii) : bool :=
  xorb (bool_decide (x ∈ chars c)) (negated c).

(** ** The term that a rendered text spells

    [regex()] writes a mult [x{n}] as [n] copies of the text of [x] when
    that is not longer, and the alternatives of a pattern in the order of
    their texts.  [reparsed t] is [t] read in that way: such a mult counts
    as [n] mults [x], and the concs of a pattern are listed by their
    texts. *)







(** A result of the parser at position [i] of a text, seen from a text
    that has [n] more characters in front. *)
Definition shift {A} (n : nat) (r : result (A * nat)) : result (A * nat) :=
  match r with
  | Ok (v, j) => Ok (v, (n + j)%nat)
  | Raise e => Raise e
  end.

Definition shift_pos (n : nat) (r : result nat) : result nat :=
  match r with
  | Ok j => Ok (n + j)%nat
  | Raise e => Raise e
  end.

(** ** Vocabulary of the parser round trip

    The definitions below describe texts and runs of the parser; they
    are used to state what the parser does with a rendered text. *)

(** The first character of a text is none of those of [l]. *)
Definition starts_without (l : string) (s : string) : bool :=
  match s with
  | EmptyString => true
  | String x _ => negb (char_in x l)
  end.

(** What [recordRange] appends for the range [cur]. *)
Definition unit_text (cur : string) : string := snd (recordRange (cur, "")).

(** Parsing the text [O] adds the characters [S] to the interior. *)
Definition consumes (O S : string) : Prop :=
  forall tail acc f,
    starts_without "-" tail = true -> String.length (O +:+ tail) < f ->
    exists f', String.length tail < f'
      /\ matchRangeInterior_loop f (O +:+ tail) acc 0
         = shift (String.length O) (matchRangeInterior_loop f' tail (acc +:+ S) 0).

(** The runs of consecutive characters of the allowable ranges. *)
Definition all_runs : list string :=
  flat_map (fun R =>
    flat_map (fun ia =>
      List.map (fun n => String.substring ia n R) (seq 1 (String.length R - ia)))
      (seq 0 (String.length R))) allowableRanges.

(** [cur] is one of those runs. *)
Definition is_run (cur : string) : bool := existsb (String.eqb cur) all_runs.

(** The 256 characters. *)
Definition all_chars : list ascii := List.map ascii_of_nat (seq 0 256).

(** A pending range of more than three characters is written as
    [first-last], and [matchRange_span] finds it again between its ends. *)
Definition range_unit_ok (cur : string) : bool :=
  (String.length cur <=? 3)%nat
  || match str_first cur, str_last cur with
     | Some a, Some b =>
         String.eqb (unit_text cur) (escapeChar a +:+ "-" +:+ escapeChar b)
         && match matchRange_span a b allowableRanges with
            | Ok span => String.eqb span cur
            | Raise _ => false
            end
     | _, _ => false
     end.

(** [escape_step] leaves a run a run when it does not record it. *)
Definition step_keeps_run (cur : string) (char : ascii) : bool :=
  let st := escape_step (cur, "") char in
  if String.eqb (snd st) "" then is_run (fst st) else true.

(** The pending range of [escape]: empty, a single character, or a run. *)
Definition pending (cur : string) : Prop :=
  String.length cur <= 1 \/ is_run cur = true.

(** The text that [escape] writes for the characters [L]. *)
Definition escape_list (L : list ascii) : string :=
  snd (recordRange (fold_left escape_step L ("", ""))).

(** The text that [charclass.regex] writes for the class of the one
    character [char]. *)
Definition single_text (char : ascii) : string :=
  match escapes_get char with
  | Some e => e
  | None => if char_in char allSpecial then "\" +:+ str1 char else str1 char
  end.







(** The first part of [mult.match]: a subpattern in parentheses, or a
    character class. *)
Definition multiplicand_match (pm : string -> nat -> result (lego * nat))
    (str : string) (i : nat) : result (lego * nat) :=
  try_except
    (j ← matchStatic str i "(";
     '(multiplicand, j) ← pm str j;
     j ← matchStatic str j ")";
     Ok (multiplicand, j))
    MatchFailureException
    ('(c, j) ← charclass_match str i; Ok (LCharclass c, j)).


(** ** The operator [*]: a piece times a multiplier *)

(** [charclass.__mul__] *)
Definition charclass_mul (self : charclass) (m : multiplier) : result lego :=
  if bool_decide (m = one) then Ok (LCharclass self)
  else mult_init (LCharclass self) m.

(** [pattern.__mul__] *)
Definition pattern_mul (self : lego) (m : multiplier) : result lego :=
  if bool_decide (m = one) then Ok self else mult_init self m.

(** [mult.__mul__] *)
Definition mult_mul (self : lego) (m : multiplier) : result lego :=
  if bool_decide (m = one) then Ok self
  else match self with
       | LMult multiplicand mu => p ← multiplier_mul mu m; mult_init multiplicand p
       | _ => Raise AttributeError
       end.

(** [conc.__mul__] *)
Definition conc_mul (self : lego) (m : multiplier) : result lego :=
  if bool_decide (m = one) then Ok self
  else p ← pattern_init [self]; pattern_mul p m.

(** [self * multiplier], dispatched on the class of [self] *)
Definition lego_mul (self : lego) (m : multiplier) : result lego :=
  match self with
  | LCharclass c => charclass_mul c m
  | LMult _ _ => mult_mul self m
  | LConc _ => conc_mul self m
  | LPattern _ => pattern_mul self m
  end.

(** ** Vocabulary of the further properties *)

(** One round of the loop of [common_mult]. *)
Definition common_step (pick : list lego -> option lego) (err : exn)
    (acc : result (option lego)) (c : lego) : result (option lego) :=
  commonMult ← acc;
  ms ← mults_of c;
  match pick ms with
  | None => Raise err
  | Some m0 =>
      cm ← match commonMult with
           | None => Ok m0
           | Some cm0 =>
               try_except (mult_and_mult cm0 m0)
                 NoCommonMultiplicandException (Raise err)
           end;
      mu ← multiplier_of cm;
      if bool_decide (mu = zero) then Raise err else Ok (Some cm)
  end.

(** The common mult so far: none, or a mult that the constructors accept. *)
Definition common_ok (acc : option lego) : Prop :=
  match acc with
  | None => True
  | Some m => has_type KMult m && well_formed m = true
  end.

(** The symbols that a mult and a conc add to the alphabet of a pattern. *)
Definition mult_symbols (m : lego) : gset ascii :=
  match m with
  | LMult (LCharclass c) _ => chars c
  | LMult p _ => lego_alphabet p
  | _ => ∅
  end.

Definition conc_symbols (c : lego) : gset ascii :=
  match c with
  | LConc mults => ⋃ (mult_symbols <$> mults)
  | _ => ∅
  end.

(** A step of the parser from position [i] of the text [str]: when it
    returns, the position [pos v] that it returns is at least [d]
    characters further and not beyond the end of the text (it is [i] when
    [i] is already beyond the end); when it raises, it raises
    [MatchFailureException] or [Exception]. *)
Definition advances {A} (pos : A -> nat) (d : nat) (str : string) (i : nat)
    (r : result A) : Prop :=
  match r with
  | Ok v => i + d <= pos v /\ pos v <= Nat.max i (String.length str)
  | Raise e => e = MatchFailureException \/ e = Exception
  end.

(* ================================================================== *)
(** * Properties *)

(** ** Results *)

Lemma bind_ok {A B} (m : result A) (f : A -> result B) (b : B) :
  m ≫= f = Ok b -> exists a, m = Ok a /\ f a = Ok b.
Proof. destruct m as [a|e]; simpl; [eauto | discriminate]. Qed.

Lemma bind_raise {A B} (m : result A) (f : A -> result B) (e : exn) :
  m ≫= f = Raise e -> m = Raise e \/ exists a, m = Ok a /\ f a = Raise e.
Proof. destruct m as [a|e']; simpl; [eauto | intros [= ->]; auto]. Qed.

(** ** Character classes *)

Lemma charclass_accepts_invert c x :
  charclass_accepts (charclass_invert c) x = negb (charclass_accepts c x).
Proof.
  unfold charclass_accepts, charclass_invert; simpl.
  destruct (bool_decide (x ∈ chars c)), (negated c); reflexivity.
Qed.

Lemma charclass_accepts_and a b x :
  charclass_accepts (charclass_and a b) x
  = charclass_accepts a x && charclass_accepts b x.
Proof.
  unfold charclass_accepts, charclass_and, charclass_invert.
  destruct a as [sa na], b as [sb nb]; simpl.
  destruct na, nb; simpl;
    repeat match goal with
           | |- context [bool_decide ?P] => destruct (bool_decide_reflect P)
           end; simpl; try reflexivity; exfalso;
    rewrite ?elem_of_union, ?elem_of_intersection, ?elem_of_difference in *;
    tauto.
Qed.

Lemma charclass_accepts_sub a b x :
  charclass_accepts (charclass_sub a b) x
  = charclass_accepts a x && negb (charclass_accepts b x).
Proof.
  unfold charclass_accepts, charclass_sub, charclass_invert.
  destruct a as [sa na], b as [sb nb]; simpl.
  destruct na, nb; simpl;
    repeat match goal with
           | |- context [bool_decide ?P] => destruct (bool_decide_reflect P)
           end; simpl; try reflexivity; exfalso;
    rewrite ?elem_of_union, ?elem_of_intersection, ?elem_of_difference in *;
    tauto.
Qed.

(** C6. For every two character classes [A] and [B], whatever their
    negation flags, the difference [A - B] is the intersection of [A] with
    the complement of [B]; both denote the symbols accepted by [A] and not
    by [B]. *)
Theorem charclass_sub_is_and_invert (A B : charclass) :
  charclass_sub A B = charclass_and A (charclass_invert B)
  /\ forall x, charclass_accepts (charclass_sub A B) x
               = charclass_accepts A x && negb (charclass_accepts B x).
Proof.
  split.
  - destruct A as [sa [|]], B as [sb [|]]; reflexivity.
  - intros x. apply charclass_accepts_sub.
Qed.

(** ** Multipliers *)

Arguments multiplier_init : simpl never.

Lemma multiplier_valid_cases (m : multiplier) :
  multiplier_valid m ->
  (m = inf)
  \/ (exists a, (0 <= a)%Z /\ m = Multiplier (Some a) None)
  \/ (exists a b, (0 <= a <= b)%Z /\ m = Multiplier (Some a) (Some b)).
Proof.
  unfold multiplier_valid, multiplier_init.
  destruct m as [[a|] [b|]]; simpl.
  - destruct (Z.ltb_spec a 0); [discriminate|].
    destruct (Z.ltb_spec b a); [discriminate|].
    intros _. right; right. exists a, b. split; [lia | reflexivity].
  - destruct (Z.ltb_spec a 0); [discriminate|].
    intros _. right; left. exists a. auto.
  - discriminate.
  - intros _. left. reflexivity.
Qed.

Lemma multiplier_init_finite (a b : Z) :
  (0 <= a <= b)%Z ->
  multiplier_init (Some a) (Some b) = Ok (Multiplier (Some a) (Some b)).
Proof.
  intros H. unfold multiplier_init.
  destruct (Z.ltb_spec a 0); [lia|].
  destruct (Z.ltb_spec b a); [lia|]. reflexivity.
Qed.

Lemma multiplier_init_open (a : Z) :
  (0 <= a)%Z -> multiplier_init (Some a) None = Ok (Multiplier (Some a) None).
Proof.
  intros H. unfold multiplier_init.
  destruct (Z.ltb_spec a 0); [lia|]. reflexivity.
Qed.

Lemma multiplier_init_valid (a b : option Z) (m : multiplier) :
  multiplier_init a b = Ok m -> multiplier_valid m /\ mmin m = a /\ mmax m = b.
Proof.
  unfold multiplier_valid, multiplier_init.
  destruct a as [a|], b as [b|]; simpl; try discriminate.
  - destruct (a <? 0)%Z eqn:Ha; [discriminate|].
    destruct (b <? a)%Z eqn:Hb; [discriminate|].
    intros [= <-]; simpl. rewrite Ha, Hb. auto.
  - destruct (a <? 0)%Z eqn:Ha; [discriminate|].
    intros [= <-]; simpl. rewrite Ha. auto.
  - intros [= <-]; simpl. auto.
Qed.

(** The claim C3 as stated fails: the view of [inf - plus] is
    (infinity, 0), and the subtraction raises instead of returning
    [inf]. *)
Lemma multiplier_sub_inf_plus_raises :
  component_minus (mandatory inf) (mandatory plus) = Some None
  /\ component_minus (optional inf) (optional plus) = Some (Some 0%Z)
  /\ multiplier_sub inf plus = Raise Exception
  /\ multiplier_sub inf plus <> Ok inf.
Proof. repeat split; try reflexivity. discriminate. Qed.

(** C3 (amended). Subtraction works per component on the (mandatory,
    optional) view that [__init__] stores, in which [inf] has an infinite
    optional part: [n - m] when both are finite, infinity minus infinity
    is 0, infinity minus [n] is infinity, and [n] minus infinity raises.
    From the resulting view, the constructor is called with
    min = max = infinity when both parts are infinite, and with
    min = mandatory, max = mandatory + optional (infinity absorbing) when
    the mandatory part is finite (it raises on a negative difference);
    when the resulting mandatory part is infinite and the optional part
    finite the subtraction raises. *)
Theorem multiplier_sub_by_components (A B : multiplier) :
  match component_minus (mandatory A) (mandatory B),
        component_minus (optional A) (optional B) with
  | Some (Some m), Some o =>
      multiplier_sub A B = multiplier_init (Some m) (component_plus (Some m) o)
  | Some None, Some None => multiplier_sub A B = Ok inf
  | Some None, Some (Some _) => multiplier_sub A B = Raise Exception
  | None, _ | Some _, None => multiplier_sub A B = Raise Exception
  end.
Proof.
  unfold multiplier_sub, component_minus, component_plus.
  destruct (mandatory A), (mandatory B), (optional A), (optional B);
    simpl; reflexivity.
Qed.

(** When a subtraction of valid multipliers returns, the view of the
    result is the componentwise difference. *)
Lemma multiplier_sub_view (A B R : multiplier) :
  multiplier_valid A -> multiplier_valid B ->
  multiplier_sub A B = Ok R ->
  multiplier_valid R
  /\ component_minus (mandatory A) (mandatory B) = Some (mandatory R)
  /\ component_minus (optional A) (optional B) = Some (optional R).
Proof.
  intros HA HB.
  destruct (multiplier_valid_cases A HA) as [->|[(a & Ha & ->)|(a & a' & Ha & ->)]];
  destruct (multiplier_valid_cases B HB) as [->|[(b & Hb & ->)|(b & b' & Hb & ->)]];
    unfold multiplier_sub, mandatory, optional; simpl; try discriminate;
    intros H; apply multiplier_init_valid in H as (Hv & Hmin & Hmax);
    destruct R as [rmin rmax]; simpl in *; subst; simpl;
    repeat split; try assumption; try reflexivity.
  all: f_equal; f_equal; lia.
Qed.

(** C7. For valid multipliers the common part [A & B] always exists; its
    (mandatory, optional) view is the componentwise minimum, infinity
    being larger than every finite value, and its (min, max) is rebuilt
    from that view as min = mandatory, max = mandatory + optional
    (infinity absorbing, so min = max = infinity when the mandatory part
    is infinite).  In particular {3,4} & {2,5} = {2,3}. *)
Theorem multiplier_and_by_components (A B : multiplier)
    (HA : multiplier_valid A) (HB : multiplier_valid B) :
  (exists R, multiplier_and A B = Ok R
     /\ multiplier_valid R
     /\ mandatory R = component_min (mandatory A) (mandatory B)
     /\ optional R = component_min (optional A) (optional B)
     /\ mmin R = mandatory R
     /\ mmax R = component_plus (mandatory R) (optional R))
  /\ multiplier_and (Multiplier (Some 3%Z) (Some 4%Z)) (Multiplier (Some 2%Z) (Some 5%Z))
     = Ok (Multiplier (Some 2%Z) (Some 3%Z)).
Proof.
  split; [|reflexivity].
  destruct (multiplier_valid_cases A HA) as [->|[(a & Ha & ->)|(a & a' & Ha & ->)]];
  destruct (multiplier_valid_cases B HB) as [->|[(b & Hb & ->)|(b & b' & Hb & ->)]];
    unfold multiplier_and, mandatory, optional, component_min, component_plus; simpl.
  all: try (exists inf; repeat split; reflexivity).
  all: try (rewrite multiplier_init_open by lia; eexists; split; [reflexivity|];
      split; [unfold multiplier_valid; simpl; apply multiplier_init_open; lia|];
      repeat split; reflexivity).
  all: rewrite multiplier_init_finite by lia; eexists; split; [reflexivity|];
    split; [unfold multiplier_valid; simpl; apply multiplier_init_finite; lia|];
    simpl; repeat split; try reflexivity; f_equal; lia.
Qed.

Lemma multiplier_and_by_components_witness :
  exists R, multiplier_and qm plus = Ok R /\ mandatory R = Some 0%Z /\ optional R = Some 1%Z.
Proof.
  assert (Hq : multiplier_valid qm) by reflexivity.
  assert (Hp : multiplier_valid plus) by reflexivity.
  destruct (proj1 (multiplier_and_by_components qm plus Hq Hp))
    as (R & HR & _ & Hm & Ho & _).
  exists R. repeat split; assumption.
Defined.

(** ** Induction on pieces *)

Lemma lego_nested_ind (P : lego -> Prop)
    (Hcharclass : forall c, P (LCharclass c))
    (Hmult : forall x mu, P x -> P (LMult x mu))
    (Hconc : forall ms, Forall P ms -> P (LConc ms))
    (Hpattern : forall cs, Forall P cs -> P (LPattern cs)) :
  forall t, P t.
Proof.
  fix IH 1. intros [c|x mu|ms|cs].
  - apply Hcharclass.
  - apply Hmult, IH.
  - apply Hconc. induction ms as [|m ms IHms]; constructor; [apply IH | exact IHms].
  - apply Hpattern. induction cs as [|c cs IHcs]; constructor; [apply IH | exact IHcs].
Qed.

Lemma map_result_ok {A B} (f : A -> result B) (l : list A) (r : list B) :
  map_result f l = Ok r -> Forall2 (fun a b => f a = Ok b) l r.
Proof.
  revert r. induction l as [|x l IH]; simpl; intros r H.
  - injection H as <-. constructor.
  - destruct (f x) as [y|] eqn:Hx; simpl in H; [|discriminate].
    destruct (map_result f l) as [ys|] eqn:Hl; simpl in H; [|discriminate].
    injection H as <-. constructor; auto.
Qed.

Lemma map_result_all_ok {A B} (f : A -> result B) (l : list A) :
  Forall (fun a => exists b, f a = Ok b) l -> exists r, map_result f l = Ok r.
Proof.
  induction 1 as [|x l [y Hy] _ [ys Hys]]; simpl.
  - eauto.
  - rewrite Hy; simpl. rewrite Hys; simpl. eauto.
Qed.

Lemma map_result_raise {A B} (f : A -> result B) (l : list A) (e : exn) :
  map_result f l = Raise e -> Exists (fun a => f a = Raise e) l.
Proof.
  induction l as [|x l IH]; simpl; [discriminate|].
  destruct (f x) as [y|e'] eqn:Hx; simpl.
  - destruct (map_result f l) as [ys|e'']; simpl; [discriminate|].
    intros [= ->]. right. auto.
  - intros [= ->]. left. assumption.
Qed.

(** ** Rendering *)

Lemma str_length_app (a b : string) :
  String.length (a +:+ b) = (String.length a + String.length b)%nat.
Proof. induction a as [|c a IH]; simpl; [reflexivity | now rewrite IH]. Qed.

Lemma str_repeat_length (s : string) (n : nat) :
  String.length (str_repeat s n) = (n * String.length s)%nat.
Proof.
  induction n as [|n IH]; simpl; [reflexivity|].
  now rewrite str_length_app, IH.
Qed.

Lemma charclass_regex_cases (c : charclass) :
  (c = charclass_empty /\ charclass_regex c = Raise NoRegexException)
  \/ (c <> charclass_empty /\ exists s, charclass_regex c = Ok s).
Proof.
  unfold charclass_regex.
  destruct (shorthand_get c) as [str|] eqn:Hs.
  - right. split; [|eauto]. intros ->. vm_compute in Hs. discriminate.
  - destruct (Nat.ltb_spec (size (chars c)) 1) as [Hsz|Hsz].
    + assert (Hempty : chars c = ∅).
      { apply leibniz_equiv, size_empty_iff. lia. }
      destruct c as [cs [|]]; simpl in *; subst cs.
      * vm_compute in Hs. discriminate.
      * left. split; reflexivity.
    + right. split.
      * intros ->. vm_compute in Hsz. lia.
      * destruct (negated c); [eauto|].
        destruct (elements (chars c)) as [|char [|]]; eauto.
        destruct (escapes_get char); eauto.
        destruct (char_in char allSpecial); eauto.
Qed.

Lemma multiplier_regex_cases (mu : multiplier) :
  (multiplier_unprintable mu = true /\ multiplier_regex mu = Raise NoRegexException)
  \/ (multiplier_unprintable mu = false /\ exists s, multiplier_regex mu = Ok s).
Proof.
  unfold multiplier_unprintable, multiplier_regex.
  destruct (mmin mu) as [mn|] eqn:Hmin.
  - destruct (bool_decide (mmax mu = Some 0%Z)) eqn:Hmax; simpl.
    + left. split; reflexivity.
    + right. split; [reflexivity|].
      destruct (symbolic_get mu); eauto.
      destruct (mmax mu); eauto.
      destruct (mn =? z)%Z; eauto.
  - left. split; [|reflexivity].
    destruct (bool_decide (mmax mu = Some 0%Z)); reflexivity.
Qed.

Lemma regex_list_cases (l : list lego) :
  Forall (fun t => (unprintable t = true /\ lego_regex t = Raise NoRegexException)
                   \/ (unprintable t = false /\ exists s, lego_regex t = Ok s)) l ->
  (existsb unprintable l = true
   /\ map_result lego_regex l = Raise NoRegexException)
  \/ (existsb unprintable l = false
      /\ exists rs, map_result lego_regex l = Ok rs).
Proof.
  induction 1 as [|m ms Hm _ IHms]; simpl; [right; eauto|].
  destruct Hm as [[Hu Hr]|[Hu [r Hr]]]; rewrite Hu, Hr; simpl.
  - left. split; reflexivity.
  - destruct IHms as [[Hu' Hr']|[Hu' [rs Hr']]]; rewrite Hu', Hr'; simpl.
    + left. split; reflexivity.
    + right. eauto.
Qed.

(** C4. [regex()] raises [NoRegexException] exactly on the terms that are
    or contain the empty charclass, a multiplier with max = 0 or min
    infinite, or the empty pattern; on every other term it returns a
    string. *)
Theorem regex_raises_iff_unprintable (t : lego) :
  (lego_regex t = Raise NoRegexException <-> unprintable t = true)
  /\ (unprintable t = false -> exists s, lego_regex t = Ok s).
Proof.
  assert (Hcases : (unprintable t = true /\ lego_regex t = Raise NoRegexException)
                   \/ (unprintable t = false /\ exists s, lego_regex t = Ok s)).
  { induction t as [c|x mu IH|ms IH|cs IH] using lego_nested_ind.
    - simpl. destruct (charclass_regex_cases c) as [[-> H]|[Hne H]].
      + left. split; [reflexivity | exact H].
      + right. split; [|exact H]. apply bool_decide_eq_false. exact Hne.
    - simpl.
      destruct IH as [[Hu Hr]|[Hu [r Hr]]]; rewrite Hu, Hr; simpl.
      + left. split; [reflexivity|]. destruct (has_type KPattern x); reflexivity.
      + destruct (multiplier_regex_cases mu) as [[Hm Hs]|[Hm [s Hs]]]; rewrite Hm.
        * left. split; [reflexivity|].
          destruct (has_type KPattern x); simpl; rewrite Hs; reflexivity.
        * right. split; [reflexivity|].
          destruct (has_type KPattern x); simpl; rewrite Hs; simpl;
            destruct (mmin mu); try destruct (_ && _); eauto.
    - simpl.
      destruct (regex_list_cases ms IH) as [[Hu Hr]|[Hu [rs Hr]]];
        rewrite Hu, Hr; simpl; [left|right]; eauto.
    - simpl.
      destruct (regex_list_cases cs IH) as [[Hu Hr]|[Hu [rs Hr]]];
        destruct cs as [|c cs]; try (left; split; reflexivity).
      + rewrite Hu, orb_true_r.
        change (length (c :: cs) <? 1)%nat with false. cbv iota.
        rewrite Hr. left. split; reflexivity.
      + assert (Hnil : bool_decide (c :: cs = []) = false)
          by (apply bool_decide_eq_false; discriminate).
        rewrite Hnil, Hu. cbn [orb].
        change (length (c :: cs) <? 1)%nat with false. cbv iota.
        rewrite Hr. right. simpl. eauto. }
  destruct Hcases as [[Hu Hr]|[Hu [s Hr]]]; rewrite Hu, Hr; split.
  - split; reflexivity.
  - discriminate.
  - split; discriminate.
  - eauto.
Qed.

Lemma str_repeat_unfold (s : string) (n : Z) :
  (1 <= n)%Z -> s +:+ str_repeat s (Z.to_nat (n - 1)) = str_repeat s (Z.to_nat n).
Proof.
  intros Hn. replace (Z.to_nat n) with (S (Z.to_nat (n - 1))) by lia. reflexivity.
Qed.

(** C9. Let [output] be the rendered multiplicand (in parentheses when it
    is a pattern) and [suffix] the text of the multiplier.  When min = max
    = n, the mult renders as [output] repeated [n] times if that is not
    longer than [output] followed by [suffix] (so a tie goes to the
    repeated form), and as [output] followed by [suffix] otherwise; when
    min and max differ it renders as [output] followed by [suffix]. *)
Theorem mult_regex_shorter_form (multiplicand : lego) (mu : multiplier)
    (r suffix : string)
    (Hmu : multiplier_valid mu)
    (Hr : lego_regex multiplicand = Ok r)
    (Hs : multiplier_regex mu = Ok suffix) :
  let output := if has_type KPattern multiplicand then "(" +:+ r +:+ ")" else r in
  let braced := output +:+ suffix in
  (forall n, mmin mu = Some n -> mmax mu = Some n ->
     let repeated := str_repeat output (Z.to_nat n) in
     lego_regex (LMult multiplicand mu)
     = Ok (if (String.length repeated <=? String.length braced)%nat
           then repeated else braced))
  /\ (mmin mu <> mmax mu -> lego_regex (LMult multiplicand mu) = Ok braced).
Proof.
  intros output braced.
  assert (Hout : (if has_type KPattern multiplicand
                  then r0 ← lego_regex multiplicand; Ok ("(" +:+ r0 +:+ ")")
                  else lego_regex multiplicand) = Ok output).
  { unfold output. rewrite Hr. destruct (has_type KPattern multiplicand); reflexivity. }
  split.
  - intros n Hmin Hmax repeated.
    cbn [lego_regex]. rewrite Hout. cbn [mbind result_bind]. rewrite Hs.
    cbn [mbind result_bind]. rewrite Hmin, Hmax.
    rewrite bool_decide_eq_true_2 by reflexivity. cbn [andb].
    assert (Hn : (1 <= n)%Z).
    { destruct (multiplier_valid_cases mu Hmu) as [->|[(a & Ha & ->)|(a & b & Ha & ->)]];
        simpl in *; try discriminate.
      injection Hmin as ->. injection Hmax as ->.
      unfold multiplier_regex in Hs. simpl in Hs.
      destruct (bool_decide_reflect (Some n = Some 0%Z)) as [Heq|Hne]; [discriminate|].
      assert (n <> 0%Z) by congruence. lia. }
    rewrite str_repeat_unfold by exact Hn. fold repeated.
    assert (Hlen : String.length repeated = (Z.to_nat n * String.length output)%nat)
      by apply str_repeat_length.
    assert (Hlen' : String.length braced
                    = (String.length output + String.length suffix)%nat)
      by apply str_length_app.
    destruct (Z.leb_spec (Z.of_nat (String.length output) * n)
                (Z.of_nat (String.length output) + Z.of_nat (String.length suffix)));
      destruct (Nat.leb_spec (String.length repeated) (String.length braced));
      try reflexivity; exfalso; nia.
  - intros Hne. cbn [lego_regex]. rewrite Hout. cbn [mbind result_bind]. rewrite Hs.
    cbn [mbind result_bind].
    destruct (mmin mu) as [mn|]; [|reflexivity].
    rewrite bool_decide_eq_false_2 by exact Hne. reflexivity.
Qed.

Lemma mult_regex_shorter_form_witness :
  lego_regex (LMult (LCharclass (charclass_init "a" false)) (Multiplier (Some 4%Z) (Some 4%Z)))
  = Ok "aaaa"
  /\ lego_regex (LMult (LCharclass (charclass_init "a" false)) (Multiplier (Some 5%Z) (Some 5%Z)))
     = Ok "a{5}".
Proof.
  split.
  - exact (proj1 (mult_regex_shorter_form (LCharclass (charclass_init "a" false))
                    (Multiplier (Some 4%Z) (Some 4%Z)) "a" "{4}"
                    eq_refl eq_refl eq_refl) 4%Z eq_refl eq_refl).
  - exact (proj1 (mult_regex_shorter_form (LCharclass (charclass_init "a" false))
                    (Multiplier (Some 5%Z) (Some 5%Z)) "a" "{5}"
                    eq_refl eq_refl eq_refl) 5%Z eq_refl eq_refl).
Defined.

(** ** The parser on an empty pair of brackets *)

(** C10. The interior of a bracketed class may hold no range item:
    ["[]"] parses, to the pattern whose only conc has as its only mult the
    empty charclass with multiplier [one]; rendering that pattern raises
    [NoRegexException]. *)
Theorem parse_empty_brackets :
  matchRangeInterior "[]" 1 = Ok ("", 1%nat)
  /\ pattern_parse "[]"
     = Ok (LPattern [LConc [LMult (LCharclass charclass_empty) one]])
  /\ lego_regex (LPattern [LConc [LMult (LCharclass charclass_empty) one]])
     = Raise NoRegexException.
Proof. repeat split; vm_compute; reflexivity. Qed.

(** ** The intersection operator *)

Section FsmFacts.
Variable fsm : Type.
Variable fsm_init :
  gset (option ascii) -> gset nat -> nat -> gset nat ->
  gmap nat (gmap (option ascii) nat) -> fsm.
Variables epsilon null : gset (option ascii) -> fsm.
Variables fsm_add fsm_or fsm_and : fsm -> fsm -> fsm.
Variable fsm_mul : fsm -> option Z * option Z -> fsm.
Variable fsm_pattern : fsm -> result lego.

Let land := lego_and fsm fsm_init epsilon null fsm_add fsm_or fsm_and fsm_mul fsm_pattern.

(** C5 (the code departs from it). Whatever the machines of the
    collaborator are, [P & c] for a pattern [P] and a conc [c] raises
    the [Exception] of [pattern.__init__]: the class [conc] is wrapped,
    not the value, and no intersection of machines is computed.  The
    same happens when the right operand is a mult. *)
Theorem pattern_and_conc_raises (concs mults : list lego) :
  land (LPattern concs) (LConc mults) = Raise Exception
  /\ forall x mu, land (LPattern concs) (LMult x mu) = Raise Exception.
Proof.
  split.
  - reflexivity.
  - intros x mu. unfold land, lego_and, pattern_and. simpl.
    unfold conc_init. simpl. reflexivity.
Qed.
End FsmFacts.

(** ** Equality of pieces *)

Lemma lego_eqb_conc_cons (x y : lego) (l1 l2 : list lego) :
  lego_eqb (LConc (x :: l1)) (LConc (y :: l2))
  = lego_eqb x y && lego_eqb (LConc l1) (LConc l2).
Proof. reflexivity. Qed.

Lemma lego_eqb_conc (ms ns : list lego) :
  lego_eqb (LConc ms) (LConc ns) = true
  <-> Forall2 (fun x y => lego_eqb x y = true) ms ns.
Proof.
  revert ns. induction ms as [|m ms IH]; intros [|n ns].
  - split; [constructor | reflexivity].
  - split; [discriminate | inversion 1].
  - split; [discriminate | inversion 1].
  - rewrite lego_eqb_conc_cons, andb_true_iff, IH. split.
    + intros [H1 H2]. constructor; assumption.
    + inversion 1; subst. split; assumption.
Qed.

Lemma lego_eqb_pattern (cs ds : list lego) :
  lego_eqb (LPattern cs) (LPattern ds) = true
  <-> (forall c, In c cs -> exists d, In d ds /\ lego_eqb c d = true)
      /\ (forall d, In d ds -> exists c, In c cs /\ lego_eqb c d = true).
Proof.
  cbn [lego_eqb]. rewrite andb_true_iff, !forallb_forall. split.
  - intros [H1 H2]. split.
    + intros c Hc. apply H1 in Hc. apply existsb_exists in Hc. exact Hc.
    + intros d Hd. apply H2 in Hd. apply existsb_exists in Hd. exact Hd.
  - intros [H1 H2]. split.
    + intros c Hc. apply existsb_exists. auto.
    + intros d Hd. apply existsb_exists. auto.
Qed.

Lemma lego_eqb_refl (t : lego) : lego_eqb t t = true.
Proof.
  induction t as [c|x mu IH|ms IH|cs IH] using lego_nested_ind.
  - simpl. apply bool_decide_eq_true_2. reflexivity.
  - simpl. rewrite IH. apply bool_decide_eq_true_2. reflexivity.
  - apply lego_eqb_conc. induction IH; constructor; assumption.
  - apply lego_eqb_pattern. rewrite Forall_forall in IH.
    split; intros c Hc; exists c; split; auto; apply IH; apply list_elem_of_In; exact Hc.
Qed.

Lemma lego_eqb_sym (a b : lego) : lego_eqb a b = true -> lego_eqb b a = true.
Proof.
  revert b. induction a as [c|x mu IH|ms IH|cs IH] using lego_nested_ind;
    intros [d|y nu|ns|ds]; try discriminate.
  - simpl. intros H. apply bool_decide_eq_true in H. subst.
    apply bool_decide_eq_true_2. reflexivity.
  - simpl. rewrite !andb_true_iff. intros [H1 H2].
    apply bool_decide_eq_true in H2. subst. split; [apply IH, H1|].
    apply bool_decide_eq_true_2. reflexivity.
  - rewrite !lego_eqb_conc. intros H. revert IH.
    induction H as [|m n ms ns Hmn _ IHF]; intros IH; constructor.
    + inversion IH; subst. auto.
    + inversion IH; subst. auto.
  - rewrite !lego_eqb_pattern. rewrite Forall_forall in IH.
    intros [H1 H2]. split.
    + intros d Hd. destruct (H2 d Hd) as (c & Hc & Hcd).
      exists c. split; [exact Hc|]. apply IH; [apply list_elem_of_In; exact Hc | exact Hcd].
    + intros c Hc. destruct (H1 c Hc) as (d & Hd & Hcd).
      exists d. split; [exact Hd|]. apply IH; [apply list_elem_of_In; exact Hc | exact Hcd].
Qed.

Lemma lego_eqb_trans (a b c : lego) :
  lego_eqb a b = true -> lego_eqb b c = true -> lego_eqb a c = true.
Proof.
  revert b c. induction a as [ca|x mu IH|ms IH|cs IH] using lego_nested_ind;
    intros [cb|y nu|ns|ds] [cc|z xi|os|es]; try discriminate.
  - simpl. intros H1 H2. apply bool_decide_eq_true in H1, H2. subst.
    apply bool_decide_eq_true_2. reflexivity.
  - simpl. rewrite !andb_true_iff. intros [H1 H2] [H3 H4].
    apply bool_decide_eq_true in H2, H4. subst. split; [eapply IH; eassumption|].
    apply bool_decide_eq_true_2. reflexivity.
  - rewrite !lego_eqb_conc. intros H1. revert os IH.
    induction H1 as [|m n ms ns Hmn _ IHF]; intros os IH H2.
    + inversion H2. constructor.
    + inversion H2; subst. inversion IH; subst. constructor; eauto.
  - rewrite !lego_eqb_pattern. rewrite Forall_forall in IH.
    intros [H1 H2] [H3 H4]. split.
    + intros c Hc. destruct (H1 c Hc) as (d & Hd & Hcd).
      destruct (H3 d Hd) as (e & He & Hde).
      exists e. split; [exact He|].
      eapply IH; [apply list_elem_of_In; exact Hc | exact Hcd | exact Hde].
    + intros e He. destruct (H4 e He) as (d & Hd & Hde).
      destruct (H2 d Hd) as (c & Hc & Hcd).
      exists c. split; [exact Hc|].
      eapply IH; [apply list_elem_of_In; exact Hc | exact Hcd | exact Hde].
Qed.

Lemma lego_in_spec (x : lego) (l : list lego) :
  lego_in x l = true <-> exists y, In y l /\ lego_eqb x y = true.
Proof. unfold lego_in. apply existsb_exists. Qed.

Lemma lego_in_false (x : lego) (l : list lego) :
  lego_in x l = false <-> forall y, In y l -> lego_eqb x y = false.
Proof.
  split.
  - intros H y Hy. destruct (lego_eqb x y) eqn:E; [|reflexivity].
    rewrite <- H. symmetry. apply lego_in_spec. eauto.
  - intros H. destruct (lego_in x l) eqn:E; [|reflexivity].
    apply lego_in_spec in E as (y & Hy & Hxy). rewrite (H y Hy) in Hxy. discriminate.
Qed.

(** *** frozensets *)

Lemma frozenset_in (x : lego) (l : list lego) :
  lego_in x (frozenset l) = lego_in x l.
Proof.
  induction l as [|y l IH]; [reflexivity|].
  cbn [frozenset]. destruct (lego_in y l) eqn:Hy.
  - rewrite IH. unfold lego_in at 2. cbn [existsb]. fold (lego_in x l).
    destruct (lego_eqb x y) eqn:Hxy; [|reflexivity].
    apply lego_in_spec in Hy as (z & Hz & Hyz).
    apply lego_in_spec. exists z. split; [exact Hz|].
    eapply lego_eqb_trans; eassumption.
  - unfold lego_in at 1 2. cbn [existsb]. fold (lego_in x (frozenset l)) (lego_in x l).
    rewrite IH. reflexivity.
Qed.

Lemma frozenset_incl (x : lego) (l : list lego) : In x (frozenset l) -> In x l.
Proof.
  induction l as [|y l IH]; [auto|].
  cbn [frozenset]. destruct (lego_in y l); simpl; intuition.
Qed.

Lemma frozenset_nodup (l : list lego) : nodup_eqb (frozenset l) = true.
Proof.
  induction l as [|y l IH]; [reflexivity|].
  cbn [frozenset]. destruct (lego_in y l) eqn:Hy; [exact IH|].
  cbn [nodup_eqb]. rewrite frozenset_in, Hy, IH. reflexivity.
Qed.

Lemma frozenset_nodup_id (l : list lego) : nodup_eqb l = true -> frozenset l = l.
Proof.
  induction l as [|y l IH]; [reflexivity|].
  cbn [nodup_eqb frozenset]. rewrite andb_true_iff, negb_true_iff.
  intros [-> H]. rewrite IH by exact H. reflexivity.
Qed.

Lemma lego_in_perm (x : lego) (l l' : list lego) :
  Permutation l l' -> lego_in x l = lego_in x l'.
Proof.
  intros HP. destruct (lego_in x l') eqn:E.
  - apply lego_in_spec in E as (y & Hy & Hxy). apply lego_in_spec.
    exists y. split; [|exact Hxy]. eapply Permutation_in; [symmetry|]; eassumption.
  - apply lego_in_false. intros y Hy.
    eapply lego_in_false in E; [exact E|]. eapply Permutation_in; eassumption.
Qed.

Lemma frozenset_perm_eqb (l l' : list lego) :
  Permutation l l' ->
  lego_eqb (LPattern (frozenset l)) (LPattern (frozenset l')) = true.
Proof.
  intros HP. apply lego_eqb_pattern. split.
  - intros c Hc.
    assert (H : lego_in c (frozenset l') = true).
    { rewrite frozenset_in, <- (lego_in_perm c l l' HP).
      apply lego_in_spec. exists c. split; [apply frozenset_incl, Hc | apply lego_eqb_refl]. }
    apply lego_in_spec in H. exact H.
  - intros d Hd.
    assert (H : lego_in d (frozenset l) = true).
    { rewrite frozenset_in, (lego_in_perm d l l' HP).
      apply lego_in_spec. exists d. split; [apply frozenset_incl, Hd | apply lego_eqb_refl]. }
    apply lego_in_spec in H as (c & Hc & Hdc).
    exists c. split; [exact Hc | apply lego_eqb_sym, Hdc].
Qed.

Lemma pattern_init_concs (l : list lego) :
  forallb (has_type KConc) l = true ->
  pattern_init l = Ok (LPattern (frozenset l)).
Proof.
  intros H. unfold pattern_init, pattern_init_args.
  assert (Hm : map_result
                 (fun v => match v with
                           | PLego x => if has_type KConc x then Ok x else Raise Exception
                           | PClass _ => Raise Exception
                           end) (PLego <$> l) = Ok l).
  { induction l as [|x l IH]; [reflexivity|].
    cbn [forallb] in H. apply andb_true_iff in H as [Hx Hl].
    cbn [fmap list_fmap map_result]. rewrite Hx. cbn [mbind result_bind].
    change (list_fmap lego pyval PLego l) with (PLego <$> l).
    rewrite (IH Hl). reflexivity. }
  rewrite Hm. reflexivity.
Qed.

Lemma pattern_init_inv (l : list lego) (p : lego) :
  pattern_init l = Ok p ->
  forallb (has_type KConc) l = true /\ p = LPattern (frozenset l).
Proof.
  intros H. destruct (forallb (has_type KConc) l) eqn:E.
  - rewrite pattern_init_concs in H by exact E. injection H as <-. auto.
  - exfalso. unfold pattern_init, pattern_init_args in H.
    apply bind_ok in H as (elems & Hm & _).
    apply map_result_ok in Hm.
    assert (forallb (has_type KConc) l = true); [|congruence].
    clear E. revert elems Hm. induction l as [|x l IH]; intros elems Hm; [reflexivity|].
    cbn [fmap list_fmap] in Hm. inversion Hm; subst. cbn [forallb].
    destruct (has_type KConc x); [|discriminate]. simpl. eapply IH. eassumption.
Qed.

Lemma nodup_eqb_remove (l1 l2 : list lego) (d : lego) :
  nodup_eqb (l1 ++ d :: l2) = true ->
  nodup_eqb (l1 ++ l2) = true
  /\ forall x, In x (l1 ++ l2) -> lego_eqb x d = false.
Proof.
  induction l1 as [|a l1 IH]; cbn [app nodup_eqb];
    rewrite andb_true_iff, negb_true_iff; intros [Hin Hnd].
  - split; [exact Hnd|]. intros x Hx.
    destruct (lego_eqb x d) eqn:E; [|reflexivity].
    apply lego_eqb_sym in E. rewrite lego_in_false in Hin.
    rewrite (Hin x Hx) in E. discriminate.
  - destruct (IH Hnd) as [Hnd' Hne]. rewrite lego_in_false in Hin. split.
    + rewrite Hnd', andb_true_r, negb_true_iff. apply lego_in_false.
      intros y Hy. apply Hin. apply in_app_iff in Hy as [Hy|Hy]; apply in_app_iff;
        [left | right; right]; exact Hy.
    + intros x [<-|Hx]; [|auto]. apply Hin. apply in_app_iff. right. left. reflexivity.
Qed.

Lemma eqb_sets_perm {H : Type} (h : lego -> H) (cs ds : list lego) :
  nodup_eqb cs = true -> nodup_eqb ds = true ->
  (forall c, In c cs -> exists d, In d ds /\ lego_eqb c d = true) ->
  (forall d, In d ds -> exists c, In c cs /\ lego_eqb c d = true) ->
  (forall c d, In c cs -> In d ds -> lego_eqb c d = true -> h c = h d) ->
  Permutation (List.map h cs) (List.map h ds).
Proof.
  revert ds. induction cs as [|c cs IH]; intros ds Hcs Hds H1 H2 Hh.
  - destruct ds as [|d ds]; [constructor|].
    destruct (H2 d (or_introl eq_refl)) as (c & [] & _).
  - destruct (H1 c (or_introl eq_refl)) as (d & Hd & Hcd).
    apply in_split in Hd as (ds1 & ds2 & ->).
    cbn [nodup_eqb] in Hcs. apply andb_true_iff in Hcs as [Hc Hcs].
    rewrite negb_true_iff, lego_in_false in Hc.
    destruct (nodup_eqb_remove ds1 ds2 d Hds) as [Hds' Hne].
    rewrite List.map_app. cbn [List.map].
    rewrite <- Permutation_middle.
    assert (Hd : In d (ds1 ++ d :: ds2)) by (apply in_app_iff; right; left; reflexivity).
    rewrite (Hh c d (or_introl eq_refl) Hd Hcd).
    apply perm_skip. rewrite <- List.map_app. apply IH; [exact Hcs | exact Hds' | | |].
    + intros c' Hc'. destruct (H1 c' (or_intror Hc')) as (d' & Hd' & Hcd').
      exists d'. split; [|exact Hcd'].
      apply in_app_iff in Hd' as [Hd'|[<-|Hd']]; apply in_app_iff; auto.
      exfalso. assert (Hx : lego_eqb c c' = true)
        by (eapply lego_eqb_trans; [exact Hcd | apply lego_eqb_sym, Hcd']).
      rewrite (Hc c' Hc') in Hx. discriminate.
    + intros d' Hd'.
      assert (Hd'' : In d' (ds1 ++ d :: ds2)).
      { apply in_app_iff in Hd' as [Hd'|Hd']; apply in_app_iff; [left|right; right]; exact Hd'. }
      destruct (H2 d' Hd'') as (c' & [<-|Hc'] & Hcd'); [|eauto].
      exfalso. assert (Hx : lego_eqb d' d = true)
        by (eapply lego_eqb_trans; [apply lego_eqb_sym, Hcd' | exact Hcd]).
      rewrite (Hne d' Hd') in Hx. discriminate.
    + intros c' d' Hc' Hd'. apply Hh; [right; exact Hc'|].
      apply in_app_iff in Hd' as [Hd'|Hd']; apply in_app_iff; [left|right; right]; exact Hd'.
Qed.

(** ** Hashes *)

Section HashFacts.
Variable H : Type.
Variable hash_chars : gset ascii -> H.
Variable hash_bool : bool -> H.
Variable hash_int : option Z -> H.
Variable tuple_seed : H.
Variable tuple_step : H -> H -> H.
Variable set_unit : H.
Variable set_op : H -> H -> H.
Variable set_finish : nat -> H -> H.
Hypothesis set_op_comm : forall a b, set_op a b = set_op b a.
Hypothesis set_op_assoc : forall a b c, set_op a (set_op b c) = set_op (set_op a b) c.

Let hash := lego_hash H hash_chars hash_bool hash_int tuple_seed tuple_step
              set_unit set_op set_finish.

Lemma frozenset_hash_perm (l l' : list H) :
  Permutation l l' ->
  frozenset_hash H set_unit set_op set_finish l
  = frozenset_hash H set_unit set_op set_finish l'.
Proof.
  intros HP. unfold frozenset_hash. rewrite (Permutation_length HP). f_equal.
  induction HP as [|x l l' _ IH|x y l|l l' l'' _ IH1 _ IH2]; simpl.
  - reflexivity.
  - now rewrite IH.
  - rewrite !set_op_assoc. f_equal. apply set_op_comm.
  - now rewrite IH1.
Qed.

(** Equal pieces have equal hashes. *)
Lemma lego_hash_eqb (a b : lego) :
  well_formed a = true -> well_formed b = true ->
  lego_eqb a b = true -> hash a = hash b.
Proof.
  revert b. induction a as [c|x mu IH|ms IH|cs IH] using lego_nested_ind;
    intros [d|y nu|ns|ds] Ha Hb; try discriminate.
  - simpl. intros E. apply bool_decide_eq_true in E. now subst.
  - cbn [well_formed] in Ha, Hb. cbn [lego_eqb].
    rewrite !andb_true_iff in Ha, Hb. rewrite andb_true_iff.
    intros [E1 E2]. apply bool_decide_eq_true in E2. subst nu.
    unfold hash. cbn [lego_hash]. fold hash.
    rewrite (IH y); tauto.
  - rewrite lego_eqb_conc. intros E.
    unfold hash. cbn [lego_hash]. fold hash. f_equal.
    cbn [well_formed] in Ha, Hb. revert IH Ha Hb.
    induction E as [|m n ms ns Hmn _ IHE]; intros IH Ha Hb; [reflexivity|].
    cbn [forallb] in Ha, Hb. rewrite !andb_true_iff in Ha, Hb.
    inversion IH; subst. cbn [List.map]. f_equal; [|apply IHE; tauto].
    match goal with HP : forall b, _ |- _ => apply HP end; tauto.
  - rewrite lego_eqb_pattern. intros [E1 E2].
    unfold hash. cbn [lego_hash]. fold hash.
    cbn [well_formed] in Ha, Hb. rewrite !andb_true_iff in Ha, Hb.
    destruct Ha as [Ha Hna], Hb as [Hb Hnb].
    rewrite forallb_forall in Ha, Hb. rewrite Forall_forall in IH.
    apply frozenset_hash_perm, eqb_sets_perm; try assumption.
    intros c d Hc Hd Hcd.
    specialize (Ha c Hc). specialize (Hb d Hd). rewrite andb_true_iff in Ha, Hb.
    apply IH; [apply list_elem_of_In; exact Hc | tauto | tauto | exact Hcd].
Qed.

Lemma frozenset_well_formed (l : list lego) :
  forallb (fun c => has_type KConc c && well_formed c) l = true ->
  well_formed (LPattern (frozenset l)) = true.
Proof.
  intros Hl. cbn [well_formed]. rewrite frozenset_nodup, andb_true_r.
  rewrite forallb_forall in *. intros c Hc. apply Hl, frozenset_incl, Hc.
Qed.

(** C8. A pattern is unordered, a conc is ordered: the patterns built
    from the same concs in two different orders are equal and have the
    same hash (the hash of a frozenset does not depend on the order of
    its members); the concs built from two mults in the two orders are
    equal only if the two mults are. *)
Theorem pattern_unordered_conc_ordered :
  (forall l l' : list lego,
      forallb (fun c => has_type KConc c && well_formed c) l = true ->
      Permutation l l' ->
      exists P P', pattern_init l = Ok P /\ pattern_init l' = Ok P'
                   /\ lego_eqb P P' = true /\ hash P = hash P')
  /\ (forall m1 m2 : lego,
        has_type KMult m1 = true -> has_type KMult m2 = true ->
        exists c1 c2, conc_init [m1; m2] = Ok c1 /\ conc_init [m2; m1] = Ok c2
                      /\ lego_eqb c1 c2 = lego_eqb m1 m2).
Proof.
  split.
  - intros l l' Hl HP.
    assert (Hl' : forallb (fun c => has_type KConc c && well_formed c) l' = true).
    { rewrite forallb_forall in *. intros c Hc. apply Hl.
      eapply Permutation_in; [symmetry; exact HP | exact Hc]. }
    assert (Hk : forall k, forallb (fun c => has_type KConc c && well_formed c) k = true ->
                           forallb (has_type KConc) k = true).
    { intros k Hk. rewrite forallb_forall in *. intros c Hc.
      specialize (Hk c Hc). apply andb_true_iff in Hk. tauto. }
    exists (LPattern (frozenset l)), (LPattern (frozenset l')).
    rewrite !pattern_init_concs by auto.
    repeat split; [apply frozenset_perm_eqb, HP|].
    apply lego_hash_eqb; [apply frozenset_well_formed, Hl
                         | apply frozenset_well_formed, Hl'
                         | apply frozenset_perm_eqb, HP].
  - intros m1 m2 H1 H2. exists (LConc [m1; m2]), (LConc [m2; m1]).
    unfold conc_init. cbn [forallb]. rewrite H1, H2. repeat split.
    rewrite !lego_eqb_conc_cons. change (lego_eqb (LConc []) (LConc [])) with true.
    rewrite !andb_true_r.
    destruct (lego_eqb m1 m2) eqn:E.
    + rewrite (lego_eqb_sym _ _ E). reflexivity.
    + reflexivity.
Qed.
End HashFacts.

Lemma pattern_unordered_conc_ordered_witness :
  let a := LMult (LCharclass (charclass_init "a" false)) one in
  let b := LMult (LCharclass (charclass_init "b" false)) one in
  (exists P P', pattern_init [LConc [a]; LConc [b]] = Ok P
                /\ pattern_init [LConc [b]; LConc [a]] = Ok P'
                /\ lego_eqb P P' = true
                /\ lego_hash Z (fun s => Z.of_nat (size s)) (fun b => if b then 1%Z else 0%Z)
                     (fun o => default (-1)%Z o) 7%Z (fun h x => (31 * h + x)%Z)
                     0%Z Z.add (fun n h => (h + Z.of_nat n)%Z) P
                   = lego_hash Z (fun s => Z.of_nat (size s)) (fun b => if b then 1%Z else 0%Z)
                       (fun o => default (-1)%Z o) 7%Z (fun h x => (31 * h + x)%Z)
                       0%Z Z.add (fun n h => (h + Z.of_nat n)%Z) P')
  /\ (exists c1 c2, conc_init [a; b] = Ok c1 /\ conc_init [b; a] = Ok c2
                    /\ lego_eqb c1 c2 = false).
Proof.
  intros a b.
  pose proof (pattern_unordered_conc_ordered Z (fun s => Z.of_nat (size s))
                (fun b => if b then 1%Z else 0%Z) (fun o => default (-1)%Z o)
                7%Z (fun h x => (31 * h + x)%Z) 0%Z Z.add
                (fun n h => (h + Z.of_nat n)%Z) Z.add_comm Z.add_assoc) as [HP HC].
  split.
  - apply (HP [LConc [a]; LConc [b]] [LConc [b]; LConc [a]]).
    + vm_compute. reflexivity.
    + apply perm_swap.
  - destruct (HC a b eq_refl eq_refl) as (c1 & c2 & H1 & H2 & H3).
    exists c1, c2. repeat split; assumption.
Defined.

(** ** Reduction *)

Lemma concprefix_loop_mono (fuel fuel' : nat) (prefix : list lego) (leftovers : lego)
    (r : lego * lego) :
  fuel <= fuel' ->
  concprefix_loop fuel prefix leftovers = Ok r ->
  concprefix_loop fuel' prefix leftovers = Ok r.
Proof.
  revert fuel' prefix leftovers.
  induction fuel as [|fuel IH]; intros fuel' prefix leftovers Hle; [discriminate|].
  destruct fuel' as [|fuel']; [lia|]. cbn [concprefix_loop].
  destruct (pattern_multprefix leftovers) as [[commonMult leftovers']|e].
  - apply IH. lia.
  - auto.
Qed.

Lemma concsuffix_loop_mono (fuel fuel' : nat) (suffix : list lego) (leftovers : lego)
    (r : lego * lego) :
  fuel <= fuel' ->
  concsuffix_loop fuel suffix leftovers = Ok r ->
  concsuffix_loop fuel' suffix leftovers = Ok r.
Proof.
  revert fuel' suffix leftovers.
  induction fuel as [|fuel IH]; intros fuel' suffix leftovers Hle; [discriminate|].
  destruct fuel' as [|fuel']; [lia|]. cbn [concsuffix_loop].
  destruct (pattern_multsuffix leftovers) as [[leftovers' commonMult]|e].
  - apply IH. lia.
  - auto.
Qed.

Lemma pattern_concprefix_mono (fuel fuel' : nat) (self : lego) (r : lego * lego) :
  fuel <= fuel' ->
  pattern_concprefix fuel self = Ok r -> pattern_concprefix fuel' self = Ok r.
Proof. apply concprefix_loop_mono. Qed.

Lemma pattern_concsuffix_mono (fuel fuel' : nat) (self : lego) (r : lego * lego) :
  fuel <= fuel' ->
  pattern_concsuffix fuel self = Ok r -> pattern_concsuffix fuel' self = Ok r.
Proof. apply concsuffix_loop_mono. Qed.

Section ReduceBody.
Variables reduce1 reduce2 : lego -> result lego.
Variables fuel1 fuel2 : nat.
Hypothesis reduce_le : forall x r, reduce1 x = Ok r -> reduce2 x = Ok r.
Hypothesis fuel_le : fuel1 <= fuel2.

Lemma map_result_reduce_le (l rs : list lego) :
  map_result reduce1 l = Ok rs -> map_result reduce2 l = Ok rs.
Proof.
  revert rs. induction l as [|x l IH]; intros rs; [auto|].
  cbn [map_result].
  destruct (reduce1 x) as [y|] eqn:Hx; [|discriminate].
  rewrite (reduce_le _ _ Hx). cbn [mbind result_bind].
  destruct (map_result reduce1 l) as [ys|]; [|discriminate].
  rewrite (IH ys eq_refl). auto.
Qed.

(** One step of a proof that follows the control flow of a [reduce]
    method: the statement under scrutiny is the premise of the goal. *)
Ltac follow :=
  cbn [mbind result_bind];
  match goal with
  | |- Ok _ = Ok _ -> _ => intros [= <-]
  | |- Raise _ = Ok _ -> _ => discriminate
  | |- reduce1 ?x = Ok _ -> _ => first [ exact (reduce_le _ _) | intros ? ]
  | |- (reduce1 ?x ≫= _) = Ok _ -> _ =>
      let E := fresh "E" in
      destruct (reduce1 x) eqn:E; [rewrite ?(reduce_le _ _ E) | discriminate]
  | |- (map_result reduce1 ?l ≫= _) = Ok _ -> _ =>
      let E := fresh "E" in
      destruct (map_result reduce1 l) eqn:E;
      [rewrite ?(map_result_reduce_le _ _ E) | discriminate]
  | |- (pattern_concprefix fuel1 ?x ≫= _) = Ok _ -> _ =>
      let E := fresh "E" in
      destruct (pattern_concprefix fuel1 x) eqn:E;
      [rewrite ?(pattern_concprefix_mono _ _ _ _ fuel_le E) | discriminate]
  | |- (pattern_concsuffix fuel1 ?x ≫= _) = Ok _ -> _ =>
      let E := fresh "E" in
      destruct (pattern_concsuffix fuel1 x) eqn:E;
      [rewrite ?(pattern_concsuffix_mono _ _ _ _ fuel_le E) | discriminate]
  | |- (?m ≫= _) = Ok _ -> _ => destruct m; [|discriminate]
  | |- (if ?b then _ else _) = Ok _ -> _ => destruct b
  | |- match ?x with _ => _ end = Ok _ -> _ => destruct x
  end.

Lemma mult_reduce_le (self r : lego) :
  mult_reduce reduce1 self = Ok r -> mult_reduce reduce2 self = Ok r.
Proof.
  unfold mult_reduce. repeat follow; try reflexivity.
Qed.

Lemma conc_reduce_le (self r : lego) :
  conc_reduce reduce1 self = Ok r -> conc_reduce reduce2 self = Ok r.
Proof.
  unfold conc_reduce. repeat follow; try reflexivity.
Qed.

Lemma pattern_reduce_le (self r : lego) :
  pattern_reduce reduce1 fuel1 self = Ok r -> pattern_reduce reduce2 fuel2 self = Ok r.
Proof.
  unfold pattern_reduce. repeat follow; try reflexivity.
Qed.

Lemma reduce_body_le (self r : lego) :
  reduce_body reduce1 fuel1 self = Ok r -> reduce_body reduce2 fuel2 self = Ok r.
Proof.
  destruct self; cbn [reduce_body];
    [auto | apply mult_reduce_le | apply conc_reduce_le | apply pattern_reduce_le].
Qed.
End ReduceBody.

Lemma reduce_mono (fuel fuel' : nat) (T r : lego) :
  fuel <= fuel' -> reduce fuel T = Ok r -> reduce fuel' T = Ok r.
Proof.
  revert fuel' T r. induction fuel as [|fuel IH]; intros fuel' T r Hle; [discriminate|].
  destruct fuel' as [|fuel']; [lia|]. cbn [reduce].
  apply reduce_body_le; [|lia]. intros x y. apply IH. lia.
Qed.

(** Every [return] of a [reduce] method is [return self] or
    [return x.reduce()] for some piece [x]. *)
Section ReduceTail.
Variable reduce1 : lego -> result lego.
Variable fuel1 : nat.

Ltac tail :=
  cbn [mbind result_bind];
  match goal with
  | |- Ok _ = Ok _ -> _ => intros [= <-]; left; reflexivity
  | |- Raise _ = Ok _ -> _ => discriminate
  | |- reduce1 ?x = Ok _ -> _ => intros ?; right; eexists; eassumption
  | |- (?m ≫= _) = Ok _ -> _ => destruct m; [|discriminate]
  | |- (if ?b then _ else _) = Ok _ -> _ => destruct b
  | |- match ?x with _ => _ end = Ok _ -> _ => destruct x
  end.

Lemma reduce_body_tail (self r : lego) :
  reduce_body reduce1 fuel1 self = Ok r ->
  r = self \/ exists x, reduce1 x = Ok r.
Proof.
  destruct self; cbn [reduce_body];
    unfold mult_reduce, conc_reduce, pattern_reduce; repeat tail.
Qed.
End ReduceTail.

Lemma reduce_fixed (fuel : nat) (T T' : lego) :
  reduce fuel T = Ok T' -> reduce fuel T' = Ok T'.
Proof.
  revert T T'. induction fuel as [|fuel IH]; intros T T' H; [discriminate|].
  cbn [reduce] in H. destruct (reduce_body_tail _ _ _ _ H) as [->|[x Hx]].
  - exact H.
  - apply (reduce_mono fuel (S fuel)); [lia|]. eapply IH. exact Hx.
Qed.

(** C1. Reduction is idempotent: for a term [T] of any kind,
    [reduce(reduce(T))] is the result of [reduce(T)].  When [reduce]
    returns [T'] for [T], reducing [T'] returns [T'] itself, within the
    same fuel and with any larger one (and [T] reduces to [T'] with any
    larger fuel); when [reduce(T)] raises, both sides raise alike. *)
Theorem reduce_idempotent (fuel : nat) (T : lego) :
  (reduce fuel T ≫= reduce fuel) = reduce fuel T
  /\ (forall T', reduce fuel T = Ok T' ->
        forall fuel', fuel <= fuel' ->
          reduce fuel' T = Ok T' /\ reduce fuel' T' = Ok T').
Proof.
  split.
  - destruct (reduce fuel T) as [T'|e] eqn:H; [|reflexivity].
    cbn [mbind result_bind]. apply reduce_fixed with T. exact H.
  - intros T' H fuel' Hle. split.
    + eapply reduce_mono; eassumption.
    + eapply reduce_mono; [exact Hle|]. eapply reduce_fixed. exact H.
Qed.

(** [a{2}b|a+c] reduces to [a(ab|a*c)], which reduces to itself. *)
Lemma reduce_idempotent_witness :
  let a m := LMult (LCharclass (charclass_init "a" false)) m in
  let b := LMult (LCharclass (charclass_init "b" false)) one in
  let c := LMult (LCharclass (charclass_init "c" false)) one in
  let T := LPattern [LConc [a (Multiplier (Some 2%Z) (Some 2%Z)); b]; LConc [a plus; c]] in
  let T' := LConc [a one; LMult (LPattern [LConc [a one; b]; LConc [a star; c]]) one] in
  reduce 12 T = Ok T' /\ reduce 20 T' = Ok T'.
Proof.
  intros a b c T T'.
  assert (H : reduce 12 T = Ok T') by (vm_compute; reflexivity).
  split; [exact H|].
  apply (proj2 (reduce_idempotent 12 T) T' H 20). lia.
Defined.

(** ** The parser: a prefix of the text shifts the positions *)

Lemma str_app_cons (x : ascii) (a b : string) : String x a +:+ b = String x (a +:+ b).
Proof. reflexivity. Qed.

Lemma str_app_assoc (a b c : string) : (a +:+ b) +:+ c = a +:+ (b +:+ c).
Proof.
  induction a as [|x a IH]; [reflexivity|]. rewrite !str_app_cons. f_equal. exact IH.
Qed.

Lemma str_app_nil_r (a : string) : a +:+ "" = a.
Proof.
  induction a as [|x a IH]; [reflexivity|]. rewrite str_app_cons. f_equal. exact IH.
Qed.

Lemma substring_shift (pre s : string) (i n : nat) :
  String.substring (String.length pre + i) n (pre +:+ s) = String.substring i n s.
Proof. induction pre as [|x pre IH]; simpl; [reflexivity | exact IH]. Qed.

Lemma get_shift (pre s : string) (i : nat) :
  String.get (String.length pre + i) (pre +:+ s) = String.get i s.
Proof. induction pre as [|x pre IH]; simpl; [reflexivity | exact IH]. Qed.

Lemma length_shift (pre s : string) (i : nat) :
  (String.length (pre +:+ s) - (String.length pre + i) = String.length s - i)%nat.
Proof. rewrite str_length_app. lia. Qed.

Lemma matchStatic_shift (pre s : string) (i : nat) (static : string) :
  matchStatic (pre +:+ s) (String.length pre + i) static
  = shift_pos (String.length pre) (matchStatic s i static).
Proof.
  unfold matchStatic. rewrite substring_shift.
  destruct (String.eqb _ _); simpl; [f_equal; lia | reflexivity].
Qed.

Lemma matchAny_shift (pre s : string) (i : nat) :
  matchAny (pre +:+ s) (String.length pre + i)
  = shift (String.length pre) (matchAny s i).
Proof.
  unfold matchAny. rewrite get_shift.
  destruct (String.get i s); simpl; [f_equal; f_equal; lia | reflexivity].
Qed.

Lemma try_except_shift {A} (n : nat) (a b : result (A * nat)) (e : exn) :
  try_except (shift n a) e (shift n b) = shift n (try_except a e b).
Proof.
  destruct a as [[v j]|e']; simpl; [reflexivity|].
  destruct (decide (e' = e)); reflexivity.
Qed.

Lemma first_match_shift {A B} (n : nat) (f g : A -> result (B * nat)) (l : list A)
    (a b : result (B * nat)) :
  (forall x, f x = shift n (g x)) -> a = shift n b ->
  first_match f l a = shift n (first_match g l b).
Proof.
  intros Hf Hab. induction l as [|x l IH]; simpl; [exact Hab|].
  rewrite Hf, IH. apply try_except_shift.
Qed.

(** [j <- matchStatic ...; Ok (v, j)] *)
Lemma static_then_shift {A} (pre s : string) (i : nat) (static : string) (v : A) :
  (j ← matchStatic (pre +:+ s) (String.length pre + i) static; Ok (v, j))
  = shift (String.length pre) (j ← matchStatic s i static; Ok (v, j)).
Proof.
  rewrite matchStatic_shift. destruct (matchStatic s i static); reflexivity.
Qed.

Lemma matchAnyOf_shift (pre s : string) (i : nat) (collection : string) :
  matchAnyOf (pre +:+ s) (String.length pre + i) collection
  = shift (String.length pre) (matchAnyOf s i collection).
Proof.
  unfold matchAnyOf. apply first_match_shift; [|reflexivity].
  intros x. apply static_then_shift.
Qed.

Lemma matchInternalChar_shift (pre s : string) (i : nat) :
  matchInternalChar (pre +:+ s) (String.length pre + i)
  = shift (String.length pre) (matchInternalChar s i).
Proof.
  unfold matchInternalChar.
  apply first_match_shift; [intros x; apply static_then_shift|].
  apply first_match_shift; [intros x; apply static_then_shift|].
  rewrite matchAny_shift.
  destruct (matchAny s i) as [[c j]|e]; cbn [shift mbind result_bind]; [|reflexivity].
  destruct (char_in c classSpecial); reflexivity.
Qed.

Ltac shift_rewrite :=
  repeat first
    [ rewrite matchStatic_shift
    | rewrite matchAny_shift
    | rewrite matchAnyOf_shift
    | rewrite matchInternalChar_shift ].

Ltac shift_case :=
  match goal with
  | |- _ = shift _ (try_except _ _ _) => rewrite <- try_except_shift; f_equal
  | |- _ = shift _ (first_match _ _ _) =>
      apply first_match_shift; [intros ?; apply static_then_shift|]
  | |- _ = shift _ (?m ≫= _) => destruct m as [[? ?]|?]
  | |- _ = shift _ (?m ≫= _) => destruct m as [?|?]
  | |- _ = shift _ (if ?b then _ else _) => destruct b
  | |- _ = shift _ (match ?x with _ => _ end) => destruct x
  end; cbn [shift shift_pos mbind result_bind].

Ltac shift_auto := repeat (shift_rewrite; try reflexivity; shift_case); try reflexivity.

Lemma matchRangeInternal_shift (pre s : string) (i : nat) :
  matchRangeInternal (pre +:+ s) (String.length pre + i)
  = shift (String.length pre) (matchRangeInternal s i).
Proof. unfold matchRangeInternal. shift_auto. Qed.

Lemma matchRangeInterior_loop_shift (fuel : nat) (pre s internals : string) (i : nat) :
  matchRangeInterior_loop fuel (pre +:+ s) internals (String.length pre + i)
  = shift (String.length pre) (matchRangeInterior_loop fuel s internals i).
Proof.
  revert internals i. induction fuel as [|fuel IH]; intros internals i; [reflexivity|].
  cbn [matchRangeInterior_loop]. rewrite matchRangeInternal_shift.
  destruct (matchRangeInternal s i) as [[internal j]|e]; cbn [shift].
  - apply IH.
  - destruct e; reflexivity.
Qed.

Lemma matchRangeInterior_shift (pre s : string) (i : nat) :
  matchRangeInterior (pre +:+ s) (String.length pre + i)
  = shift (String.length pre) (matchRangeInterior s i).
Proof.
  unfold matchRangeInterior. rewrite length_shift. apply matchRangeInterior_loop_shift.
Qed.

Lemma matchNegatedRange_shift (pre s : string) (i : nat) :
  matchNegatedRange (pre +:+ s) (String.length pre + i)
  = shift (String.length pre) (matchNegatedRange s i).
Proof.
  unfold matchNegatedRange. shift_rewrite.
  destruct (matchStatic s i "[^") as [j|e]; cbn [shift shift_pos mbind result_bind];
    [|reflexivity].
  rewrite matchRangeInterior_shift.
  destruct (matchRangeInterior s j) as [[cs k]|e]; cbn [shift shift_pos mbind result_bind];
    [|reflexivity].
  shift_auto.
Qed.

Lemma matchRange_shift (pre s : string) (i : nat) :
  matchRange (pre +:+ s) (String.length pre + i)
  = shift (String.length pre) (matchRange s i).
Proof.
  unfold matchRange. shift_rewrite.
  destruct (matchStatic s i "[") as [j|e]; cbn [shift shift_pos mbind result_bind];
    [|reflexivity].
  rewrite matchRangeInterior_shift.
  destruct (matchRangeInterior s j) as [[cs k]|e]; cbn [shift shift_pos mbind result_bind];
    [|reflexivity].
  shift_auto.
Qed.

Lemma charclass_match_shift (pre s : string) (i : nat) :
  charclass_match (pre +:+ s) (String.length pre + i)
  = shift (String.length pre) (charclass_match s i).
Proof.
  unfold charclass_match.
  apply first_match_shift; [intros ?; apply static_then_shift|].
  rewrite matchNegatedRange_shift, matchRange_shift.
  rewrite <- !try_except_shift. f_equal. f_equal.
  apply first_match_shift; [intros ?; apply static_then_shift|].
  apply first_match_shift; [intros ?; apply static_then_shift|].
  rewrite matchAny_shift.
  destruct (matchAny s i) as [[c j]|e]; cbn [shift mbind result_bind]; [|reflexivity].
  destruct (char_in c allSpecial); reflexivity.
Qed.

Lemma matchInteger_loop_shift (fuel : nat) (pre s : string) (integer : Z) (i : nat) :
  matchInteger_loop fuel (pre +:+ s) integer (String.length pre + i)
  = shift (String.length pre) (matchInteger_loop fuel s integer i).
Proof.
  revert integer i. induction fuel as [|fuel IH]; intros integer i; [reflexivity|].
  cbn [matchInteger_loop]. rewrite matchAnyOf_shift.
  destruct (matchAnyOf s i "0123456789") as [[digit j]|e]; cbn [shift].
  - apply IH.
  - destruct e; reflexivity.
Qed.

Lemma matchInteger_shift (pre s : string) (i : nat) :
  matchInteger (pre +:+ s) (String.length pre + i)
  = shift (String.length pre) (matchInteger s i).
Proof.
  unfold matchInteger. rewrite <- try_except_shift. f_equal.
  - apply static_then_shift.
  - rewrite matchAnyOf_shift.
    destruct (matchAnyOf s i "123456789") as [[digit j]|e];
      cbn [shift mbind result_bind]; [|reflexivity].
    rewrite length_shift. apply matchInteger_loop_shift.
Qed.

Ltac shift_bind m :=
  destruct m as [[? ?]|?]; cbn [shift shift_pos mbind result_bind]; [|reflexivity].

Ltac shift_bind_pos m :=
  destruct m as [?|?]; cbn [shift shift_pos mbind result_bind]; [|reflexivity].

Lemma multiplier_match_shift (pre s : string) (i : nat) :
  multiplier_match (pre +:+ s) (String.length pre + i)
  = shift (String.length pre) (multiplier_match s i).
Proof.
  unfold multiplier_match.
  rewrite <- !try_except_shift. f_equal; [|f_equal; [|f_equal]].
  - rewrite matchStatic_shift. shift_bind_pos (matchStatic s i "{").
    rewrite matchInteger_shift.
    match goal with |- _ = shift _ (?m ≫= _) => shift_bind m end.
    rewrite matchStatic_shift.
    match goal with |- _ = shift _ (?m ≫= _) => shift_bind_pos m end.
    rewrite matchInteger_shift.
    match goal with |- _ = shift _ (?m ≫= _) => shift_bind m end.
    rewrite matchStatic_shift.
    match goal with |- _ = shift _ (?m ≫= _) => shift_bind_pos m end.
    match goal with |- _ = shift _ (?m ≫= _) => destruct m end; reflexivity.
  - rewrite matchStatic_shift. shift_bind_pos (matchStatic s i "{").
    rewrite matchInteger_shift.
    match goal with |- _ = shift _ (?m ≫= _) => shift_bind m end.
    rewrite matchStatic_shift.
    match goal with |- _ = shift _ (?m ≫= _) => shift_bind_pos m end.
    match goal with |- _ = shift _ (?m ≫= _) => destruct m end; reflexivity.
  - rewrite matchStatic_shift. shift_bind_pos (matchStatic s i "{").
    rewrite matchInteger_shift.
    match goal with |- _ = shift _ (?m ≫= _) => shift_bind m end.
    rewrite matchStatic_shift.
    match goal with |- _ = shift _ (?m ≫= _) => shift_bind_pos m end.
    match goal with |- _ = shift _ (?m ≫= _) => destruct m end; reflexivity.
  - apply first_match_shift; [intros ?; apply static_then_shift | reflexivity].
Qed.

Section MatchShift.
Variables pm pm' : string -> nat -> result (lego * nat).
Variables (pre s : string).
Hypothesis pm_shift :
  forall i, pm' (pre +:+ s) (String.length pre + i) = shift (String.length pre) (pm s i).

Lemma mult_match_shift (i : nat) :
  mult_match pm' (pre +:+ s) (String.length pre + i)
  = shift (String.length pre) (mult_match pm s i).
Proof.
  unfold mult_match.
  assert (H : try_except
                (j ← matchStatic (pre +:+ s) (String.length pre + i) "(";
                 '(multiplicand, j0) ← pm' (pre +:+ s) j;
                 j1 ← matchStatic (pre +:+ s) j0 ")"; Ok (multiplicand, j1))
                MatchFailureException
                ('(c, j) ← charclass_match (pre +:+ s) (String.length pre + i);
                 Ok (LCharclass c, j))
              = shift (String.length pre)
                  (try_except
                     (j ← matchStatic s i "(";
                      '(multiplicand, j0) ← pm s j;
                      j1 ← matchStatic s j0 ")"; Ok (multiplicand, j1))
                     MatchFailureException
                     ('(c, j) ← charclass_match s i; Ok (LCharclass c, j)))).
  { rewrite <- try_except_shift. f_equal.
    - rewrite matchStatic_shift. shift_bind_pos (matchStatic s i "(").
      rewrite pm_shift.
      match goal with |- _ = shift _ (?m ≫= _) => shift_bind m end.
      rewrite matchStatic_shift.
      match goal with |- _ = shift _ (?m ≫= _) => shift_bind_pos m end.
      reflexivity.
    - rewrite charclass_match_shift.
      match goal with |- _ = shift _ (?m ≫= _) => shift_bind m end.
      reflexivity. }
  rewrite H.
  match goal with |- _ = shift _ (?m ≫= _) => shift_bind m end.
  rewrite multiplier_match_shift.
  match goal with |- _ = shift _ (?m ≫= _) => shift_bind m end.
  match goal with |- _ = shift _ (?m ≫= _) => destruct m end; reflexivity.
Qed.

Lemma conc_match_loop_shift (fuel : nat) (mults : list lego) (i : nat) :
  conc_match_loop pm' fuel (pre +:+ s) mults (String.length pre + i)
  = shift (String.length pre) (conc_match_loop pm fuel s mults i).
Proof.
  revert mults i. induction fuel as [|fuel IH]; intros mults i; [reflexivity|].
  cbn [conc_match_loop]. rewrite mult_match_shift.
  destruct (mult_match pm s i) as [[x j]|e]; cbn [shift].
  - apply IH.
  - destruct e; try reflexivity.
    destruct (conc_init mults); reflexivity.
Qed.

Lemma conc_match_shift (i : nat) :
  conc_match pm' (pre +:+ s) (String.length pre + i)
  = shift (String.length pre) (conc_match pm s i).
Proof. unfold conc_match. rewrite length_shift. apply conc_match_loop_shift. Qed.

Lemma pattern_match_loop_shift (fuel : nat) (concs : list lego) (i : nat) :
  pattern_match_loop pm' fuel (pre +:+ s) concs (String.length pre + i)
  = shift (String.length pre) (pattern_match_loop pm fuel s concs i).
Proof.
  revert concs i. induction fuel as [|fuel IH]; intros concs i; [reflexivity|].
  cbn [pattern_match_loop]. rewrite matchStatic_shift.
  destruct (matchStatic s i "|") as [j|e]; cbn [shift shift_pos mbind result_bind].
  - rewrite conc_match_shift.
    destruct (conc_match pm s j) as [[x k]|e]; cbn [shift].
    + apply IH.
    + destruct e; try reflexivity. destruct (pattern_init concs); reflexivity.
  - destruct e; try reflexivity. destruct (pattern_init concs); reflexivity.
Qed.

Lemma pattern_match_body_shift (i : nat) :
  pattern_match_body pm' (pre +:+ s) (String.length pre + i)
  = shift (String.length pre) (pattern_match_body pm s i).
Proof.
  unfold pattern_match_body. rewrite conc_match_shift.
  destruct (conc_match pm s i) as [[x j]|e]; cbn [shift mbind result_bind]; [|reflexivity].
  rewrite length_shift. apply pattern_match_loop_shift.
Qed.
End MatchShift.

Lemma pattern_match_fuel_shift (fuel : nat) (pre s : string) (i : nat) :
  pattern_match_fuel fuel (pre +:+ s) (String.length pre + i)
  = shift (String.length pre) (pattern_match_fuel fuel s i).
Proof.
  revert pre s i. induction fuel as [|fuel IH]; intros pre s i; [reflexivity|].
  cbn [pattern_match_fuel]. apply pattern_match_body_shift. intros j. apply IH.
Qed.

(** ** The parser on rendered text *)

Lemma substring_prefix (a b : string) :
  String.substring 0 (String.length a) (a +:+ b) = a.
Proof.
  induction a as [|x a IH]; [destruct b; reflexivity|].
  rewrite str_app_cons. cbn [String.length String.substring]. f_equal. exact IH.
Qed.

Lemma matchStatic_prefix (static rest : string) :
  matchStatic (static +:+ rest) 0 static = Ok (String.length static).
Proof.
  unfold matchStatic. rewrite substring_prefix, String.eqb_refl. reflexivity.
Qed.

(** A matcher at the end of a prefix, in terms of the matcher at 0. *)
Lemma matchStatic_after (pre s static : string) :
  matchStatic (pre +:+ s) (String.length pre) static
  = shift_pos (String.length pre) (matchStatic s 0 static).
Proof. rewrite <- (Nat.add_0_r (String.length pre)) at 1. apply matchStatic_shift. Qed.

Lemma matchInternalChar_after (pre s : string) :
  matchInternalChar (pre +:+ s) (String.length pre)
  = shift (String.length pre) (matchInternalChar s 0).
Proof. rewrite <- (Nat.add_0_r (String.length pre)) at 1. apply matchInternalChar_shift. Qed.

Lemma matchRangeInterior_loop_after (fuel : nat) (pre s internals : string) :
  matchRangeInterior_loop fuel (pre +:+ s) internals (String.length pre)
  = shift (String.length pre) (matchRangeInterior_loop fuel s internals 0).
Proof.
  rewrite <- (Nat.add_0_r (String.length pre)) at 1. apply matchRangeInterior_loop_shift.
Qed.

Lemma matchStatic_char_fails (c : ascii) (s : string) :
  starts_without (str1 c) s = true ->
  matchStatic s 0 (str1 c) = Raise MatchFailureException.
Proof.
  destruct s as [|x s]; [reflexivity|].
  unfold starts_without, char_in, str1, matchStatic.
  cbn [String.length String.substring].
  destruct (Ascii.eqb_spec x c) as [->|Hne]; [discriminate|]. intros _.
  replace (String.substring 0 0 s) with EmptyString by (destruct s; reflexivity).
  cbn [String.eqb]. destruct (Ascii.eqb_spec x c); [contradiction | reflexivity].
Qed.

Lemma starts_without_app (l a b : string) :
  starts_without l a = true -> starts_without l b = true ->
  starts_without l (a +:+ b) = true.
Proof. destruct a; simpl; auto. Qed.

Lemma starts_without_weaken (l l' s : string) :
  (forall x, char_in x l' = true -> char_in x l = true) ->
  starts_without l s = true -> starts_without l' s = true.
Proof.
  intros H. destruct s as [|x s]; [reflexivity|]. simpl.
  rewrite !negb_true_iff. intros Hx.
  destruct (char_in x l') eqn:E; [|reflexivity]. rewrite (H x E) in Hx. discriminate.
Qed.

Lemma matchInternalChar_escapeChar (c : ascii) (tail : string) :
  matchInternalChar (escapeChar c +:+ tail) 0 = Ok (c, String.length (escapeChar c)).
Proof.
  destruct tail; destruct c as [[] [] [] [] [] [] [] []]; vm_compute; reflexivity.
Qed.

Lemma escapeChar_start (c : ascii) : starts_without "-^]" (escapeChar c) = true.
Proof.
  destruct c as [[] [] [] [] [] [] [] []]; vm_compute; reflexivity.
Qed.

Lemma matchRangeInternal_char (c : ascii) (tail : string) :
  starts_without "-" tail = true ->
  matchRangeInternal (escapeChar c +:+ tail) 0
  = Ok (str1 c, String.length (escapeChar c)).
Proof.
  intros Ht. unfold matchRangeInternal.
  rewrite matchInternalChar_escapeChar. cbn [mbind result_bind].
  pose proof (matchStatic_char_fails "-"%char tail Ht) as Hf. unfold str1 in Hf.
  rewrite matchStatic_after, Hf. reflexivity.
Qed.

Lemma matchRangeInternal_range (a b : ascii) (span tail : string) :
  matchRange_span a b allowableRanges = Ok span ->
  matchRangeInternal (escapeChar a +:+ "-" +:+ escapeChar b +:+ tail) 0
  = Ok (span, String.length (escapeChar a +:+ "-" +:+ escapeChar b)).
Proof.
  intros Hspan. unfold matchRangeInternal.
  rewrite matchInternalChar_escapeChar. cbn [mbind result_bind].
  rewrite matchStatic_after.
  change ("-" +:+ escapeChar b +:+ tail) with (String "-" (escapeChar b +:+ tail)).
  assert (H1 : matchStatic (String "-" (escapeChar b +:+ tail)) 0 "-" = Ok 1%nat).
  { apply (matchStatic_prefix "-" (escapeChar b +:+ tail)). }
  rewrite H1. cbn [shift_pos mbind result_bind try_except].
  replace (escapeChar a +:+ String "-" (escapeChar b +:+ tail))
    with ((escapeChar a +:+ "-") +:+ (escapeChar b +:+ tail))
    by (rewrite str_app_assoc; reflexivity).
  replace (String.length (escapeChar a) + 1)%nat with (String.length (escapeChar a +:+ "-"))
    by (rewrite str_length_app; reflexivity).
  rewrite matchInternalChar_after, matchInternalChar_escapeChar.
  cbn [shift mbind result_bind]. rewrite Hspan. cbn [mbind result_bind try_except].
  f_equal. f_equal. rewrite !str_length_app. simpl. lia.
Qed.

(** *** The interior of a bracketed class *)

Lemma all_chars_complete (c : ascii) : In c all_chars.
Proof.
  unfold all_chars. rewrite <- (ascii_nat_embedding c). apply in_map, in_seq.
  pose proof (nat_ascii_bounded c). lia.
Qed.

Lemma shift_shift {A} (a b : nat) (r : result (A * nat)) :
  shift a (shift b r) = shift (a + b) r.
Proof. destruct r as [[v j]|e]; simpl; [f_equal; f_equal; lia | reflexivity]. Qed.

Lemma consumes_nil : consumes "" "".
Proof.
  intros tail acc f _ Hf. exists f. split; [exact Hf|].
  rewrite str_app_nil_r. change ("" +:+ tail) with tail.
  destruct (matchRangeInterior_loop f tail acc 0) as [[v j]|e]; reflexivity.
Qed.

Lemma consumes_unit (U S : string) :
  1 <= String.length U ->
  (forall tail, starts_without "-" tail = true ->
                matchRangeInternal (U +:+ tail) 0 = Ok (S, String.length U)) ->
  consumes U S.
Proof.
  intros HU H tail acc f Ht Hf. rewrite str_length_app in Hf.
  destruct f as [|f]; [lia|]. exists f. split; [lia|].
  cbn [matchRangeInterior_loop]. rewrite (H tail Ht).
  apply matchRangeInterior_loop_after.
Qed.

Lemma consumes_app (O1 S1 O2 S2 : string) :
  consumes O1 S1 -> consumes O2 S2 -> starts_without "-" O2 = true ->
  consumes (O1 +:+ O2) (S1 +:+ S2).
Proof.
  intros H1 H2 Hs tail acc f Ht Hf.
  rewrite str_app_assoc in *.
  destruct (H1 (O2 +:+ tail) acc f (starts_without_app _ _ _ Hs Ht) Hf) as (f1 & Hf1 & E1).
  destruct (H2 tail (acc +:+ S1) f1 Ht Hf1) as (f2 & Hf2 & E2).
  exists f2. split; [exact Hf2|].
  rewrite E1, E2, shift_shift, str_length_app, str_app_assoc. reflexivity.
Qed.

Lemma concat_nosep_cons (x : string) (l : list string) :
  String.concat "" (x :: l) = x +:+ String.concat "" l.
Proof.
  destruct l as [|y l]; cbn [String.concat]; [now rewrite str_app_nil_r | reflexivity].
Qed.

Lemma escapeChar_length (c : ascii) : 1 <= String.length (escapeChar c).
Proof. destruct c as [[] [] [] [] [] [] [] []]; vm_compute; lia. Qed.

Lemma starts_without_app_l (l a b : string) :
  1 <= String.length a -> starts_without l a = true ->
  starts_without l (a +:+ b) = true.
Proof. destruct a; simpl; [lia | auto]. Qed.

Lemma escape_chars_start (l : list ascii) :
  starts_without "-^]" (String.concat "" (List.map escapeChar l)) = true.
Proof.
  destruct l as [|c l]; [reflexivity|].
  cbn [List.map]. rewrite concat_nosep_cons.
  apply starts_without_app_l; [apply escapeChar_length | apply escapeChar_start].
Qed.

Lemma starts_without_dash (s : string) :
  starts_without "-^]" s = true -> starts_without "-" s = true.
Proof.
  apply starts_without_weaken. intros x. simpl.
  destruct (Ascii.eqb x "-"); [reflexivity | discriminate].
Qed.

Lemma consumes_chars (l : list ascii) :
  consumes (String.concat "" (List.map escapeChar l)) (string_of_list_ascii l).
Proof.
  induction l as [|c l IH]; [exact consumes_nil|].
  cbn [List.map string_of_list_ascii]. rewrite concat_nosep_cons.
  change (String c (string_of_list_ascii l)) with (str1 c +:+ string_of_list_ascii l).
  apply consumes_app; [|exact IH|].
  - apply consumes_unit; [apply escapeChar_length|].
    intros tail Ht. apply matchRangeInternal_char, Ht.
  - apply starts_without_dash, escape_chars_start.
Qed.

(** *** Ranges: facts checked on the finitely many runs *)

Lemma all_runs_unit_ok : forallb range_unit_ok all_runs = true.
Proof. vm_compute. reflexivity. Qed.

Lemma runs_step : 
  forallb (fun cur => forallb (step_keeps_run cur) all_chars) all_runs = true.
Proof. vm_compute. reflexivity. Qed.

Lemma singles_step :
  forallb (fun c => forallb (step_keeps_run (str1 c)) all_chars) all_chars = true.
Proof. vm_compute. reflexivity. Qed.

Lemma recordRange_out (cur out : string) :
  recordRange (cur, out) = ("", out +:+ unit_text cur).
Proof.
  unfold unit_text, recordRange.
  destruct (String.length cur <=? 3)%nat; [reflexivity|].
  destruct (str_first cur), (str_last cur); cbn [snd];
    rewrite ?str_app_assoc, ?str_app_nil_r; reflexivity.
Qed.

Lemma escape_step_cases (cur out : string) (char : ascii) :
  escape_step (cur, out) char = (cur +:+ str1 char, out)
  \/ escape_step (cur, out) char = (str1 char, out +:+ unit_text cur).
Proof.
  unfold escape_step. cbn [fst snd].
  destruct (0 <? String.length cur)%nat; [|left; reflexivity].
  destruct (List.find (char_in char) allowableRanges) as [superRange|].
  - destruct (str_index char superRange) as [i|]; [|left; reflexivity].
    destruct (_ || _); [|left; reflexivity].
    right. rewrite recordRange_out. reflexivity.
  - right. rewrite recordRange_out. reflexivity.
Qed.

Lemma escape_step_out (cur out : string) (char : ascii) :
  escape_step (cur, out) char
  = (fst (escape_step (cur, "") char), out +:+ snd (escape_step (cur, "") char)).
Proof.
  unfold escape_step. cbn [fst snd].
  destruct (0 <? String.length cur)%nat; [|now rewrite str_app_nil_r].
  destruct (List.find (char_in char) allowableRanges) as [superRange|].
  - destruct (str_index char superRange) as [i|]; [|now rewrite str_app_nil_r].
    destruct (_ || _); [|now rewrite str_app_nil_r].
    rewrite !recordRange_out. reflexivity.
  - rewrite !recordRange_out. reflexivity.
Qed.

Lemma is_run_in (cur : string) : is_run cur = true -> In cur all_runs.
Proof.
  unfold is_run. intros H. apply existsb_exists in H as (x & Hx & E).
  apply String.eqb_eq in E. now subst.
Qed.

Lemma pending_step (cur out : string) (char : ascii) :
  pending cur -> pending (fst (escape_step (cur, out) char)).
Proof.
  intros Hp. rewrite escape_step_out. cbn [fst].
  destruct (escape_step_cases cur "" char) as [E|E].
  - destruct Hp as [Hlen|Hrun].
    + destruct cur as [|c [|]]; simpl in Hlen; try lia.
      * rewrite E. left. simpl. lia.
      * pose proof singles_step as H. rewrite forallb_forall in H.
        specialize (H c (all_chars_complete c)). rewrite forallb_forall in H.
        specialize (H char (all_chars_complete char)). unfold step_keeps_run in H.
        change (String c "") with (str1 c) in *. rewrite E in H. cbn [fst snd] in H.
        rewrite E. cbn [fst]. right. exact H.
    + pose proof runs_step as H. rewrite forallb_forall in H.
      specialize (H cur (is_run_in cur Hrun)). rewrite forallb_forall in H.
      specialize (H char (all_chars_complete char)). unfold step_keeps_run in H.
      rewrite E in H. cbn [fst snd] in H. rewrite E. cbn [fst]. right. exact H.
  - rewrite E. left. simpl. lia.
Qed.

Lemma unit_text_good (cur : string) :
  pending cur ->
  consumes (unit_text cur) cur /\ starts_without "-^]" (unit_text cur) = true.
Proof.
  intros Hp.
  assert (Hshort : (String.length cur <=? 3)%nat = true ->
                   consumes (unit_text cur) cur
                   /\ starts_without "-^]" (unit_text cur) = true).
  { intros Hlen. unfold unit_text, recordRange. rewrite Hlen. cbn [snd].
    change ("" +:+ ?x) with x. split; [|apply escape_chars_start].
    rewrite <- (string_of_list_ascii_of_string cur) at 2. apply consumes_chars. }
  destruct (String.length cur <=? 3)%nat eqn:Hlen; [auto|].
  destruct Hp as [Hp|Hrun]; [apply Nat.leb_gt in Hlen; lia|].
  pose proof all_runs_unit_ok as H. rewrite forallb_forall in H.
  specialize (H cur (is_run_in cur Hrun)). unfold range_unit_ok in H.
  rewrite Hlen in H. cbn [orb] in H.
  destruct (str_first cur) as [a|]; [|discriminate].
  destruct (str_last cur) as [b|]; [|discriminate].
  apply andb_true_iff in H as [Ht Hs]. apply String.eqb_eq in Ht.
  destruct (matchRange_span a b allowableRanges) as [span|] eqn:Hspan; [|discriminate].
  apply String.eqb_eq in Hs. subst span. rewrite Ht. split.
  - apply consumes_unit.
    + rewrite str_length_app. pose proof (escapeChar_length a). lia.
    + intros tail _. rewrite !str_app_assoc.
      apply (matchRangeInternal_range a b cur tail Hspan).
  - apply starts_without_app_l; [apply escapeChar_length | apply escapeChar_start].
Qed.

Lemma escape_fold (L : list ascii) (cur out S0 : string) :
  pending cur -> consumes out S0 ->
  (forall X, starts_without "-^]" X = true -> starts_without "-^]" (out +:+ X) = true) ->
  pending (fst (fold_left escape_step L (cur, out)))
  /\ (exists S1, consumes (snd (fold_left escape_step L (cur, out))) S1
                 /\ S1 +:+ fst (fold_left escape_step L (cur, out))
                    = S0 +:+ cur +:+ string_of_list_ascii L)
  /\ (forall X, starts_without "-^]" X = true ->
                starts_without "-^]" (snd (fold_left escape_step L (cur, out)) +:+ X) = true).
Proof.
  revert cur out S0. induction L as [|c L IH]; intros cur out S0 Hp Hc Hs.
  - cbn [fold_left fst snd string_of_list_ascii]. rewrite str_app_nil_r. eauto.
  - cbn [fold_left string_of_list_ascii].
    pose proof (pending_step cur out c Hp) as Hp'.
    destruct (escape_step_cases cur out c) as [E|E]; rewrite E in *; cbn [fst] in Hp'.
    + destruct (IH _ _ S0 Hp' Hc Hs) as (H1 & (S1 & H2 & H3) & H4).
      split; [exact H1|]. split; [|exact H4].
      exists S1. split; [exact H2|]. rewrite H3, !str_app_assoc. reflexivity.
    + destruct (unit_text_good cur Hp) as [Hg1 Hg2].
      destruct (IH (str1 c) (out +:+ unit_text cur) (S0 +:+ cur) Hp') as (H1 & (S1 & H2 & H3) & H4).
      * apply consumes_app; [exact Hc | exact Hg1 | apply starts_without_dash, Hg2].
      * intros X HX. rewrite str_app_assoc. apply Hs.
        apply starts_without_app; assumption.
      * split; [exact H1|]. split; [|exact H4].
        exists S1. split; [exact H2|]. rewrite H3, !str_app_assoc. reflexivity.
Qed.

Lemma escape_list_consumes (L : list ascii) :
  consumes (escape_list L) (string_of_list_ascii L)
  /\ starts_without "-^]" (escape_list L) = true.
Proof.
  unfold escape_list.
  destruct (escape_fold L "" "" "") as (H1 & (S1 & H2 & H3) & H4).
  - left. simpl. lia.
  - exact consumes_nil.
  - intros X HX. exact HX.
  - destruct (fold_left escape_step L ("", "")) as [cur out]. cbn [fst snd] in *.
    rewrite recordRange_out. cbn [snd].
    destruct (unit_text_good cur H1) as [Hg1 Hg2]. split.
    + change (string_of_list_ascii L) with ("" +:+ "" +:+ string_of_list_ascii L).
      rewrite <- H3. apply consumes_app; [exact H2 | exact Hg1 | apply starts_without_dash, Hg2].
    + apply H4, Hg2.
Qed.

Lemma matchRangeInternal_close (rest : string) :
  matchRangeInternal (String "]" rest) 0 = Raise MatchFailureException.
Proof. vm_compute. reflexivity. Qed.

Lemma interior_roundtrip (L : list ascii) (rest : string) :
  matchRangeInterior (escape_list L +:+ String "]" rest) 0
  = Ok (string_of_list_ascii L, String.length (escape_list L)).
Proof.
  unfold matchRangeInterior.
  destruct (escape_list_consumes L) as [Hc _].
  destruct (Hc (String "]" rest) "" (S (String.length (escape_list L +:+ String "]" rest) - 0)))
    as (f' & Hf' & E); [reflexivity | lia |].
  rewrite E. destruct f' as [|f']; [simpl in Hf'; lia|].
  cbn [matchRangeInterior_loop]. rewrite matchRangeInternal_close.
  cbn [shift String.append]. rewrite Nat.add_0_r. reflexivity.
Qed.

(** *** Character classes *)

Lemma insert_sorted_perm {A} (leb : A -> A -> bool) (x : A) (l : list A) :
  Permutation (insert_sorted leb x l) (x :: l).
Proof.
  induction l as [|y l IH]; cbn [insert_sorted]; [reflexivity|].
  destruct (leb x y); [reflexivity|].
  rewrite IH. apply perm_swap.
Qed.

Lemma sorted_perm {A} (leb : A -> A -> bool) (l : list A) :
  Permutation (sorted leb l) l.
Proof.
  induction l as [|x l IH]; [reflexivity|].
  unfold sorted in *. cbn [foldr]. rewrite insert_sorted_perm, IH. reflexivity.
Qed.

Lemma sorted_chars_set (c : charclass) :
  list_to_set (list_ascii_of_string (string_of_list_ascii (sorted_chars c))) = chars c.
Proof.
  rewrite list_ascii_of_string_of_list_ascii. unfold sorted_chars.
  apply set_eq. intros x. rewrite elem_of_list_to_set.
  rewrite (sorted_perm ascii_leb (elements (chars c))). apply elem_of_elements.
Qed.

Lemma charclass_escape_list (c : charclass) :
  charclass_escape c = escape_list (sorted_chars c).
Proof. reflexivity. Qed.

Lemma shorthand_skip_bracket (X : string) (other : result (charclass * nat)) :
  first_match (fun kv : charclass * string =>
                 j ← matchStatic (String "[" X) 0 (snd kv); Ok (fst kv, j))
    shorthand other = other.
Proof. vm_compute. reflexivity. Qed.

Lemma negated_open_fails (Y : string) :
  starts_without "^" Y = true ->
  matchStatic (String "[" Y) 0 "[^" = Raise MatchFailureException.
Proof.
  destruct Y as [|y Y]; [reflexivity|].
  unfold starts_without, char_in. destruct (Ascii.eqb_spec y "^") as [->|Hne]; [discriminate|].
  intros _. unfold matchStatic. cbn [String.length String.substring].
  replace (String.substring 0 0 Y) with EmptyString by (destruct Y; reflexivity).
  cbn [String.eqb]. destruct (Ascii.eqb_spec "["%char "["%char); [|contradiction].
  destruct (Ascii.eqb_spec y "^"); [contradiction | reflexivity].
Qed.

Lemma starts_without_hat (s : string) :
  starts_without "-^]" s = true -> starts_without "^" s = true.
Proof.
  apply starts_without_weaken. intros x. simpl.
  destruct (Ascii.eqb x "^"); [intros _; destruct (Ascii.eqb x "-"); reflexivity | discriminate].
Qed.

Lemma bracket_roundtrip (open : string) (L : list ascii) (tail : string) :
  (j ← matchStatic (open +:+ escape_list L +:+ String "]" tail) 0 open;
   '(cs, j) ← matchRangeInterior (open +:+ escape_list L +:+ String "]" tail) j;
   j ← matchStatic (open +:+ escape_list L +:+ String "]" tail) j "]";
   Ok (cs, j))
  = Ok (string_of_list_ascii L, String.length (open +:+ escape_list L +:+ "]")).
Proof.
  rewrite matchStatic_prefix. cbn [mbind result_bind].
  rewrite <- (Nat.add_0_r (String.length open)) at 1.
  rewrite matchRangeInterior_shift, interior_roundtrip. cbn [shift mbind result_bind].
  replace (open +:+ escape_list L +:+ String "]" tail)
    with ((open +:+ escape_list L) +:+ String "]" tail) by apply str_app_assoc.
  replace (String.length open + String.length (escape_list L))%nat
    with (String.length (open +:+ escape_list L)) by apply str_length_app.
  rewrite matchStatic_after.
  change (String "]" tail) with ("]" +:+ tail). rewrite matchStatic_prefix.
  cbn [shift_pos mbind result_bind]. f_equal. f_equal.
  rewrite !str_length_app. simpl. lia.
Qed.

Lemma shorthand_texts (str : string) (other : result (charclass * nat)) :
  forallb (fun kv : charclass * string =>
             negb (String.eqb (String.substring 0 (String.length (snd kv)) str) (snd kv)))
    shorthand = true ->
  first_match (fun kv : charclass * string =>
                 j ← matchStatic str 0 (snd kv); Ok (fst kv, j))
    shorthand other = other.
Proof.
  unfold shorthand. generalize cc_w cc_d cc_s cc_W cc_D cc_S dot.
  intros k1 k2 k3 k4 k5 k6 k7 H.
  cbn [forallb snd] in H. rewrite !andb_true_iff, !negb_true_iff in H.
  unfold first_match, matchStatic. cbn [foldr snd fst].
  destruct H as (H1 & H2 & H3 & H4 & H5 & H6 & H7 & _).
  rewrite H1, H2, H3, H4, H5, H6, H7. reflexivity.
Qed.

Lemma single_roundtrip (char : ascii) (tail : string) :
  charclass_match (single_text char +:+ tail) 0
  = Ok (charclass_init (str1 char) false, String.length (single_text char)).
Proof.
  unfold charclass_match. rewrite shorthand_texts.
  - unfold matchNegatedRange, matchRange. generalize charclass_init. intros ci.
    destruct tail; destruct char as [[] [] [] [] [] [] [] []]; vm_compute; reflexivity.
  - destruct tail; destruct char as [[] [] [] [] [] [] [] []]; vm_compute; reflexivity.
Qed.

Lemma shorthand_roundtrip (c : charclass) (str tail : string) :
  shorthand_get c = Some str ->
  charclass_match (str +:+ tail) 0 = Ok (c, String.length str).
Proof.
  unfold shorthand_get, shorthand. cbn [List.find fst snd].
  unfold charclass_match, shorthand.
  generalize cc_w cc_d cc_s cc_W cc_D cc_S dot. intros k1 k2 k3 k4 k5 k6 k7.
  repeat match goal with
         | |- context [bool_decide (c = ?k)] =>
             destruct (bool_decide_reflect (c = k)) as [->|_];
             [intros [= <-]; destruct tail; vm_compute; reflexivity|]
         end.
  discriminate.
Qed.

(** [matchNegatedRange] or [matchRange] on a bracketed text *)
Lemma bracket_bind (open : string) (L : list ascii) (tail : string)
    (f : string -> charclass) :
  (j ← matchStatic (open +:+ escape_list L +:+ String "]" tail) 0 open;
   '(cs, j) ← matchRangeInterior (open +:+ escape_list L +:+ String "]" tail) j;
   j ← matchStatic (open +:+ escape_list L +:+ String "]" tail) j "]";
   Ok (f cs, j))
  = Ok (f (string_of_list_ascii L), String.length (open +:+ escape_list L +:+ "]")).
Proof.
  pose proof (bracket_roundtrip open L tail) as H.
  destruct (matchStatic _ 0 open) as [j|]; [|discriminate].
  cbn [mbind result_bind] in *.
  destruct (matchRangeInterior _ j) as [[cs0 j0]|]; [|discriminate].
  cbn [mbind result_bind] in *.
  destruct (matchStatic _ j0 "]") as [j1|]; [|discriminate].
  cbn [mbind result_bind] in *.
  injection H as -> ->. reflexivity.
Qed.

Lemma charclass_roundtrip (c : charclass) (s tail : string) :
  charclass_regex c = Ok s ->
  charclass_match (s +:+ tail) 0 = Ok (c, String.length s).
Proof.
  unfold charclass_regex.
  destruct (shorthand_get c) as [str|] eqn:Hs.
  { intros [= <-]. apply shorthand_roundtrip, Hs. }
  destruct (size (chars c) <? 1)%nat; [discriminate|].
  destruct c as [cs neg]. cbn [negated chars].
  destruct neg.
  - intros [= <-]. rewrite charclass_escape_list.
    set (L := sorted_chars (Charclass cs true)).
    unfold charclass_match.
    replace (("[^" +:+ escape_list L +:+ "]") +:+ tail)
      with ("[^" +:+ escape_list L +:+ String "]" tail)
      by (rewrite !str_app_assoc; reflexivity).
    change ("[^" +:+ escape_list L +:+ String "]" tail)
      with (String "[" ("^" +:+ escape_list L +:+ String "]" tail)) at 1.
    rewrite shorthand_skip_bracket.
    unfold matchNegatedRange.
    rewrite (bracket_bind "[^" L tail (fun cs0 => charclass_invert (charclass_init cs0 false))).
    cbn [try_except]. f_equal. f_equal.
    unfold charclass_invert, charclass_init. cbn [chars negated negb]. f_equal.
    apply (sorted_chars_set (Charclass cs true)).
  - assert (Hbracket :
      charclass_match (("[" +:+ charclass_escape (Charclass cs false) +:+ "]") +:+ tail) 0
      = Ok (Charclass cs false,
            String.length ("[" +:+ charclass_escape (Charclass cs false) +:+ "]"))).
    { rewrite charclass_escape_list.
      set (L := sorted_chars (Charclass cs false)).
      unfold charclass_match.
      replace (("[" +:+ escape_list L +:+ "]") +:+ tail)
        with ("[" +:+ escape_list L +:+ String "]" tail)
        by (rewrite !str_app_assoc; reflexivity).
      pose proof (shorthand_skip_bracket (escape_list L +:+ String "]" tail)) as Hsk.
      change (String "[" (escape_list L +:+ String "]" tail))
        with ("[" +:+ escape_list L +:+ String "]" tail) in Hsk.
      rewrite Hsk. clear Hsk.
      assert (Hn : matchStatic ("[" +:+ escape_list L +:+ String "]" tail) 0 "[^"
                   = Raise MatchFailureException).
      { apply (negated_open_fails (escape_list L +:+ String "]" tail)).
        apply starts_without_app; [|reflexivity].
        apply starts_without_hat. apply escape_list_consumes. }
      unfold matchNegatedRange at 1. rewrite Hn.
      cbn [mbind result_bind try_except].
      destruct (decide (MatchFailureException = MatchFailureException)); [|contradiction].
      unfold matchRange.
      rewrite (bracket_bind "[" L tail (fun cs0 => charclass_init cs0 false)).
      cbn [try_except]. f_equal. f_equal.
      unfold charclass_init. f_equal.
      apply (sorted_chars_set (Charclass cs false)). }
    destruct (elements cs) as [|char [|char' rest]] eqn:He.
    + intros [= <-]. exact Hbracket.
    + intros H.
      assert (Hs' : s = single_text char).
      { unfold single_text. destruct (escapes_get char); [congruence|].
        destruct (char_in char allSpecial); congruence. }
      subst s. rewrite single_roundtrip. f_equal. f_equal.
      unfold charclass_init, str1. cbn [list_ascii_of_string]. f_equal.
      rewrite <- (list_to_set_elements_L cs), He. reflexivity.
    + intros [= <-]. exact Hbracket.
Qed.

(** *** Multipliers *)

Lemma matchStatic_head (c a : ascii) (X : string) :
  matchStatic (String c X) 0 (str1 a)
  = if Ascii.eqb c a then Ok 1 else Raise MatchFailureException.
Proof.
  unfold matchStatic, str1. cbn [String.length String.substring].
  replace (String.substring 0 0 X) with EmptyString by (destruct X; reflexivity).
  cbn [String.eqb]. destruct (Ascii.eqb c a); reflexivity.
Qed.

Lemma matchAnyOf_head (c : ascii) (X collection : string) :
  matchAnyOf (String c X) 0 collection
  = if char_in c collection then Ok (c, 1) else Raise MatchFailureException.
Proof.
  unfold matchAnyOf, first_match.
  induction collection as [|a l IH]; [reflexivity|].
  cbn [list_ascii_of_string foldr char_in]. rewrite matchStatic_head.
  destruct (Ascii.eqb_spec c a) as [->|Hne]; [reflexivity|].
  cbn [mbind result_bind try_except].
  destruct (decide (MatchFailureException = MatchFailureException)); [exact IH | contradiction].
Qed.

Lemma matchAnyOf_stop (tail collection : string) :
  starts_without collection tail = true ->
  matchAnyOf tail 0 collection = Raise MatchFailureException.
Proof.
  destruct tail as [|c X].
  - intros _. unfold matchAnyOf, first_match.
    induction collection as [|a l IH]; [reflexivity|].
    cbn [list_ascii_of_string foldr]. rewrite IH. reflexivity.
  - unfold starts_without. rewrite matchAnyOf_head.
    destruct (char_in c collection); [discriminate | reflexivity].
Qed.

Ltac eval_char_in :=
  repeat match goal with
         | |- context [char_in ?c ?l] =>
             let b := eval vm_compute in (char_in c l) in
             change (char_in c l) with b
         end.

Lemma digits_loop (d : Decimal.uint) (n : Z) (tail : string) (fuel : nat) :
  starts_without "0123456789" tail = true ->
  (0 < n)%Z ->
  String.length (NilEmpty.string_of_uint d) < fuel ->
  matchInteger_loop fuel (NilEmpty.string_of_uint d +:+ tail) n 0
  = Ok (Z.pos (Pos.of_uint_acc d (Z.to_pos n)), String.length (NilEmpty.string_of_uint d)).
Proof.
  intros Ht. revert n fuel.
  induction d as [|d IH|d IH|d IH|d IH|d IH|d IH|d IH|d IH|d IH|d IH];
    intros n fuel Hn Hf; cbn [NilEmpty.string_of_uint String.length] in Hf |- *;
    (destruct fuel as [|fuel]; [lia|]); cbn [matchInteger_loop].
  1:{ change ("" +:+ tail) with tail. rewrite matchAnyOf_stop by exact Ht.
      cbn [Pos.of_uint_acc]. f_equal. f_equal. lia. }
  all: rewrite str_app_cons, matchAnyOf_head; eval_char_in; cbv iota.
  all: match goal with
       | |- matchInteger_loop _ (String ?k ?X) ?m 1 = _ =>
           change (matchInteger_loop fuel (String k X) m 1)
             with (matchInteger_loop fuel (str1 k +:+ X) m (String.length (str1 k) + 0))
       end.
  all: rewrite matchInteger_loop_shift.
  all: match goal with
       | |- context [int_of_digit ?k] =>
           let v := eval vm_compute in (int_of_digit k) in
           change (int_of_digit k) with v
       end.
  all: rewrite IH by lia.
  all: cbn [shift str1 String.length Pos.of_uint_acc].
  all: do 4 f_equal; lia.
Qed.

Lemma to_uint_head (p : positive) (l : Decimal.uint) : Pos.to_uint p <> Decimal.D0 l.
Proof.
  intros H.
  pose proof (DecimalPos.Unsigned.to_of (Pos.to_uint p)) as E.
  rewrite DecimalPos.Unsigned.of_to in E. cbn [N.to_uint] in E.
  rewrite H in E. unfold Decimal.unorm in E.
  destruct (Decimal.nzhead (Decimal.D0 l)) eqn:Hz;
    try (symmetry in E; apply (nzhead_nonzero _ _ (eq_trans Hz E)));
    try discriminate.
  injection E as ->. apply (Unsigned.to_uint_nonzero p H).
Qed.

Lemma str_of_Z_start (n : Z) :
  (0 <= n)%Z -> starts_without "{?*+,}" (str_of_Z n) = true
                /\ 1 <= String.length (str_of_Z n).
Proof.
  intros Hn. unfold str_of_Z. destruct n as [|p|p]; [split; [reflexivity | simpl; lia] | | lia].
  cbn [Z.to_int NilZero.string_of_int]. unfold NilZero.string_of_uint.
  destruct (Pos.to_uint p); cbn [NilEmpty.string_of_uint String.length];
    (split; [reflexivity | lia]).
Qed.

Lemma matchInteger_roundtrip (n : Z) (tail : string) :
  (0 <= n)%Z -> starts_without "0123456789" tail = true ->
  matchInteger (str_of_Z n +:+ tail) 0 = Ok (n, String.length (str_of_Z n)).
Proof.
  intros Hn Ht. unfold str_of_Z. destruct n as [|p|p]; [| |lia].
  - cbn [Z.to_int NilZero.string_of_int NilZero.string_of_uint].
    unfold matchInteger. rewrite matchStatic_prefix. reflexivity.
  - cbn [Z.to_int NilZero.string_of_int]. unfold NilZero.string_of_uint.
    pose proof (DecimalPos.Unsigned.of_to p) as E.
    pose proof (to_uint_head p) as H0.
    pose proof (Unsigned.to_uint_nonnil p) as Hnil.
    destruct (Pos.to_uint p) as [|d|d|d|d|d|d|d|d|d|d];
      [contradiction | exfalso; apply (H0 d); reflexivity | ..].
    all: cbn [Pos.of_uint] in E; injection E as <-.
    all: cbn [NilEmpty.string_of_uint]; rewrite str_app_cons.
    all: unfold matchInteger.
    all: match goal with
         | |- context [matchStatic (String ?k ?X) 0 "0"] =>
             change (matchStatic (String k X) 0 "0")
               with (matchStatic (String k X) 0 (str1 "0"));
             rewrite matchStatic_head
         end.
    all: match goal with
         | |- context [Ascii.eqb ?a ?b] =>
             let v := eval vm_compute in (Ascii.eqb a b) in
             change (Ascii.eqb a b) with v
         end; cbv iota.
    all: cbn [mbind result_bind try_except].
    all: destruct (decide (MatchFailureException = MatchFailureException)); [|contradiction].
    all: rewrite matchAnyOf_head; eval_char_in; cbv iota.
    all: cbn [mbind result_bind String.length].
    all: match goal with
         | |- matchInteger_loop ?f (String ?k ?X) ?m 1 = _ =>
             change (matchInteger_loop f (String k X) m 1)
               with (matchInteger_loop f (str1 k +:+ X) m (String.length (str1 k) + 0))
         end.
    all: rewrite matchInteger_loop_shift.
    all: match goal with
         | |- context [int_of_digit ?k] =>
             let v := eval vm_compute in (int_of_digit k) in
             change (int_of_digit k) with v
         end.
    all: rewrite digits_loop; [reflexivity | exact Ht | lia | rewrite str_length_app; lia].
Qed.

Lemma matchInteger_stop (t : string) :
  starts_without "0123456789" t = true ->
  matchInteger t 0 = Raise MatchFailureException.
Proof.
  intros Ht. unfold matchInteger.
  change (matchStatic t 0 "0") with (matchStatic t 0 (str1 "0")).
  rewrite matchStatic_char_fails, matchAnyOf_stop.
  - reflexivity.
  - revert Ht. apply starts_without_weaken. intros x.
    destruct x as [[] [] [] [] [] [] [] []]; vm_compute; congruence.
  - revert Ht. apply starts_without_weaken. intros x.
    destruct x as [[] [] [] [] [] [] [] []]; vm_compute; congruence.
Qed.

(** The parser at the end of the prefix [pre] of a text [T] *)
Lemma at_static (T pre static rest : string) :
  T = (pre +:+ static) +:+ rest ->
  matchStatic T (String.length pre) static = Ok (String.length (pre +:+ static)).
Proof.
  intros ->. rewrite str_app_assoc, matchStatic_after, matchStatic_prefix.
  cbn [shift_pos]. rewrite str_length_app. reflexivity.
Qed.

Lemma at_static_fail (T pre static rest : string) :
  T = pre +:+ rest ->
  matchStatic rest 0 static = Raise MatchFailureException ->
  matchStatic T (String.length pre) static = Raise MatchFailureException.
Proof. intros -> H. rewrite matchStatic_after, H. reflexivity. Qed.

Lemma at_integer (T pre : string) (n : Z) (rest : string) :
  T = (pre +:+ str_of_Z n) +:+ rest ->
  (0 <= n)%Z -> starts_without "0123456789" rest = true ->
  matchInteger T (String.length pre) = Ok (n, String.length (pre +:+ str_of_Z n)).
Proof.
  intros -> Hn Hr. rewrite str_app_assoc.
  rewrite <- (Nat.add_0_r (String.length pre)) at 1.
  rewrite matchInteger_shift, matchInteger_roundtrip by assumption.
  cbn [shift]. rewrite str_length_app. reflexivity.
Qed.

Lemma at_integer_fail (T pre rest : string) :
  T = pre +:+ rest -> starts_without "0123456789" rest = true ->
  matchInteger T (String.length pre) = Raise MatchFailureException.
Proof.
  intros -> Hr. rewrite <- (Nat.add_0_r (String.length pre)) at 1.
  rewrite matchInteger_shift, matchInteger_stop by assumption. reflexivity.
Qed.

Ltac at_eq := subst; rewrite ?str_app_assoc; reflexivity.
Ltac caught :=
  cbn [mbind result_bind try_except];
  destruct (decide (MatchFailureException = MatchFailureException)); [|contradiction].

Lemma symbolic_roundtrip (mu : multiplier) (suffix tail : string) :
  symbolic_get mu = Some suffix ->
  starts_without "{?*+" tail = true ->
  multiplier_match (suffix +:+ tail) 0 = Ok (mu, String.length suffix).
Proof.
  unfold symbolic_get, symbolic. cbn [List.find fst snd].
  repeat match goal with
         | |- context [bool_decide (mu = ?k)] =>
             destruct (bool_decide_reflect (mu = k)) as [->|_]
         end; intros [= <-] Ht;
    destruct tail as [|c [|c' X]]; try reflexivity;
    destruct c as [[] [] [] [] [] [] [] []]; try discriminate Ht; reflexivity.
Qed.

Lemma multiplier_init_min (mn : Z) (mx : option Z) (mu : multiplier) :
  multiplier_init (Some mn) mx = Ok mu -> (0 <= mn)%Z.
Proof.
  unfold multiplier_init. destruct (Z.ltb_spec mn 0); [discriminate | auto].
Qed.

Ltac open_brace T rest :=
  change (matchStatic T 0 "{") with (matchStatic T (String.length EmptyString) "{");
  rewrite (at_static T EmptyString "{" rest) by at_eq;
  change (String.length (EmptyString +:+ "{")) with (String.length "{").

Lemma multiplier_roundtrip (mu : multiplier) (suffix tail : string) :
  multiplier_valid mu -> multiplier_regex mu = Ok suffix ->
  starts_without "{?*+" tail = true ->
  multiplier_match (suffix +:+ tail) 0 = Ok (mu, String.length suffix).
Proof.
  unfold multiplier_valid, multiplier_regex.
  destruct mu as [[mn|] mx]; cbn [mmin mmax]; [|discriminate].
  intros Hv. pose proof (multiplier_init_min _ _ _ Hv) as Hmn.
  destruct (bool_decide (mx = Some 0%Z)); [discriminate|].
  destruct (symbolic_get (Multiplier (Some mn) mx)) as [str|] eqn:Hs.
  { intros [= <-] Ht. apply symbolic_roundtrip; assumption. }
  intros Hr _.
  remember (suffix +:+ tail) as T eqn:HT.
  unfold multiplier_match.
  destruct mx as [mx|].
  - assert (Hmx : (0 <= mx)%Z /\ (mn <= mx)%Z).
    { unfold multiplier_init in Hv. destruct (Z.ltb_spec mn 0); [discriminate|].
      destruct (Z.ltb_spec mx mn); [discriminate | lia]. }
    destruct (Z.eqb_spec mn mx) as [<-|Hne]; injection Hr as <-.
    + open_brace T (str_of_Z mn +:+ "}" +:+ tail).
      cbn [mbind result_bind].
      rewrite (at_integer T "{" mn ("}" +:+ tail)) by (try at_eq; first [lia | reflexivity]).
      cbn [mbind result_bind].
      rewrite (at_static_fail T ("{" +:+ str_of_Z mn) "," ("}" +:+ tail))
        by (try at_eq; reflexivity).
      caught.
      rewrite (at_static_fail T ("{" +:+ str_of_Z mn) ",}" ("}" +:+ tail))
        by (try at_eq; reflexivity).
      caught.
      rewrite (at_static T ("{" +:+ str_of_Z mn) "}" tail) by at_eq.
      cbn [mbind result_bind]. rewrite Hv. cbn [mbind result_bind try_except].
      rewrite !str_length_app. f_equal; f_equal; lia.
    + open_brace T (str_of_Z mn +:+ "," +:+ str_of_Z mx +:+ "}" +:+ tail).
      cbn [mbind result_bind].
      rewrite (at_integer T "{" mn ("," +:+ str_of_Z mx +:+ "}" +:+ tail))
        by (try at_eq; first [lia | reflexivity]).
      cbn [mbind result_bind].
      rewrite (at_static T ("{" +:+ str_of_Z mn) "," (str_of_Z mx +:+ "}" +:+ tail)) by at_eq.
      cbn [mbind result_bind].
      rewrite (at_integer T (("{" +:+ str_of_Z mn) +:+ ",") mx ("}" +:+ tail))
        by (try at_eq; first [lia | reflexivity]).
      cbn [mbind result_bind].
      rewrite (at_static T ((("{" +:+ str_of_Z mn) +:+ ",") +:+ str_of_Z mx) "}" tail)
        by at_eq.
      cbn [mbind result_bind]. rewrite Hv. cbn [mbind result_bind try_except].
      rewrite !str_length_app. f_equal; f_equal; lia.
  - injection Hr as <-.
    open_brace T (str_of_Z mn +:+ ",}" +:+ tail).
    cbn [mbind result_bind].
    rewrite (at_integer T "{" mn (",}" +:+ tail)) by (try at_eq; first [lia | reflexivity]).
    cbn [mbind result_bind].
    rewrite (at_static T ("{" +:+ str_of_Z mn) "," ("}" +:+ tail)) by at_eq.
    cbn [mbind result_bind].
    rewrite (at_integer_fail T (("{" +:+ str_of_Z mn) +:+ ",") ("}" +:+ tail))
      by (try at_eq; reflexivity).
    caught.
    rewrite (at_static T ("{" +:+ str_of_Z mn) ",}" tail) by at_eq.
    cbn [mbind result_bind]. rewrite Hv. cbn [mbind result_bind try_except].
    rewrite !str_length_app. f_equal; f_equal; lia.
Qed.

(** *** Mults, concs and patterns *)










Lemma mult_match_eq (pm : string -> nat -> result (lego * nat)) (str : string) (i : nat) :
  mult_match pm str i
  = ('(multiplicand, j) ← multiplicand_match pm str i;
     '(x, j) ← multiplier_match str j;
     m ← mult_init multiplicand x;
     Ok (m, j)).
Proof. reflexivity. Qed.


















(** *** What the parser returns *)

Lemma try_except_ok {A} (a b : result A) (e : exn) (v : A) :
  try_except a e b = Ok v -> a = Ok v \/ b = Ok v.
Proof.
  destruct a as [x|e']; cbn [try_except]; [auto|].
  destruct (decide (e' = e)); [auto | discriminate].
Qed.

Lemma first_match_ok {A B} (f : A -> result B) (l : list A) (other : result B) (v : B) :
  first_match f l other = Ok v -> (exists x, In x l /\ f x = Ok v) \/ other = Ok v.
Proof.
  unfold first_match. induction l as [|x l IH]; cbn [foldr]; [auto|].
  intros H. apply try_except_ok in H as [H|H].
  - left. exists x. split; [left; reflexivity | exact H].
  - destruct (IH H) as [(y & Hy & E)|E]; [|auto].
    left. exists y. split; [right; exact Hy | exact E].
Qed.

Lemma multiplier_match_valid (str : string) (i : nat) (mu : multiplier) (j : nat) :
  multiplier_match str i = Ok (mu, j) -> multiplier_valid mu.
Proof.
  unfold multiplier_match. intros H.
  apply try_except_ok in H as [H|H]; [|apply try_except_ok in H as [H|H];
                                       [|apply try_except_ok in H as [H|H]]].
  - apply bind_ok in H as (j0 & _ & H). apply bind_ok in H as ([mn j1] & _ & H).
    apply bind_ok in H as (j2 & _ & H). apply bind_ok in H as ([mx j3] & _ & H).
    apply bind_ok in H as (j4 & _ & H). apply bind_ok in H as (m & Hm & H).
    injection H as -> _. apply (multiplier_init_valid _ _ _ Hm).
  - apply bind_ok in H as (j0 & _ & H). apply bind_ok in H as ([mn j1] & _ & H).
    apply bind_ok in H as (j2 & _ & H). apply bind_ok in H as (m & Hm & H).
    injection H as -> _. apply (multiplier_init_valid _ _ _ Hm).
  - apply bind_ok in H as (j0 & _ & H). apply bind_ok in H as ([mn j1] & _ & H).
    apply bind_ok in H as (j2 & _ & H). apply bind_ok in H as (m & Hm & H).
    injection H as -> _. apply (multiplier_init_valid _ _ _ Hm).
  - apply first_match_ok in H as [(x & Hx & H)|H]; [|discriminate].
    apply bind_ok in H as (j0 & _ & H). injection H as <- _.
    unfold symbolic_by_length in Hx. cbn [In] in Hx.
    destruct Hx as [<-|[<-|[<-|[<-|[]]]]]; reflexivity.
Qed.

Section ParserResults.
Variable pm : string -> nat -> result (lego * nat).
Hypothesis pm_pattern :
  forall str i p j, pm str i = Ok (p, j) ->
    has_type KPattern p && well_formed p = true.

Lemma mult_match_well_formed (str : string) (i : nat) (m : lego) (j : nat) :
  mult_match pm str i = Ok (m, j) -> has_type KMult m && well_formed m = true.
Proof.
  rewrite mult_match_eq. intros H.
  apply bind_ok in H as ([x j1] & Hx & H).
  apply bind_ok in H as ([mu j2] & Hmu & H).
  apply bind_ok in H as (m' & Hm & H). injection H as -> _.
  apply multiplier_match_valid in Hmu.
  assert (Hx' : (has_type KCharclass x || has_type KPattern x) && well_formed x = true).
  { unfold multiplicand_match in Hx. apply try_except_ok in Hx as [Hx|Hx].
    - apply bind_ok in Hx as (j3 & _ & Hx). apply bind_ok in Hx as ([p j4] & Hp & Hx).
      apply bind_ok in Hx as (j5 & _ & Hx). injection Hx as -> _.
      apply pm_pattern in Hp. apply andb_true_iff in Hp as [-> ->].
      now rewrite orb_true_r.
    - apply bind_ok in Hx as ([c j3] & _ & Hx). injection Hx as <- _. reflexivity. }
  apply andb_true_iff in Hx' as [Hty Hwf].
  unfold mult_init in Hm. unfold has_type in Hty.
  destruct (type_of x) eqn:Ek; try discriminate Hty; injection Hm as <-;
    cbn [well_formed]; unfold has_type at 2 3; rewrite Ek, Hwf;
    rewrite (bool_decide_eq_true_2 _ Hmu); reflexivity.
Qed.

Lemma conc_match_loop_well_formed (fuel : nat) (str : string) (acc : list lego)
    (i : nat) (c : lego) (j : nat) :
  forallb (fun m => has_type KMult m && well_formed m) acc = true ->
  conc_match_loop pm fuel str acc i = Ok (c, j) ->
  has_type KConc c && well_formed c = true.
Proof.
  revert acc i. induction fuel as [|fuel IH]; intros acc i Hacc; [discriminate|].
  cbn [conc_match_loop].
  destruct (mult_match pm str i) as [[x i']|e] eqn:E.
  - apply IH. rewrite forallb_app, Hacc. cbn [forallb].
    now rewrite (mult_match_well_formed _ _ _ _ E).
  - destruct e; try discriminate. intros H.
    apply bind_ok in H as (c' & Hc & H). injection H as -> _.
    unfold conc_init in Hc.
    destruct (forallb (has_type KMult) acc); [|discriminate]. injection Hc as <-.
    exact Hacc.
Qed.

Lemma conc_match_well_formed (str : string) (i : nat) (c : lego) (j : nat) :
  conc_match pm str i = Ok (c, j) -> has_type KConc c && well_formed c = true.
Proof. apply conc_match_loop_well_formed. reflexivity. Qed.

Lemma pattern_match_loop_well_formed (fuel : nat) (str : string) (acc : list lego)
    (i : nat) (p : lego) (j : nat) :
  forallb (fun c => has_type KConc c && well_formed c) acc = true ->
  pattern_match_loop pm fuel str acc i = Ok (p, j) ->
  has_type KPattern p && well_formed p = true.
Proof.
  revert acc i. induction fuel as [|fuel IH]; intros acc i Hacc; [discriminate|].
  cbn [pattern_match_loop].
  destruct (i' ← matchStatic str i "|"; conc_match pm str i') as [[x i']|e] eqn:E.
  - apply IH. rewrite forallb_app, Hacc. cbn [forallb].
    apply bind_ok in E as (i0 & _ & E).
    now rewrite (conc_match_well_formed _ _ _ _ E).
  - destruct e; try discriminate. intros H.
    apply bind_ok in H as (p' & Hp & H). injection H as -> _.
    apply pattern_init_inv in Hp as [_ ->].
    rewrite (frozenset_well_formed _ Hacc). reflexivity.
Qed.

Lemma pattern_match_body_well_formed (str : string) (i : nat) (p : lego) (j : nat) :
  pattern_match_body pm str i = Ok (p, j) ->
  has_type KPattern p && well_formed p = true.
Proof.
  unfold pattern_match_body. intros H.
  apply bind_ok in H as ([x i'] & Hx & H).
  apply pattern_match_loop_well_formed in H; [exact H|].
  cbn [forallb]. now rewrite (conc_match_well_formed _ _ _ _ Hx).
Qed.
End ParserResults.

Lemma pattern_match_fuel_well_formed (fuel : nat) (str : string) (i : nat)
    (p : lego) (j : nat) :
  pattern_match_fuel fuel str i = Ok (p, j) ->
  has_type KPattern p && well_formed p = true.
Proof.
  revert str i p j. induction fuel as [|fuel IH]; intros str i p j; [discriminate|].
  cbn [pattern_match_fuel]. apply pattern_match_body_well_formed. exact IH.
Qed.

Lemma pattern_parse_well_formed (t : string) (P : lego) :
  pattern_parse t = Ok P -> has_type KPattern P && well_formed P = true.
Proof.
  unfold pattern_parse. intros H.
  apply bind_ok in H as ([p i] & Hp & H).
  destruct (negb (i =? String.length t)%nat); [discriminate|]. injection H as <-.
  apply (pattern_match_fuel_well_formed _ _ _ _ _ Hp).
Qed.


(** *** Pieces that are read back as they are *)



(** ** Parsing the rendered text *)




(* ================================================================== *)
(** * Further properties *)

(** ** Character classes as sets *)

Ltac charclass_cases :=
  repeat match goal with
         | c : charclass |- _ => destruct c as [? []]
         end;
  unfold charclass_or, charclass_and, charclass_sub, charclass_invert,
    charclass_issubset, charclass_accepts;
  cbn [chars negated negb].

Ltac set_members :=
  try reflexivity;
  apply set_eq; intros ?;
  rewrite ?elem_of_union, ?elem_of_intersection, ?elem_of_difference,
    ?elem_of_union, ?elem_of_intersection, ?elem_of_difference;
  tauto.

Ltac decide_members :=
  repeat match goal with
         | |- context [bool_decide ?P] => destruct (bool_decide_reflect P)
         end;
  cbn [xorb negb orb andb]; try reflexivity; exfalso;
  rewrite ?elem_of_union, ?elem_of_intersection, ?elem_of_difference in *;
  tauto.

(** X1. The union [A | B] of two character classes accepts exactly the
    symbols that [A] or [B] accepts, the intersection [A & B] those that
    both accept, and the complement [~A] those that [A] does not accept,
    whatever the negation flags of [A] and [B]. *)
Theorem charclass_operators_denote (A B : charclass) (x : ascii) :
  charclass_accepts (charclass_or A B) x
  = charclass_accepts A x || charclass_accepts B x
  /\ charclass_accepts (charclass_and A B) x
     = charclass_accepts A x && charclass_accepts B x
  /\ charclass_accepts (charclass_invert A) x = negb (charclass_accepts A x).
Proof.
  split; [|split].
  - charclass_cases; decide_members.
  - charclass_cases; decide_members.
  - charclass_cases; decide_members.
Qed.

(** X2. De Morgan's laws hold as equalities of character classes (the
    same symbol set and the same negation flag on both sides), and
    complementing twice gives the class back. *)
Theorem charclass_de_morgan (A B : charclass) :
  charclass_invert (charclass_or A B)
  = charclass_and (charclass_invert A) (charclass_invert B)
  /\ charclass_invert (charclass_and A B)
     = charclass_or (charclass_invert A) (charclass_invert B)
  /\ charclass_invert (charclass_invert A) = A.
Proof.
  repeat split; charclass_cases; reflexivity.
Qed.

(** X3. Union and intersection of character classes are commutative,
    associative and idempotent, as equalities of character classes. *)
Theorem charclass_lattice_laws (A B C : charclass) :
  charclass_or A B = charclass_or B A
  /\ charclass_and A B = charclass_and B A
  /\ charclass_or A (charclass_or B C) = charclass_or (charclass_or A B) C
  /\ charclass_and A (charclass_and B C) = charclass_and (charclass_and A B) C
  /\ charclass_or A A = A
  /\ charclass_and A A = A.
Proof.
  repeat split; charclass_cases; f_equal; set_members.
Qed.

(** X4. [A.issubset(B)] answers [False] whenever [A] is negated and [B] is
    not; in the three other cases it answers [True] exactly when every
    symbol that [A] accepts is accepted by [B]. *)
Theorem charclass_issubset_spec (A B : charclass) :
  (negated A = true -> negated B = false -> charclass_issubset A B = false)
  /\ (charclass_issubset A B = true ->
      forall x, charclass_accepts A x = true -> charclass_accepts B x = true)
  /\ (negated A = false \/ negated B = true ->
      (forall x, charclass_accepts A x = true -> charclass_accepts B x = true) ->
      charclass_issubset A B = true).
Proof.
  split; [|split].
  - destruct A as [sa na], B as [sb nb]. cbn [negated]. intros -> ->. reflexivity.
  - destruct A as [sa [|]], B as [sb [|]];
      unfold charclass_issubset, charclass_accepts; cbn [chars negated];
      try discriminate; intros H x; apply bool_decide_eq_true in H;
      repeat match goal with
             | |- context [bool_decide ?P] => destruct (bool_decide_reflect P)
             end; cbn [xorb]; try reflexivity; try discriminate; intros _; exfalso;
      rewrite ?elem_of_subseteq, ?elem_of_disjoint in *; eauto.
  - destruct A as [sa [|]], B as [sb [|]];
      unfold charclass_issubset, charclass_accepts; cbn [chars negated];
      intros Hn H; try (destruct Hn; discriminate);
      apply bool_decide_eq_true_2.
    + intros x Hx. specialize (H x).
      destruct (bool_decide_reflect (x ∈ sa)) as [Ha|Ha]; [exact Ha|].
      destruct (bool_decide_reflect (x ∈ sb)); [|contradiction].
      cbn [xorb] in H. specialize (H eq_refl). discriminate.
    + intros x Ha Hb. specialize (H x).
      destruct (bool_decide_reflect (x ∈ sa)); [|contradiction].
      destruct (bool_decide_reflect (x ∈ sb)); [|contradiction].
      cbn [xorb] in H. specialize (H eq_refl). discriminate.
    + intros x Ha. specialize (H x).
      destruct (bool_decide_reflect (x ∈ sa)); [|contradiction].
      destruct (bool_decide_reflect (x ∈ sb)) as [Hb|Hb]; [exact Hb|].
      cbn [xorb] in H. specialize (H eq_refl). discriminate.
Qed.

Lemma charclass_issubset_spec_witness :
  charclass_issubset cc_d (charclass_init "ab" true) = true
  /\ (forall x, charclass_accepts cc_d x = true ->
                charclass_accepts (charclass_init "ab" true) x = true).
Proof.
  assert (H : charclass_issubset cc_d (charclass_init "ab" true) = true)
    by (vm_compute; reflexivity).
  split; [exact H|].
  exact (proj1 (proj2 (charclass_issubset_spec cc_d (charclass_init "ab" true))) H).
Defined.

(** ** Arithmetic of multipliers *)

Ltac multiplier_cases H :=
  apply multiplier_valid_cases in H as [->|[(? & ? & ->)|(? & ? & ? & ->)]].

Lemma multiplier_mul_valid (a b : multiplier) :
  multiplier_valid a -> multiplier_valid b ->
  exists c, multiplier_mul a b = Ok c /\ multiplier_valid c.
Proof.
  intros Ha Hb. multiplier_cases Ha; multiplier_cases Hb;
    unfold multiplier_mul, inf; cbn [mmin mmax].
  all: first
    [ eexists; split; [reflexivity | reflexivity]
    | rewrite multiplier_init_open by nia;
      eexists; split; [reflexivity | apply multiplier_init_open; nia]
    | rewrite multiplier_init_finite by nia;
      eexists; split; [reflexivity | apply multiplier_init_finite; nia] ].
Qed.

Lemma multiplier_mul_comm (a b : multiplier) :
  multiplier_mul a b = multiplier_mul b a.
Proof.
  unfold multiplier_mul. f_equal.
  - destruct (mmin a), (mmin b); try reflexivity. f_equal. lia.
  - destruct (mmax a), (mmax b); try reflexivity. f_equal. lia.
Qed.

Lemma multiplier_mul_one (a : multiplier) :
  multiplier_valid a -> multiplier_mul a one = Ok a.
Proof.
  intros Ha. unfold multiplier_valid in Ha. unfold multiplier_mul, one. cbn [mmin mmax].
  destruct a as [[mn|] [mx|]]; cbn [mmin mmax] in *; rewrite ?Z.mul_1_r; exact Ha.
Qed.

(** X5. The product of two multipliers that the constructor accepts is
    again accepted (the multiplication does not raise); multiplication is
    commutative and [one] is its unit. *)
Theorem multiplier_mul_laws (a b : multiplier) :
  multiplier_valid a -> multiplier_valid b ->
  (exists c, multiplier_mul a b = Ok c /\ multiplier_valid c)
  /\ multiplier_mul a b = multiplier_mul b a
  /\ multiplier_mul a one = Ok a.
Proof.
  intros Ha Hb. split; [apply multiplier_mul_valid; assumption|].
  split; [apply multiplier_mul_comm | apply multiplier_mul_one, Ha].
Qed.

Lemma multiplier_mul_laws_witness :
  (exists c, multiplier_mul (Multiplier (Some 2%Z) (Some 3%Z)) plus = Ok c
             /\ multiplier_valid c)
  /\ multiplier_mul (Multiplier (Some 2%Z) (Some 3%Z)) plus
     = multiplier_mul plus (Multiplier (Some 2%Z) (Some 3%Z))
  /\ multiplier_mul (Multiplier (Some 2%Z) (Some 3%Z)) one
     = Ok (Multiplier (Some 2%Z) (Some 3%Z)).
Proof.
  apply (multiplier_mul_laws (Multiplier (Some 2%Z) (Some 3%Z)) plus); reflexivity.
Defined.

Lemma multiplier_add_valid (a b : multiplier) :
  multiplier_valid a -> multiplier_valid b ->
  exists s, multiplier_add a b = Ok s /\ multiplier_valid s.
Proof.
  intros Ha Hb. multiplier_cases Ha; multiplier_cases Hb;
    unfold multiplier_add, inf; cbn [mmin mmax].
  all: first
    [ eexists; split; [reflexivity | reflexivity]
    | rewrite multiplier_init_open by lia;
      eexists; split; [reflexivity | apply multiplier_init_open; lia]
    | rewrite multiplier_init_finite by lia;
      eexists; split; [reflexivity | apply multiplier_init_finite; lia] ].
Qed.

Lemma multiplier_add_comm (a b : multiplier) :
  multiplier_add a b = multiplier_add b a.
Proof.
  unfold multiplier_add. f_equal.
  - destruct (mmin a), (mmin b); try reflexivity. f_equal. lia.
  - destruct (mmax a), (mmax b); try reflexivity. f_equal. lia.
Qed.

Lemma multiplier_add_sub_cancel (a b s : multiplier) :
  multiplier_valid a -> multiplier_valid b -> mmax b <> None ->
  multiplier_add a b = Ok s -> multiplier_sub s b = Ok a.
Proof.
  intros Ha Hb Hm. multiplier_cases Ha; multiplier_cases Hb;
    cbn [mmax inf] in Hm; try contradiction;
    unfold multiplier_add, inf; cbn [mmin mmax].
  - intros [= <-]. reflexivity.
  - rewrite multiplier_init_open by lia. intros [= <-].
    unfold multiplier_sub, mandatory, optional. cbn [mmin mmax mbind result_bind].
    replace (x + x0 - x0)%Z with x by lia. apply multiplier_init_open; lia.
  - rewrite multiplier_init_finite by lia. intros [= <-].
    unfold multiplier_sub, mandatory, optional. cbn [mmin mmax mbind result_bind].
    replace (x + x1 - x1)%Z with x by lia.
    replace (x + (x0 + x2 - (x + x1) - (x2 - x1)))%Z with x0 by lia.
    apply multiplier_init_finite; lia.
Qed.

(** X6. The sum of two accepted multipliers is accepted, addition is
    commutative, and subtracting a multiplier with a finite maximum from
    a sum gives the other summand back: [(a + b) - b = a]. *)
Theorem multiplier_add_sub (a b : multiplier) :
  multiplier_valid a -> multiplier_valid b ->
  (exists s, multiplier_add a b = Ok s /\ multiplier_valid s
             /\ (mmax b <> None -> multiplier_sub s b = Ok a))
  /\ multiplier_add a b = multiplier_add b a.
Proof.
  intros Ha Hb. split; [|apply multiplier_add_comm].
  destruct (multiplier_add_valid a b Ha Hb) as (s & Hs & Hv).
  exists s. split; [exact Hs|split; [exact Hv|]].
  intros Hm. apply (multiplier_add_sub_cancel a b s); assumption.
Qed.

Lemma multiplier_add_sub_witness :
  (exists s, multiplier_add plus (Multiplier (Some 2%Z) (Some 3%Z)) = Ok s
             /\ multiplier_valid s
             /\ (mmax (Multiplier (Some 2%Z) (Some 3%Z)) <> None ->
                 multiplier_sub s (Multiplier (Some 2%Z) (Some 3%Z)) = Ok plus))
  /\ multiplier_add plus (Multiplier (Some 2%Z) (Some 3%Z))
     = multiplier_add (Multiplier (Some 2%Z) (Some 3%Z)) plus.
Proof.
  apply (multiplier_add_sub plus (Multiplier (Some 2%Z) (Some 3%Z))); reflexivity.
Defined.

Lemma multiplier_and_comm (a b : multiplier) :
  multiplier_and a b = multiplier_and b a.
Proof.
  unfold multiplier_and.
  assert (Hm : match mandatory a with
               | Some x => match mandatory b with
                           | Some y => Some (Z.min x y)
                           | None => Some x
                           end
               | None => mandatory b
               end
               = match mandatory b with
                 | Some x => match mandatory a with
                             | Some y => Some (Z.min x y)
                             | None => Some x
                             end
                 | None => mandatory a
                 end).
  { destruct (mandatory a), (mandatory b); try reflexivity. f_equal. lia. }
  assert (Ho : match optional a with
               | Some x => match optional b with
                           | Some y => Some (Z.min x y)
                           | None => Some x
                           end
               | None => optional b
               end
               = match optional b with
                 | Some x => match optional a with
                             | Some y => Some (Z.min x y)
                             | None => Some x
                             end
                 | None => optional a
                 end).
  { destruct (optional a), (optional b); try reflexivity. f_equal. lia. }
  cbv zeta. rewrite Hm, Ho. reflexivity.
Qed.

Lemma multiplier_common_remainder (a b : multiplier) :
  multiplier_valid a -> multiplier_valid b -> mmin a <> None ->
  exists c d, multiplier_and a b = Ok c /\ multiplier_sub a c = Ok d
              /\ multiplier_add c d = Ok a.
Proof.
  intros Ha Hb Hm. multiplier_cases Ha; multiplier_cases Hb;
    cbn [mmin inf] in Hm; try contradiction;
    unfold multiplier_and, inf, mandatory, optional; cbn [mmin mmax].
  all: cbn [mmin mmax mbind result_bind];
    first [rewrite multiplier_init_open by lia | rewrite multiplier_init_finite by lia];
    eexists; eexists; (split; [reflexivity|]);
    unfold multiplier_sub, multiplier_add, mandatory, optional;
    cbn [mmin mmax mbind result_bind];
    first [rewrite multiplier_init_open by lia | rewrite multiplier_init_finite by lia];
    (split; [reflexivity|]); cbn [mmin mmax].
  all: first [rewrite multiplier_init_open by lia | rewrite multiplier_init_finite by lia].
  all: f_equal; f_equal; f_equal; lia.
Qed.

Lemma multiplier_and_idem (a : multiplier) :
  multiplier_valid a -> multiplier_and a a = Ok a.
Proof.
  intros Ha. multiplier_cases Ha;
    unfold multiplier_and, inf, mandatory, optional; cbn [mmin mmax].
  - reflexivity.
  - rewrite multiplier_init_open by lia. f_equal; f_equal; f_equal; lia.
  - rewrite multiplier_init_finite by lia. f_equal; f_equal; f_equal; lia.
Qed.

(** X7. The common part [a & b] of two multipliers does not depend on the
    order of the operands, and [a & a] is [a].  When [a] has a finite
    minimum, the common part can be subtracted from [a], and adding the
    difference to the common part gives [a] back:
    [(a & b) + (a - (a & b)) = a]. *)
Theorem multiplier_common_part (a b : multiplier) :
  multiplier_valid a -> multiplier_valid b ->
  multiplier_and a b = multiplier_and b a
  /\ multiplier_and a a = Ok a
  /\ (mmin a <> None ->
      exists c d, multiplier_and a b = Ok c /\ multiplier_sub a c = Ok d
                  /\ multiplier_add c d = Ok a).
Proof.
  intros Ha Hb. split; [apply multiplier_and_comm|].
  split; [apply multiplier_and_idem, Ha|].
  intros Hm. apply multiplier_common_remainder; assumption.
Qed.

Lemma multiplier_common_part_witness :
  multiplier_and (Multiplier (Some 3%Z) (Some 4%Z)) plus
  = multiplier_and plus (Multiplier (Some 3%Z) (Some 4%Z))
  /\ multiplier_and (Multiplier (Some 3%Z) (Some 4%Z)) (Multiplier (Some 3%Z) (Some 4%Z))
     = Ok (Multiplier (Some 3%Z) (Some 4%Z))
  /\ (mmin (Multiplier (Some 3%Z) (Some 4%Z)) <> None ->
      exists c d, multiplier_and (Multiplier (Some 3%Z) (Some 4%Z)) plus = Ok c
                  /\ multiplier_sub (Multiplier (Some 3%Z) (Some 4%Z)) c = Ok d
                  /\ multiplier_add c d = Ok (Multiplier (Some 3%Z) (Some 4%Z))).
Proof.
  apply (multiplier_common_part (Multiplier (Some 3%Z) (Some 4%Z)) plus); reflexivity.
Defined.

Lemma multiplier_mul_assoc (a b c : multiplier) :
  multiplier_valid a -> multiplier_valid b -> multiplier_valid c ->
  (p ← multiplier_mul a b; multiplier_mul p c)
  = (q ← multiplier_mul b c; multiplier_mul a q).
Proof.
  intros Ha Hb Hc.
  apply multiplier_valid_cases in Ha as [->|[(a1 & ? & ->)|(a1 & a2 & ? & ->)]];
  apply multiplier_valid_cases in Hb as [->|[(b1 & ? & ->)|(b1 & b2 & ? & ->)]];
  apply multiplier_valid_cases in Hc as [->|[(c1 & ? & ->)|(c1 & c2 & ? & ->)]];
    unfold multiplier_mul, inf; cbn [mmin mmax].
  all: repeat (first [ rewrite multiplier_init_open by nia
                     | rewrite multiplier_init_finite by nia
                     | progress cbn [mmin mmax mbind result_bind]
                     | progress change (multiplier_init None None) with (Ok inf)
                     | progress unfold inf ]).
  all: try reflexivity.
  all: rewrite ?Z.mul_assoc; reflexivity.
Qed.

Lemma multiplier_mul_is_one (a b : multiplier) :
  multiplier_valid a -> multiplier_valid b ->
  multiplier_mul a b = Ok one -> a = one /\ b = one.
Proof.
  intros Ha Hb.
  apply multiplier_valid_cases in Ha as [->|[(a1 & ? & ->)|(a1 & a2 & ? & ->)]];
  apply multiplier_valid_cases in Hb as [->|[(b1 & ? & ->)|(b1 & b2 & ? & ->)]];
    unfold multiplier_mul, inf, one; cbn [mmin mmax];
    try (change (multiplier_init None None) with (Ok inf); discriminate);
    try (rewrite multiplier_init_open by nia; discriminate).
  rewrite multiplier_init_finite by nia. intros [= H1 H2].
  apply Z.eq_mul_1_nonneg in H1 as [-> ->]; [|lia].
  apply Z.eq_mul_1_nonneg in H2 as [-> ->]; [|lia].
  split; reflexivity.
Qed.

Lemma multiplier_one_mul (b : multiplier) :
  multiplier_valid b -> multiplier_mul one b = Ok b.
Proof.
  intros Hb. unfold multiplier_valid in Hb. unfold multiplier_mul, one. cbn [mmin mmax].
  destruct b as [[mn|] [mx|]]; cbn [mmin mmax] in *; rewrite ?Z.mul_1_l; exact Hb.
Qed.

Lemma lego_mul_one (x : lego) : lego_mul x one = Ok x.
Proof. destruct x; reflexivity. Qed.

(** X8. Multiplying a piece by two multipliers in turn is multiplying it
    by their product: [(x * a) * b = x * (a * b)], for a piece [x] of any
    of the four classes and multipliers [a] and [b] that the constructor
    accepts.  The shortcut of every [__mul__] for the multiplier [one]
    agrees with the general case. *)
Theorem lego_mul_assoc (x : lego) (a b : multiplier) :
  well_formed x = true -> multiplier_valid a -> multiplier_valid b ->
  (r ← lego_mul x a; lego_mul r b) = (p ← multiplier_mul a b; lego_mul x p).
Proof.
  intros Hwf Ha Hb.
  destruct (decide (a = one)) as [->|Hna].
  { rewrite lego_mul_one, (multiplier_one_mul b Hb). reflexivity. }
  destruct (decide (b = one)) as [->|Hnb].
  { rewrite (multiplier_mul_one a Ha). cbn [mbind result_bind].
    destruct (lego_mul x a) as [r|e]; cbn [mbind result_bind]; [apply lego_mul_one | reflexivity]. }
  destruct (multiplier_mul_valid a b Ha Hb) as (p & Hp & Hvp).
  assert (Hnp : p <> one).
  { intros ->. destruct (multiplier_mul_is_one a b Ha Hb Hp). contradiction. }
  rewrite Hp. cbn [mbind result_bind].
  destruct x as [c|y mu|ms|cs]; cbn [lego_mul].
  - unfold charclass_mul. rewrite !bool_decide_eq_false_2 by assumption.
    cbn [mult_init type_of mbind result_bind lego_mul]. unfold mult_mul.
    rewrite bool_decide_eq_false_2 by assumption. rewrite Hp. reflexivity.
  - cbn [well_formed] in Hwf. apply andb_true_iff in Hwf as [Hwf Hv].
    apply andb_true_iff in Hwf as [Hty _]. apply bool_decide_eq_true in Hv.
    unfold mult_mul. rewrite !bool_decide_eq_false_2 by assumption.
    pose proof (multiplier_mul_assoc mu a b Hv Ha Hb) as E. rewrite Hp in E.
    cbn [mbind result_bind] in E.
    destruct (multiplier_mul_valid mu a Hv Ha) as (q & Hq & Hvq).
    rewrite Hq in E |- *. cbn [mbind result_bind] in E |- *.
    assert (Hy : mult_init y q = Ok (LMult y q)).
    { unfold mult_init. unfold has_type in Hty.
      destruct (type_of y); try discriminate Hty; reflexivity. }
    rewrite Hy. cbn [mbind result_bind lego_mul]. unfold mult_mul.
    rewrite bool_decide_eq_false_2 by assumption. rewrite E. reflexivity.
  - unfold conc_mul. rewrite !bool_decide_eq_false_2 by assumption.
    rewrite pattern_init_concs by reflexivity. cbn [mbind result_bind].
    unfold pattern_mul. rewrite !bool_decide_eq_false_2 by assumption.
    cbn [mult_init type_of mbind result_bind lego_mul]. unfold mult_mul.
    rewrite bool_decide_eq_false_2 by assumption. rewrite Hp. reflexivity.
  - unfold pattern_mul. rewrite !bool_decide_eq_false_2 by assumption.
    cbn [mult_init type_of mbind result_bind lego_mul]. unfold mult_mul.
    rewrite bool_decide_eq_false_2 by assumption. rewrite Hp. reflexivity.
Qed.

Lemma lego_mul_assoc_witness :
  (r ← lego_mul (LConc [LMult (LCharclass (charclass_init "a" false)) plus]) qm;
   lego_mul r (Multiplier (Some 2%Z) (Some 3%Z)))
  = (p ← multiplier_mul qm (Multiplier (Some 2%Z) (Some 3%Z));
     lego_mul (LConc [LMult (LCharclass (charclass_init "a" false)) plus]) p).
Proof.
  apply (lego_mul_assoc (LConc [LMult (LCharclass (charclass_init "a" false)) plus]) qm
           (Multiplier (Some 2%Z) (Some 3%Z))); reflexivity.
Defined.

(** ** The common part of two mults, and of the concs of a pattern *)

Lemma multiplier_and_valid (a b : multiplier) :
  multiplier_valid a -> multiplier_valid b ->
  exists c, multiplier_and a b = Ok c /\ multiplier_valid c.
Proof.
  intros Ha Hb.
  apply multiplier_valid_cases in Ha as [->|[(a1 & ? & ->)|(a1 & a2 & ? & ->)]];
  apply multiplier_valid_cases in Hb as [->|[(b1 & ? & ->)|(b1 & b2 & ? & ->)]];
    unfold multiplier_and, inf, mandatory, optional; cbn [mmin mmax].
  all: first
    [ eexists; split; [reflexivity | reflexivity]
    | rewrite multiplier_init_open by lia;
      eexists; split; [reflexivity | apply multiplier_init_open; lia]
    | rewrite multiplier_init_finite by lia;
      eexists; split; [reflexivity | apply multiplier_init_finite; lia] ].
Qed.

Lemma mult_init_ok (x : lego) (mu : multiplier) :
  has_type KCharclass x || has_type KPattern x = true ->
  mult_init x mu = Ok (LMult x mu).
Proof.
  unfold mult_init, has_type. destruct (type_of x); try discriminate; reflexivity.
Qed.

Lemma mult_and_mult_cases (m1 m2 : lego) :
  has_type KMult m1 && well_formed m1 = true ->
  has_type KMult m2 && well_formed m2 = true ->
  mult_and_mult m1 m2 = Raise NoCommonMultiplicandException
  \/ exists m, mult_and_mult m1 m2 = Ok m /\ has_type KMult m && well_formed m = true.
Proof.
  intros H1 H2. apply andb_true_iff in H1 as [T1 W1], H2 as [T2 W2].
  destruct m1 as [|x a| |]; try discriminate T1.
  destruct m2 as [|y b| |]; try discriminate T2.
  cbn [well_formed] in W1, W2.
  apply andb_true_iff in W1 as [W1 Va], W2 as [W2 Vb].
  apply andb_true_iff in W1 as [Tx Wx]. apply bool_decide_eq_true in Va, Vb.
  cbn [mult_and_mult]. destruct (lego_eqb y x); cbn [negb]; [|left; reflexivity].
  destruct (multiplier_and_valid a b Va Vb) as (c & Hc & Vc).
  rewrite Hc. cbn [mbind result_bind]. rewrite (mult_init_ok x c Tx).
  right. eexists. split; [reflexivity|].
  cbn [has_type type_of well_formed]. rewrite Tx, Wx.
  rewrite (bool_decide_eq_true_2 _ Vc). reflexivity.
Qed.

Section CommonMult.
Variable pick : list lego -> option lego.
Variable err : exn.
Hypothesis pick_nil : pick [] = None.
Hypothesis pick_in : forall ms m, pick ms = Some m -> In m ms.

Lemma common_mult_fold (concs : list lego) :
  common_mult pick err concs = fold_left (common_step pick err) concs (Ok None).
Proof. reflexivity. Qed.

Lemma common_fold_raise (concs : list lego) (e : exn) :
  fold_left (common_step pick err) concs (Raise e) = Raise e.
Proof. induction concs as [|c concs IH]; [reflexivity | exact IH]. Qed.

Lemma common_step_cases (acc : option lego) (c : lego) :
  common_ok acc -> has_type KConc c && well_formed c = true ->
  (common_step pick err) (Ok acc) c = Raise err
  \/ exists m, (common_step pick err) (Ok acc) c = Ok (Some m) /\ common_ok (Some m)
               /\ c <> LConc [].
Proof.
  intros Hacc Hc. apply andb_true_iff in Hc as [Tc Wc].
  destruct c as [|?|ms|]; try discriminate Tc.
  unfold common_step. cbn [mbind result_bind mults_of].
  destruct (pick ms) as [m0|] eqn:Hp; [|left; reflexivity].
  assert (Hm0 : has_type KMult m0 && well_formed m0 = true).
  { cbn [well_formed] in Wc. rewrite forallb_forall in Wc. apply Wc, pick_in, Hp. }
  assert (Hne : LConc ms <> LConc []).
  { intros [= ->]. rewrite pick_nil in Hp. discriminate. }
  assert (Hfin : forall cm, has_type KMult cm && well_formed cm = true ->
            (mu ← multiplier_of cm;
             if bool_decide (mu = zero) then Raise err else Ok (Some cm)) = Raise err
            \/ exists m, (mu ← multiplier_of cm;
                          if bool_decide (mu = zero) then Raise err else Ok (Some cm))
                         = Ok (Some m) /\ common_ok (Some m) /\ LConc ms <> LConc []).
  { intros cm Hcm. pose proof Hcm as Hcm'. apply andb_true_iff in Hcm' as [Tm _].
    destruct cm as [|x mu| |]; try discriminate Tm. cbn [multiplier_of mbind result_bind].
    destruct (bool_decide (mu = zero)); [left; reflexivity|].
    right. eexists. split; [reflexivity|]. split; [exact Hcm | exact Hne]. }
  destruct acc as [cm0|]; cbn [mbind result_bind].
  - destruct (mult_and_mult_cases cm0 m0 Hacc Hm0) as [E|(m & E & Hm)]; rewrite E;
      cbn [try_except].
    + destruct (decide (NoCommonMultiplicandException = NoCommonMultiplicandException));
        [left; reflexivity | contradiction].
    + cbn [mbind result_bind]. apply Hfin, Hm.
  - apply Hfin, Hm0.
Qed.

Lemma common_fold_cases (concs : list lego) (acc : option lego) :
  common_ok acc ->
  forallb (fun c => has_type KConc c && well_formed c) concs = true ->
  (fold_left (common_step pick err) concs (Ok acc) = Raise err
   \/ exists r, fold_left (common_step pick err) concs (Ok acc) = Ok r /\ common_ok r
                /\ ~ In (LConc []) concs /\ (concs <> [] -> r <> None)).
Proof.
  revert acc. induction concs as [|c concs IH]; intros acc Hacc Hwf.
  - right. exists acc. cbn [fold_left In]. repeat split; [exact Hacc | tauto | congruence].
  - cbn [forallb] in Hwf. apply andb_true_iff in Hwf as [Hc Hwf]. cbn [fold_left].
    destruct (common_step_cases acc c Hacc Hc) as [E|(m & E & Hm & Hne)]; rewrite E.
    + left. apply common_fold_raise.
    + destruct (IH (Some m) Hm Hwf) as [E'|(r & E' & Hr & Hnin & Hnn)]; [left; exact E'|].
      right. exists r. split; [exact E'|]. split; [exact Hr|]. split.
      * cbn [In]. intros [H|H]; [congruence | contradiction].
      * intros _. destruct concs as [|c' concs']; [|apply Hnn; discriminate].
        cbn [fold_left] in E'. injection E' as <-. discriminate.
Qed.
End CommonMult.

Lemma head_in (ms : list lego) (m : lego) : head ms = Some m -> In m ms.
Proof. destruct ms; [discriminate|]. intros [= ->]. left. reflexivity. Qed.

Lemma list_last_in (ms : list lego) (m : lego) : list_last ms = Some m -> In m ms.
Proof.
  unfold list_last. induction ms as [|x ms IH]; [discriminate|].
  destruct ms as [|y ms]; cbn [fmap list_fmap List.last] in *.
  - intros [= ->]. left. reflexivity.
  - intros H. right. apply IH, H.
Qed.

(** X9. A pattern without concs, and a well-formed pattern one of whose
    concs is empty, have no common first or last mult: [_multprefix]
    raises [NoMultPrefixException] and [_multsuffix] raises
    [NoMultSuffixException], in whatever order the concs are visited; so
    [_concprefix] returns the empty conc and the pattern itself, and
    [_concsuffix] the pattern itself and the empty conc. *)
Theorem no_common_mult_with_empty_conc (cs : list lego) (fuel : nat) :
  well_formed (LPattern cs) = true ->
  cs = [] \/ In (LConc []) cs ->
  pattern_multprefix (LPattern cs) = Raise NoMultPrefixException
  /\ pattern_multsuffix (LPattern cs) = Raise NoMultSuffixException
  /\ pattern_concprefix (S fuel) (LPattern cs) = Ok (emptystring, LPattern cs)
  /\ pattern_concsuffix (S fuel) (LPattern cs) = Ok (LPattern cs, emptystring).
Proof.
  intros Hwf Hcs. cbn [well_formed] in Hwf. apply andb_true_iff in Hwf as [Hwf _].
  assert (Hp : pattern_multprefix (LPattern cs) = Raise NoMultPrefixException).
  { unfold pattern_multprefix. cbn [concs_of mbind result_bind].
    rewrite common_mult_fold.
    destruct (common_fold_cases head NoMultPrefixException eq_refl head_in cs None I Hwf)
      as [E|(r & E & _ & Hnin & Hnn)]; rewrite E; [reflexivity|].
    cbn [mbind result_bind]. destruct Hcs as [->|Hin]; [|contradiction].
    cbn [fold_left] in E. injection E as <-. reflexivity. }
  assert (Hs : pattern_multsuffix (LPattern cs) = Raise NoMultSuffixException).
  { unfold pattern_multsuffix. cbn [concs_of mbind result_bind].
    rewrite common_mult_fold.
    destruct (common_fold_cases list_last NoMultSuffixException eq_refl list_last_in
                cs None I Hwf) as [E|(r & E & _ & Hnin & Hnn)]; rewrite E; [reflexivity|].
    cbn [mbind result_bind]. destruct Hcs as [->|Hin]; [|contradiction].
    cbn [fold_left] in E. injection E as <-. reflexivity. }
  split; [exact Hp|]. split; [exact Hs|]. split.
  - unfold pattern_concprefix. cbn [concprefix_loop]. rewrite Hp. reflexivity.
  - unfold pattern_concsuffix. cbn [concsuffix_loop]. rewrite Hs. reflexivity.
Qed.

Lemma no_common_mult_with_empty_conc_witness :
  let ab := LConc [LMult (LCharclass (charclass_init "a" false)) one;
                   LMult (LCharclass (charclass_init "b" false)) one] in
  pattern_multprefix (LPattern [ab; LConc []]) = Raise NoMultPrefixException
  /\ pattern_multsuffix (LPattern [ab; LConc []]) = Raise NoMultSuffixException
  /\ pattern_concprefix 1 (LPattern [ab; LConc []])
     = Ok (emptystring, LPattern [ab; LConc []])
  /\ pattern_concsuffix 1 (LPattern [ab; LConc []])
     = Ok (LPattern [ab; LConc []], emptystring).
Proof.
  intros ab.
  apply (no_common_mult_with_empty_conc [ab; LConc []] 0);
    first [right; right; left; reflexivity | vm_compute; reflexivity].
Defined.

(** X10. The common part of two well-formed mults and the difference of two
    mults raise [NoCommonMultiplicandException] when the multiplicands
    differ.  When the multiplicands are equal and the multiplier of the
    first mult has a finite minimum, the common part is a mult of the same
    multiplicand, it can be subtracted from the first mult, and the
    multipliers of the common part and of the difference add up to the
    multiplier of the first mult. *)
Theorem mult_common_part (x y : lego) (a b : multiplier) :
  well_formed (LMult x a) = true -> well_formed (LMult y b) = true ->
  (lego_eqb y x = false ->
   mult_and_mult (LMult x a) (LMult y b) = Raise NoCommonMultiplicandException
   /\ mult_sub (LMult x a) (LMult y b) = Raise NoCommonMultiplicandException)
  /\ (lego_eqb y x = true -> mmin a <> None ->
      exists c d, mult_and_mult (LMult x a) (LMult y b) = Ok (LMult x c)
                  /\ mult_sub (LMult x a) (LMult x c) = Ok (LMult x d)
                  /\ multiplier_add c d = Ok a).
Proof.
  intros W1 W2. cbn [well_formed] in W1, W2.
  apply andb_true_iff in W1 as [W1 Va], W2 as [W2 Vb].
  apply andb_true_iff in W1 as [Tx Wx]. apply bool_decide_eq_true in Va, Vb.
  split.
  - intros E. cbn [mult_and_mult mult_sub]. rewrite E. split; reflexivity.
  - intros E Hm.
    destruct (multiplier_common_remainder a b Va Vb Hm) as (c & d & Hc & Hd & Hadd).
    exists c, d. cbn [mult_and_mult mult_sub]. rewrite E, lego_eqb_refl. cbn [negb].
    rewrite Hc, Hd. cbn [mbind result_bind]. rewrite !(mult_init_ok x _ Tx).
    split; [reflexivity|]. split; [reflexivity | exact Hadd].
Qed.

Lemma mult_common_part_witness :
  let x := LCharclass (charclass_init "a" false) in
  exists c d, mult_and_mult (LMult x (Multiplier (Some 4%Z) (Some 5%Z)))
                (LMult x (Multiplier (Some 3%Z) None)) = Ok (LMult x c)
              /\ mult_sub (LMult x (Multiplier (Some 4%Z) (Some 5%Z))) (LMult x c)
                 = Ok (LMult x d)
              /\ multiplier_add c d = Ok (Multiplier (Some 4%Z) (Some 5%Z)).
Proof.
  intros x.
  apply (proj2 (mult_common_part x x (Multiplier (Some 4%Z) (Some 5%Z))
                  (Multiplier (Some 3%Z) None) eq_refl eq_refl));
    [vm_compute; reflexivity | discriminate].
Defined.

(** ** Equality and hashes of pieces *)

(** X11. [==] on pieces is an equivalence relation: reflexive, symmetric and
    transitive, for character classes, mults, concs (compared as tuples)
    and patterns (compared as sets). *)
Theorem lego_eq_equivalence (a b c : lego) :
  lego_eqb a a = true
  /\ (lego_eqb a b = true -> lego_eqb b a = true)
  /\ (lego_eqb a b = true -> lego_eqb b c = true -> lego_eqb a c = true).
Proof.
  split; [apply lego_eqb_refl|]. split; [apply lego_eqb_sym | apply lego_eqb_trans].
Qed.

Lemma lego_eq_equivalence_witness :
  let a := LConc [LMult (LCharclass (charclass_init "a" false)) one] in
  let b := LConc [LMult (LCharclass (charclass_init "b" false)) one] in
  lego_eqb (LPattern [a; b]) (LPattern [b; a]) = true
  /\ lego_eqb (LPattern [b; a]) (LPattern [a; b; a]) = true
  /\ lego_eqb (LPattern [a; b]) (LPattern [a; b; a]) = true.
Proof.
  intros a b.
  assert (H1 : lego_eqb (LPattern [a; b]) (LPattern [b; a]) = true)
    by (vm_compute; reflexivity).
  assert (H2 : lego_eqb (LPattern [b; a]) (LPattern [a; b; a]) = true)
    by (vm_compute; reflexivity).
  split; [exact H1|]. split; [exact H2|].
  exact (proj2 (proj2 (lego_eq_equivalence (LPattern [a; b]) (LPattern [b; a])
                         (LPattern [a; b; a]))) H1 H2).
Defined.

Section HashContract.
Variable H : Type.
Variable hash_chars : gset ascii -> H.
Variable hash_bool : bool -> H.
Variable hash_int : option Z -> H.
Variable tuple_seed : H.
Variable tuple_step : H -> H -> H.
Variable set_unit : H.
Variable set_op : H -> H -> H.
Variable set_finish : nat -> H -> H.
Hypothesis set_op_comm : forall a b, set_op a b = set_op b a.
Hypothesis set_op_assoc : forall a b c, set_op a (set_op b c) = set_op (set_op a b) c.

(** X12. Pieces that are equal ([==]) have the same hash, at every class:
    the hash of a pattern combines the hashes of its concs in a way that
    does not depend on their order, the other hashes are those of the
    tuples of the attributes that [==] compares. *)
Theorem equal_pieces_hash_equal (a b : lego) :
  well_formed a = true -> well_formed b = true -> lego_eqb a b = true ->
  lego_hash H hash_chars hash_bool hash_int tuple_seed tuple_step
    set_unit set_op set_finish a
  = lego_hash H hash_chars hash_bool hash_int tuple_seed tuple_step
      set_unit set_op set_finish b.
Proof.
  apply (lego_hash_eqb H hash_chars hash_bool hash_int tuple_seed tuple_step
           set_unit set_op set_finish set_op_comm set_op_assoc).
Qed.
End HashContract.

Lemma equal_pieces_hash_equal_witness :
  let a := LConc [LMult (LCharclass (charclass_init "a" false)) one] in
  let b := LConc [LMult (LCharclass (charclass_init "b" false)) one] in
  let x := LMult (LPattern [a; b]) star in
  let y := LMult (LPattern [b; a]) star in
  lego_eqb x y = true
  /\ lego_hash Z (fun s => Z.of_nat (size s)) (fun b => if b then 1%Z else 0%Z)
       (fun o => default (-1)%Z o) 7%Z (fun h x => (31 * h + x)%Z)
       0%Z Z.add (fun n h => (h + Z.of_nat n)%Z) x
     = lego_hash Z (fun s => Z.of_nat (size s)) (fun b => if b then 1%Z else 0%Z)
         (fun o => default (-1)%Z o) 7%Z (fun h x => (31 * h + x)%Z)
         0%Z Z.add (fun n h => (h + Z.of_nat n)%Z) y.
Proof.
  intros a b x y.
  assert (E : lego_eqb x y = true) by (vm_compute; reflexivity).
  split; [exact E|].
  apply (equal_pieces_hash_equal Z (fun s => Z.of_nat (size s))
           (fun b => if b then 1%Z else 0%Z) (fun o => default (-1)%Z o)
           7%Z (fun h x => (31 * h + x)%Z) 0%Z Z.add
           (fun n h => (h + Z.of_nat n)%Z) Z.add_comm Z.add_assoc x y);
    [vm_compute; reflexivity | vm_compute; reflexivity | exact E].
Defined.

(** ** Reading back what is rendered *)

(** X13. A character class that [regex()] can render is read back by
    [charclass.match] from its text, at any position of any text that
    holds it: the class returned is the class rendered, and the position
    returned is the end of its text. *)
Theorem charclass_regex_match (c : charclass) (s pre tail : string) :
  charclass_regex c = Ok s ->
  charclass_match (pre +:+ s +:+ tail) (String.length pre)
  = Ok (c, String.length pre + String.length s).
Proof.
  intros Hs. rewrite <- (Nat.add_0_r (String.length pre)) at 1.
  rewrite charclass_match_shift, (charclass_roundtrip c s tail Hs). reflexivity.
Qed.

Lemma charclass_regex_match_witness :
  charclass_regex (charclass_init "abcd-" true) = Ok "[^\-a-d]"
  /\ charclass_match ("x" +:+ "[^\-a-d]" +:+ "*y") (String.length "x")
     = Ok (charclass_init "abcd-" true, String.length "x" + String.length "[^\-a-d]").
Proof.
  assert (H : charclass_regex (charclass_init "abcd-" true) = Ok "[^\-a-d]")
    by (vm_compute; reflexivity).
  split; [exact H|]. exact (charclass_regex_match _ _ "x" "*y" H).
Defined.

(** The texts in braces, followed by any text. *)
Lemma braces_roundtrip (mn : Z) (mx : option Z) (suffix tail : string) :
  multiplier_init (Some mn) mx = Ok (Multiplier (Some mn) mx) ->
  match mx with
  | Some mx =>
      if (mn =? mx)%Z then Ok ("{" +:+ str_of_Z mn +:+ "}")
      else Ok ("{" +:+ str_of_Z mn +:+ "," +:+ str_of_Z mx +:+ "}")
  | None => Ok ("{" +:+ str_of_Z mn +:+ ",}")
  end = Ok suffix ->
  multiplier_match (suffix +:+ tail) 0
  = Ok (Multiplier (Some mn) mx, String.length suffix).
Proof.
  intros Hv. pose proof (multiplier_init_min _ _ _ Hv) as Hmn.
  intros Hr.
  remember (suffix +:+ tail) as T eqn:HT.
  unfold multiplier_match.
  destruct mx as [mx|].
  - assert (Hmx : (0 <= mx)%Z /\ (mn <= mx)%Z).
    { unfold multiplier_init in Hv. destruct (Z.ltb_spec mn 0); [discriminate|].
      destruct (Z.ltb_spec mx mn); [discriminate | lia]. }
    destruct (Z.eqb_spec mn mx) as [<-|Hne]; injection Hr as <-.
    + open_brace T (str_of_Z mn +:+ "}" +:+ tail).
      cbn [mbind result_bind].
      rewrite (at_integer T "{" mn ("}" +:+ tail)) by (try at_eq; first [lia | reflexivity]).
      cbn [mbind result_bind].
      rewrite (at_static_fail T ("{" +:+ str_of_Z mn) "," ("}" +:+ tail))
        by (try at_eq; reflexivity).
      caught.
      rewrite (at_static_fail T ("{" +:+ str_of_Z mn) ",}" ("}" +:+ tail))
        by (try at_eq; reflexivity).
      caught.
      rewrite (at_static T ("{" +:+ str_of_Z mn) "}" tail) by at_eq.
      cbn [mbind result_bind]. rewrite Hv. cbn [mbind result_bind try_except].
      rewrite !str_length_app. f_equal; f_equal; lia.
    + open_brace T (str_of_Z mn +:+ "," +:+ str_of_Z mx +:+ "}" +:+ tail).
      cbn [mbind result_bind].
      rewrite (at_integer T "{" mn ("," +:+ str_of_Z mx +:+ "}" +:+ tail))
        by (try at_eq; first [lia | reflexivity]).
      cbn [mbind result_bind].
      rewrite (at_static T ("{" +:+ str_of_Z mn) "," (str_of_Z mx +:+ "}" +:+ tail)) by at_eq.
      cbn [mbind result_bind].
      rewrite (at_integer T (("{" +:+ str_of_Z mn) +:+ ",") mx ("}" +:+ tail))
        by (try at_eq; first [lia | reflexivity]).
      cbn [mbind result_bind].
      rewrite (at_static T ((("{" +:+ str_of_Z mn) +:+ ",") +:+ str_of_Z mx) "}" tail)
        by at_eq.
      cbn [mbind result_bind]. rewrite Hv. cbn [mbind result_bind try_except].
      rewrite !str_length_app. f_equal; f_equal; lia.
  - injection Hr as <-.
    open_brace T (str_of_Z mn +:+ ",}" +:+ tail).
    cbn [mbind result_bind].
    rewrite (at_integer T "{" mn (",}" +:+ tail)) by (try at_eq; first [lia | reflexivity]).
    cbn [mbind result_bind].
    rewrite (at_static T ("{" +:+ str_of_Z mn) "," ("}" +:+ tail)) by at_eq.
    cbn [mbind result_bind].
    rewrite (at_integer_fail T (("{" +:+ str_of_Z mn) +:+ ",") ("}" +:+ tail))
      by (try at_eq; reflexivity).
    caught.
    rewrite (at_static T ("{" +:+ str_of_Z mn) ",}" tail) by at_eq.
    cbn [mbind result_bind]. rewrite Hv. cbn [mbind result_bind try_except].
    rewrite !str_length_app. f_equal; f_equal; lia.
Qed.

Lemma symbol_roundtrip (mu : multiplier) (s tail : string) :
  symbolic_get mu = Some s -> mu <> one ->
  multiplier_match (s +:+ tail) 0 = Ok (mu, String.length s).
Proof.
  unfold symbolic_get, symbolic. cbn [List.find fst snd].
  repeat match goal with
         | |- context [bool_decide (mu = ?k)] =>
             destruct (bool_decide_reflect (mu = k)) as [->|_]
         end; intros [= <-] Hne; try contradiction;
    destruct tail as [|x X]; reflexivity.
Qed.

(** X14. A multiplier that [regex()] can render is read back by
    [multiplier.match] from its text, at any position; for the multiplier
    [one], whose text is empty, the text that follows must not begin with
    one of the characters [{], [?], [*], [+]. *)
Theorem multiplier_regex_match (mu : multiplier) (s pre tail : string) :
  multiplier_valid mu -> multiplier_regex mu = Ok s ->
  (mu = one -> starts_without "{?*+" tail = true) ->
  multiplier_match (pre +:+ s +:+ tail) (String.length pre)
  = Ok (mu, String.length pre + String.length s).
Proof.
  intros Hv Hs Ht. rewrite <- (Nat.add_0_r (String.length pre)) at 1.
  rewrite multiplier_match_shift.
  assert (E : multiplier_match (s +:+ tail) 0 = Ok (mu, String.length s));
    [|rewrite E; reflexivity].
  destruct (decide (mu = one)) as [->|Hne].
  { apply (multiplier_roundtrip one s tail Hv Hs (Ht eq_refl)). }
  unfold multiplier_regex in Hs. unfold multiplier_valid in Hv.
  destruct mu as [[mn|] mx]; cbn [mmin mmax] in *; [|discriminate].
  destruct (bool_decide (mx = Some 0%Z)); [discriminate|].
  destruct (symbolic_get (Multiplier (Some mn) mx)) as [str|] eqn:Hsym.
  - injection Hs as ->. apply symbol_roundtrip; assumption.
  - apply braces_roundtrip; assumption.
Qed.

Lemma multiplier_regex_match_witness :
  multiplier_regex (Multiplier (Some 2%Z) (Some 13%Z)) = Ok "{2,13}"
  /\ multiplier_match ("a" +:+ "{2,13}" +:+ "?b") (String.length "a")
     = Ok (Multiplier (Some 2%Z) (Some 13%Z), String.length "a" + String.length "{2,13}").
Proof.
  assert (H : multiplier_regex (Multiplier (Some 2%Z) (Some 13%Z)) = Ok "{2,13}")
    by (vm_compute; reflexivity).
  split; [exact H|].
  apply (multiplier_regex_match (Multiplier (Some 2%Z) (Some 13%Z)) "{2,13}" "a" "?b");
    [reflexivity | exact H | discriminate].
Defined.

(** X15. The decimal text of an integer that is not negative is read back
    by [matchInteger], at any position, when the text that follows does
    not begin with a digit. *)
Theorem matchInteger_reads_str (n : Z) (pre tail : string) :
  (0 <= n)%Z -> starts_without "0123456789" tail = true ->
  matchInteger (pre +:+ str_of_Z n +:+ tail) (String.length pre)
  = Ok (n, String.length pre + String.length (str_of_Z n)).
Proof.
  intros Hn Ht. rewrite <- (Nat.add_0_r (String.length pre)) at 1.
  rewrite matchInteger_shift, (matchInteger_roundtrip n tail Hn Ht). reflexivity.
Qed.

Lemma matchInteger_reads_str_witness :
  matchInteger ("{" +:+ str_of_Z 1203 +:+ ",}") (String.length "{")
  = Ok (1203%Z, String.length "{" + String.length (str_of_Z 1203)).
Proof.
  apply (matchInteger_reads_str 1203 "{" ",}"); [lia | reflexivity].
Defined.

(** X16. What [charclass.escape] writes for the inside of a pair of brackets
    is read back by [matchRangeInterior]: up to the closing bracket, and
    to the characters of the class in increasing order, so that the class
    built from them has the same characters. *)
Theorem escape_read_back (c : charclass) (pre rest : string) :
  matchRangeInterior (pre +:+ charclass_escape c +:+ String "]" rest) (String.length pre)
  = Ok (string_of_list_ascii (sorted_chars c),
        String.length pre + String.length (charclass_escape c))
  /\ chars (charclass_init (string_of_list_ascii (sorted_chars c)) (negated c)) = chars c.
Proof.
  split.
  - rewrite <- (Nat.add_0_r (String.length pre)) at 1.
    rewrite matchRangeInterior_shift, charclass_escape_list, interior_roundtrip.
    reflexivity.
  - unfold charclass_init. cbn [chars]. apply sorted_chars_set.
Qed.

(** ** A pattern is a set: the order of its concs *)

Lemma string_compare_le_trans (a b c : string) :
  String.compare a b <> Gt -> String.compare b c <> Gt -> String.compare a c <> Gt.
Proof.
  revert b c. induction a as [|x a IH]; intros [|y b] [|z c];
    cbn [String.compare]; try congruence.
  unfold Ascii.compare.
  destruct (N.compare_spec (N_of_ascii x) (N_of_ascii y)) as [Exy|Lxy|Gxy];
    destruct (N.compare_spec (N_of_ascii y) (N_of_ascii z)) as [Eyz|Lyz|Gyz];
    try congruence.
  - rewrite Exy, Eyz, N.compare_refl. apply IH.
  - intros _ _. rewrite (proj2 (N.compare_lt_iff _ _)) by lia. discriminate.
  - intros _ _. rewrite (proj2 (N.compare_lt_iff _ _)) by lia. discriminate.
  - intros _ _. rewrite (proj2 (N.compare_lt_iff _ _)) by lia. discriminate.
Qed.

Lemma string_leb_trans (a b c : string) :
  String.leb a b = true -> String.leb b c = true -> String.leb a c = true.
Proof.
  unfold String.leb. intros H1 H2.
  assert (H : String.compare a c <> Gt).
  { apply (string_compare_le_trans a b c).
    - destruct (String.compare a b); congruence.
    - destruct (String.compare b c); congruence. }
  destruct (String.compare a c); congruence.
Qed.

Lemma string_leb_false (a b : string) :
  String.leb a b = false -> String.leb b a = true.
Proof. intros H. destruct (String.leb_total a b) as [E|E]; congruence. Qed.

Lemma insert_sorted_comm (x y : string) (l : list string) :
  insert_sorted String.leb x (insert_sorted String.leb y l)
  = insert_sorted String.leb y (insert_sorted String.leb x l).
Proof.
  induction l as [|z l IH].
  - cbn [insert_sorted].
    destruct (String.leb x y) eqn:Exy, (String.leb y x) eqn:Eyx; try reflexivity.
    + rewrite (String.leb_antisym x y Exy Eyx). reflexivity.
    + apply string_leb_false in Exy. congruence.
  - cbn [insert_sorted].
    destruct (String.leb y z) eqn:Eyz, (String.leb x z) eqn:Exz; cbn [insert_sorted].
    + destruct (String.leb x y) eqn:Exy, (String.leb y x) eqn:Eyx;
        rewrite ?Exz, ?Eyz; try reflexivity.
      * rewrite (String.leb_antisym x y Exy Eyx). reflexivity.
      * apply string_leb_false in Exy. congruence.
    + assert (Exy : String.leb x y = false).
      { destruct (String.leb x y) eqn:E; [|reflexivity].
        rewrite (string_leb_trans x y z E Eyz) in Exz. discriminate. }
      rewrite Exy, Exz, Eyz. reflexivity.
    + assert (Eyx : String.leb y x = false).
      { destruct (String.leb y x) eqn:E; [|reflexivity].
        rewrite (string_leb_trans y x z E Exz) in Eyz. discriminate. }
      rewrite Eyx, Exz, Eyz. reflexivity.
    + rewrite Exz, Eyz, IH. reflexivity.
Qed.

Lemma sorted_strings_perm (l l' : list string) :
  Permutation l l' -> sorted String.leb l = sorted String.leb l'.
Proof.
  unfold sorted. induction 1 as [|x l l' _ IH|x y l|l l' l'' _ IH1 _ IH2]; cbn [foldr].
  - reflexivity.
  - now rewrite IH.
  - apply insert_sorted_comm.
  - now rewrite IH1.
Qed.

Lemma lego_regex_raises (t : lego) (e : exn) :
  lego_regex t = Raise e -> e = NoRegexException.
Proof.
  revert e. induction t as [c|x mu IH|ms IH|cs IH] using lego_nested_ind; intros e;
    cbn [lego_regex].
  - destruct (charclass_regex_cases c) as [[_ H]|[_ [s H]]]; rewrite H; congruence.
  - intros H. apply bind_raise in H as [H|(output & _ & H)].
    + destruct (has_type KPattern x); [|apply IH, H].
      apply bind_raise in H as [H|(r & _ & H)]; [apply IH, H | discriminate].
    + apply bind_raise in H as [H|(suffix & _ & H)].
      * destruct (multiplier_regex_cases mu) as [[_ Hm]|[_ [s Hm]]]; rewrite Hm in H;
          congruence.
      * destruct (mmin mu); [destruct (_ && _)|]; discriminate.
  - intros H. apply bind_raise in H as [H|(rs & _ & H)]; [|discriminate].
    apply map_result_raise in H. apply List.Exists_exists in H as (m & Hm & H).
    rewrite List.Forall_forall in IH. apply (IH m Hm), H.
  - destruct (length cs <? 1)%nat; [congruence|].
    intros H. apply bind_raise in H as [H|(rs & _ & H)]; [|discriminate].
    apply map_result_raise in H. apply List.Exists_exists in H as (c & Hc & H).
    rewrite List.Forall_forall in IH. apply (IH c Hc), H.
Qed.

Lemma map_regex_perm (l l' : list lego) :
  Permutation l l' ->
  match map_result lego_regex l, map_result lego_regex l' with
  | Ok rs, Ok rs' => Permutation rs rs'
  | Raise e, Raise e' => e = e'
  | _, _ => False
  end.
Proof.
  assert (Hcons : forall x l, 
            map_result lego_regex (x :: l)
            = (y ← lego_regex x; ys ← map_result lego_regex l; Ok (y :: ys)))
    by reflexivity.
  induction 1 as [|x l l' _ IH|x y l|l l' l'' _ IH1 _ IH2].
  - constructor.
  - rewrite !Hcons. destruct (lego_regex x) as [r|e]; cbn [mbind result_bind]; [|reflexivity].
    destruct (map_result lego_regex l) as [rs|e], (map_result lego_regex l') as [rs'|e'];
      cbn [mbind result_bind]; try assumption. constructor. exact IH.
  - rewrite !Hcons.
    destruct (lego_regex x) as [rx|ex] eqn:Ex, (lego_regex y) as [ry|ey] eqn:Ey;
      cbn [mbind result_bind].
    + destruct (map_result lego_regex l) as [rs|e]; cbn [mbind result_bind];
        [apply perm_swap | reflexivity].
    + reflexivity.
    + reflexivity.
    + rewrite (lego_regex_raises _ _ Ex), (lego_regex_raises _ _ Ey). reflexivity.
  - destruct (map_result lego_regex l) as [rs|e], (map_result lego_regex l') as [rs'|e'],
      (map_result lego_regex l'') as [rs''|e'']; try contradiction; try congruence.
    etransitivity; eassumption.
Qed.

(** X17. The text that [pattern.regex] writes does not depend on the order
    in which the concs of the pattern are visited: the texts of the concs
    are sorted before they are joined, and a failure to render one of
    them is the same failure in any order. *)
Theorem pattern_regex_any_order (l l' : list lego) :
  Permutation l l' -> lego_regex (LPattern l) = lego_regex (LPattern l').
Proof.
  intros HP. cbn [lego_regex]. rewrite (Permutation_length HP).
  destruct (length l' <? 1)%nat; [reflexivity|].
  pose proof (map_regex_perm l l' HP) as H.
  destruct (map_result lego_regex l) as [rs|e], (map_result lego_regex l') as [rs'|e'];
    try contradiction; cbn [mbind result_bind].
  - rewrite (sorted_strings_perm rs rs' H). reflexivity.
  - rewrite H. reflexivity.
Qed.

Lemma pattern_regex_any_order_witness :
  let a := LConc [LMult (LCharclass (charclass_init "a" false)) one] in
  let b := LConc [LMult (LCharclass (charclass_init "b" false)) star] in
  lego_regex (LPattern [b; a]) = lego_regex (LPattern [a; b])
  /\ lego_regex (LPattern [a; b]) = Ok "a|b*".
Proof.
  intros a b. split.
  - apply (pattern_regex_any_order [b; a] [a; b]). apply perm_swap.
  - vm_compute. reflexivity.
Defined.

Lemma alphabet_mults (mults : list lego) (alphabet : gset ascii) :
  fold_left
    (fun alphabet m =>
       match m with
       | LMult (LCharclass c) _ => alphabet ∪ chars c
       | LMult p _ => alphabet ∪ lego_alphabet p
       | _ => alphabet
       end) mults alphabet
  = alphabet ∪ ⋃ (mult_symbols <$> mults).
Proof.
  revert alphabet. induction mults as [|m mults IH]; intros alphabet; cbn [fold_left fmap list_fmap union_list foldr].
  - apply set_eq. intros x. rewrite elem_of_union, elem_of_empty. tauto.
  - rewrite IH. apply set_eq. intros x.
    destruct m as [c|[c|y nu|ms|cs] mu|ms|cs]; cbn [mult_symbols];
      rewrite ?elem_of_union, ?elem_of_empty; tauto.
Qed.

Lemma alphabet_concs (cs : list lego) (alphabet : gset ascii) :
  fold_left
    (fun alphabet c =>
       match c with
       | LConc mults =>
           fold_left
             (fun alphabet m =>
                match m with
                | LMult (LCharclass c) _ => alphabet ∪ chars c
                | LMult p _ => alphabet ∪ lego_alphabet p
                | _ => alphabet
                end) mults alphabet
       | _ => alphabet
       end) cs alphabet
  = alphabet ∪ ⋃ (conc_symbols <$> cs).
Proof.
  revert alphabet. induction cs as [|c cs IH]; intros alphabet;
    cbn [fold_left fmap list_fmap union_list foldr].
  - apply set_eq. intros x. rewrite elem_of_union, elem_of_empty. tauto.
  - rewrite IH. destruct c as [c0|y mu|ms|cs0]; cbn [conc_symbols];
      rewrite ?alphabet_mults; apply set_eq; intros x;
      rewrite ?elem_of_union, ?elem_of_empty; tauto.
Qed.

Lemma lego_alphabet_union (cs : list lego) :
  lego_alphabet (LPattern cs) = ⋃ (conc_symbols <$> cs).
Proof.
  cbn [lego_alphabet]. rewrite alphabet_concs.
  apply set_eq. intros x. rewrite elem_of_union, elem_of_empty. tauto.
Qed.

(** X18. A symbol is in [pattern.alphabet()] exactly when it is listed in
    the character class of a mult of one of the concs, or is in the
    alphabet of the subpattern of such a mult.  So the alphabet does not
    depend on the order in which the concs are visited, and the alphabet
    of the concs of two patterns taken together is the union of the two
    alphabets. *)
Theorem pattern_alphabet_spec (l l' : list lego) (x : ascii) :
  (x ∈ lego_alphabet (LPattern l)
   <-> exists c m mu ms, In c l /\ c = LConc ms /\ In (LMult m mu) ms
                         /\ x ∈ mult_symbols (LMult m mu))
  /\ (Permutation l l' -> lego_alphabet (LPattern l) = lego_alphabet (LPattern l'))
  /\ lego_alphabet (LPattern (l ++ l'))
     = lego_alphabet (LPattern l) ∪ lego_alphabet (LPattern l').
Proof.
  split; [|split].
  - rewrite lego_alphabet_union, elem_of_union_list. split.
    + intros (X & HX & Hx). apply list_elem_of_fmap in HX as (c & -> & Hc).
      apply list_elem_of_In in Hc.
      destruct c as [c0|y mu|ms|cs0]; cbn [conc_symbols] in Hx;
        try (apply elem_of_empty in Hx; contradiction).
      apply elem_of_union_list in Hx as (Y & HY & Hx).
      apply list_elem_of_fmap in HY as (m & -> & Hm). apply list_elem_of_In in Hm.
      destruct m as [c0|y mu|ms0|cs0]; cbn [mult_symbols] in Hx;
        try (apply elem_of_empty in Hx; contradiction).
      exists (LConc ms), y, mu, ms. repeat split; assumption.
    + intros (c & m & mu & ms & Hc & -> & Hm & Hx).
      exists (conc_symbols (LConc ms)). split.
      * apply list_elem_of_fmap. exists (LConc ms). split; [reflexivity|].
        apply list_elem_of_In, Hc.
      * cbn [conc_symbols]. apply elem_of_union_list.
        exists (mult_symbols (LMult m mu)). split; [|exact Hx].
        apply list_elem_of_fmap. exists (LMult m mu). split; [reflexivity|].
        apply list_elem_of_In, Hm.
  - intros HP. rewrite !lego_alphabet_union.
    apply union_list_permutation_proper_L; [apply _ .. |].
    apply fmap_Permutation, HP.
  - rewrite !lego_alphabet_union, fmap_app, union_list_app_L. reflexivity.
Qed.

Lemma pattern_alphabet_spec_witness :
  let a := LConc [LMult (LCharclass (charclass_init "a" false)) one] in
  let b := LConc [LMult (LCharclass (charclass_init "bc" true)) star] in
  Permutation [a; b] [b; a]
  /\ lego_alphabet (LPattern [a; b]) = lego_alphabet (LPattern [b; a]).
Proof.
  intros a b.
  assert (HP : Permutation [a; b] [b; a]) by apply perm_swap.
  split; [exact HP|].
  exact (proj1 (proj2 (pattern_alphabet_spec [a; b] [b; a] "a"%char)) HP).
Defined.

(** ** The parser stays inside the text *)

Lemma substring_length (s : string) (i n : nat) :
  String.length (String.substring i n s) = Nat.min n (String.length s - i).
Proof.
  revert i n. induction s as [|c s IH]; intros i n.
  - destruct i, n; reflexivity.
  - destruct i as [|i].
    + destruct n as [|n]; [reflexivity|].
      cbn [String.substring String.length]. rewrite IH. cbn [Nat.sub]. 
      rewrite Nat.sub_0_r. reflexivity.
    + cbn [String.substring String.length Nat.sub]. apply IH.
Qed.

Lemma advances_weaken {A} (pos : A -> nat) (d d' : nat) (str : string) (i : nat)
    (r : result A) :
  d' <= d -> advances pos d str i r -> advances pos d' str i r.
Proof. intros Hd. destruct r as [v|e]; cbn [advances]; [lia | auto]. Qed.

Lemma advances_bind {A B} (posA : A -> nat) (posB : B -> nat) (d1 d2 : nat)
    {d : nat} {str : string} {i : nat} {m : result A} {k : A -> result B} :
  d <= d1 + d2 ->
  advances posA d1 str i m ->
  (forall v, i + d1 <= posA v -> posA v <= Nat.max i (String.length str) ->
     advances posB d2 str (posA v) (k v)) ->
  advances posB d str i (m ≫= k).
Proof.
  intros Hd. destruct m as [v|e]; cbn [advances mbind result_bind]; [|auto].
  intros [H1 H2] Hk. specialize (Hk v H1 H2).
  destruct (k v) as [w|e]; cbn [advances] in *; [lia | auto].
Qed.

Lemma advances_try {A} (pos : A -> nat) (d : nat) (str : string) (i : nat)
    (a b : result A) :
  advances pos d str i a -> advances pos d str i b ->
  advances pos d str i (try_except a MatchFailureException b).
Proof.
  destruct a as [v|e]; cbn [try_except]; [auto|].
  intros Ha Hb. destruct (decide (e = MatchFailureException)); [exact Hb | exact Ha].
Qed.

Lemma advances_first {A B} (pos : B -> nat) (d : nat) (str : string) (i : nat)
    (f : A -> result B) (l : list A) (other : result B) :
  Forall (fun x => advances pos d str i (f x)) l ->
  advances pos d str i other ->
  advances pos d str i (first_match f l other).
Proof.
  intros Hl Ho. unfold first_match. induction Hl as [|x l Hx _ IH]; [exact Ho|].
  cbn [foldr]. apply advances_try; assumption.
Qed.

Lemma advances_fail {A} (pos : A -> nat) (d : nat) (str : string) (i : nat) :
  advances pos d str i (Raise MatchFailureException).
Proof. left. reflexivity. Qed.

Lemma matchStatic_advances (str : string) (i : nat) (static : string) :
  advances id (String.length static) str i (matchStatic str i static).
Proof.
  unfold matchStatic.
  destruct (String.eqb_spec (String.substring i (String.length static) str) static)
    as [E|_]; [|apply advances_fail].
  apply (f_equal String.length) in E. rewrite substring_length in E.
  cbn [advances id]. lia.
Qed.

Lemma static_then_advances {A} (str : string) (i : nat) (static : string) (v : A) (d : nat) :
  d <= String.length static ->
  advances snd d str i (j ← matchStatic str i static; Ok (v, j)).
Proof.
  intros Hd. pose proof (matchStatic_advances str i static) as H.
  destruct (matchStatic str i static) as [j|e]; cbn [advances mbind result_bind id snd] in *;
    [lia | exact H].
Qed.

Lemma get_length (s : string) (i : nat) (c : ascii) :
  String.get i s = Some c -> i < String.length s.
Proof.
  revert i. induction s as [|x s IH]; intros i; [destruct i; discriminate|].
  destruct i as [|i]; cbn [String.get String.length]; [lia|].
  intros H. apply IH in H. lia.
Qed.

Lemma matchAny_advances (str : string) (i : nat) :
  advances snd 1 str i (matchAny str i).
Proof.
  unfold matchAny. destruct (String.get i str) as [c|] eqn:E; [|apply advances_fail].
  apply get_length in E. cbn [advances snd]. lia.
Qed.

Lemma matchAnyOf_advances (str : string) (i : nat) (collection : string) :
  advances snd 1 str i (matchAnyOf str i collection).
Proof.
  unfold matchAnyOf. apply advances_first; [|apply advances_fail].
  apply Forall_forall. intros x _. apply static_then_advances. simpl. lia.
Qed.

Lemma matchInternalChar_advances (str : string) (i : nat) :
  advances snd 1 str i (matchInternalChar str i).
Proof.
  unfold matchInternalChar. apply advances_first.
  { unfold escapes. repeat constructor; apply static_then_advances; simpl; lia. }
  apply advances_first.
  { apply Forall_forall. intros x _. apply static_then_advances. simpl. lia. }
  pose proof (matchAny_advances str i) as H.
  destruct (matchAny str i) as [[c j]|e]; cbn [mbind result_bind advances snd] in *;
    [|exact H].
  destruct (char_in c classSpecial); [apply advances_fail | exact H].
Qed.

Lemma matchRange_span_raises (a b : ascii) (ranges : list string) (e : exn) :
  matchRange_span a b ranges = Raise e -> e = MatchFailureException.
Proof.
  induction ranges as [|r ranges IH]; cbn [matchRange_span]; [congruence|].
  destruct (char_in a r); [|exact IH].
  destruct (negb (char_in b r)); [congruence|].
  destruct (str_index a r), (str_index b r); try congruence.
  destruct (_ <=? _)%nat; congruence.
Qed.

Lemma matchRangeInternal_advances (str : string) (i : nat) :
  advances snd 1 str i (matchRangeInternal str i).
Proof.
  unfold matchRangeInternal.
  apply (advances_bind snd snd 1 0); [lia | apply matchInternalChar_advances|].
  intros [firstChar i1] H1 H2. cbn [snd] in *.
  apply advances_try; [|cbn [advances snd]; lia].
  apply (advances_bind id snd 1 0); [lia | apply (matchStatic_advances str i1 "-") |].
  intros j H3 H4. cbn [id] in *.
  apply (advances_bind snd snd 1 0); [lia | apply matchInternalChar_advances|].
  intros [lastChar j1] H5 H6. cbn [snd] in *.
  destruct (matchRange_span firstChar lastChar allowableRanges) as [span|e] eqn:E;
    cbn [mbind result_bind advances snd].
  - lia.
  - left. apply (matchRange_span_raises _ _ _ _ E).
Qed.

Lemma matchRangeInterior_loop_advances (fuel : nat) (str internals : string) (i : nat) :
  String.length str - i < fuel ->
  advances snd 0 str i (matchRangeInterior_loop fuel str internals i).
Proof.
  revert internals i. induction fuel as [|fuel IH]; intros internals i Hf; [lia|].
  cbn [matchRangeInterior_loop].
  pose proof (matchRangeInternal_advances str i) as H.
  destruct (matchRangeInternal str i) as [[internal j]|e]; cbn [advances snd] in H.
  - assert (Hj : String.length str - j < fuel) by lia.
    specialize (IH (internals +:+ internal) j Hj).
    destruct (matchRangeInterior_loop fuel str (internals +:+ internal) j) as [[v k]|e];
      cbn [advances snd] in *; [lia | exact IH].
  - destruct H as [->| ->]; cbn [advances snd]; [lia | right; reflexivity].
Qed.

Lemma matchRangeInterior_advances (str : string) (i : nat) :
  advances snd 0 str i (matchRangeInterior str i).
Proof. apply matchRangeInterior_loop_advances. lia. Qed.

Lemma bracket_advances (str : string) (i : nat) (open : string) (f : string -> charclass) :
  1 <= String.length open ->
  advances snd 1 str i
    (i ← matchStatic str i open;
     '(cs, i) ← matchRangeInterior str i;
     i ← matchStatic str i "]";
     Ok (f cs, i)).
Proof.
  intros Ho.
  apply (advances_bind id snd (String.length open) 0); [lia | apply matchStatic_advances |].
  intros i1 _ _. cbn [id].
  apply (advances_bind snd snd 0 0); [lia | apply matchRangeInterior_advances |].
  intros [cs i2] _ _. cbn [snd]. apply static_then_advances. lia.
Qed.

Lemma charclass_match_advances (str : string) (i : nat) :
  advances snd 1 str i (charclass_match str i).
Proof.
  unfold charclass_match. apply advances_first.
  { unfold shorthand. repeat constructor; apply static_then_advances; simpl; lia. }
  apply advances_try; [apply bracket_advances; simpl; lia|].
  apply advances_try; [apply bracket_advances; simpl; lia|].
  apply advances_first.
  { unfold escapes. repeat constructor; apply static_then_advances; simpl; lia. }
  apply advances_first.
  { apply Forall_forall. intros x _. apply static_then_advances. simpl. lia. }
  pose proof (matchAny_advances str i) as H.
  destruct (matchAny str i) as [[c j]|e]; cbn [mbind result_bind advances snd] in *;
    [|exact H].
  destruct (char_in c allSpecial); [apply advances_fail | exact H].
Qed.

Lemma matchInteger_loop_advances (fuel : nat) (str : string) (n : Z) (i : nat) :
  String.length str - i < fuel ->
  advances snd 0 str i (matchInteger_loop fuel str n i).
Proof.
  revert n i. induction fuel as [|fuel IH]; intros n i Hf; [lia|].
  cbn [matchInteger_loop].
  pose proof (matchAnyOf_advances str i "0123456789") as H.
  destruct (matchAnyOf str i "0123456789") as [[digit j]|e]; cbn [advances snd] in H.
  - assert (Hj : String.length str - j < fuel) by lia.
    specialize (IH (n * 10 + int_of_digit digit)%Z j Hj).
    destruct (matchInteger_loop fuel str _ j) as [[v k]|e];
      cbn [advances snd] in *; [lia | exact IH].
  - destruct H as [->| ->]; cbn [advances snd]; [lia | right; reflexivity].
Qed.

Lemma matchInteger_advances (str : string) (i : nat) :
  advances snd 1 str i (matchInteger str i).
Proof.
  unfold matchInteger. apply advances_try; [apply static_then_advances; simpl; lia|].
  apply (advances_bind snd snd 1 0); [lia | apply matchAnyOf_advances |].
  intros [digit j] H1 H2. cbn [snd] in *.
  apply matchInteger_loop_advances. lia.
Qed.

Lemma multiplier_init_raises (a b : option Z) (e : exn) :
  multiplier_init a b = Raise e -> e = Exception.
Proof.
  unfold multiplier_init. destruct a as [a|], b as [b|]; try congruence.
  - destruct (a <? 0)%Z; [congruence|]. destruct (b <? a)%Z; congruence.
  - destruct (a <? 0)%Z; congruence.
Qed.

Lemma init_then_advances (str : string) (i j : nat) (a b : option Z) :
  i <= j -> j <= Nat.max i (String.length str) ->
  advances snd 0 str i (m ← multiplier_init a b; Ok (m, j)).
Proof.
  intros H1 H2. destruct (multiplier_init a b) as [m|e] eqn:E;
    cbn [mbind result_bind advances snd]; [lia|].
  right. apply (multiplier_init_raises _ _ _ E).
Qed.

Lemma braces_advances (str : string) (i : nat) (close : string)
    (k : Z -> result multiplier) :
  (forall n e, k n = Raise e -> e = Exception) ->
  advances snd 0 str i
    (j ← matchStatic str i "{";
     '(min, j) ← matchInteger str j;
     j ← matchStatic str j close;
     m ← k min;
     Ok (m, j)).
Proof.
  intros Hk.
  apply (advances_bind id snd 0 0); [lia | |].
  { apply (advances_weaken id 1); [lia | apply (matchStatic_advances str i "{")]. }
  intros j1 _ _. cbn [id].
  apply (advances_bind snd snd 0 0); [lia | |].
  { apply (advances_weaken snd 1); [lia | apply matchInteger_advances]. }
  intros [mn j2] _ _. cbn [snd].
  apply (advances_bind id snd 0 0); [lia | |].
  { apply (advances_weaken id (String.length close)); [lia | apply matchStatic_advances]. }
  intros j3 _ _. cbn [id].
  destruct (k mn) as [m|e] eqn:E; cbn [mbind result_bind advances snd]; [lia|].
  right. apply (Hk _ _ E).
Qed.

Lemma multiplier_match_advances (str : string) (i : nat) :
  advances snd 0 str i (multiplier_match str i).
Proof.
  unfold multiplier_match.
  apply advances_try; [|apply advances_try; [|apply advances_try]].
  - apply (advances_bind id snd 0 0); [lia | |].
    { apply (advances_weaken id 1); [lia | apply (matchStatic_advances str i "{")]. }
    intros j1 _ _. cbn [id].
    apply (advances_bind snd snd 0 0); [lia | |].
    { apply (advances_weaken snd 1); [lia | apply matchInteger_advances]. }
    intros [mn j2] _ _. cbn [snd].
    apply (advances_bind id snd 0 0); [lia | |].
    { apply (advances_weaken id 1); [lia | apply (matchStatic_advances str j2 ",")]. }
    intros j3 _ _. cbn [id].
    apply (advances_bind snd snd 0 0); [lia | |].
    { apply (advances_weaken snd 1); [lia | apply matchInteger_advances]. }
    intros [mx j4] _ _. cbn [snd].
    apply (advances_bind id snd 0 0); [lia | |].
    { apply (advances_weaken id 1); [lia | apply (matchStatic_advances str j4 "}")]. }
    intros j5 _ _. cbn [id].
    apply init_then_advances; lia.
  - apply (braces_advances str i ",}" (fun min => multiplier_init (Some min) None)).
    intros n e. apply multiplier_init_raises.
  - apply (braces_advances str i "}" (fun min => multiplier_init (Some min) (Some min))).
    intros n e. apply multiplier_init_raises.
  - apply advances_first; [|apply advances_fail].
    unfold symbolic_by_length. repeat constructor; apply static_then_advances; lia.
Qed.

Section ParserBounds.
Variable pm : string -> nat -> result (lego * nat).
Variable str : string.
(** The positions from which the subpattern parser is called. *)
Variable i0 : nat.
Hypothesis pm_advances :
  forall j, i0 < j -> j <= String.length str -> advances snd 0 str j (pm str j).

Lemma mult_init_raises (x : lego) (mu : multiplier) (e : exn) :
  mult_init x mu = Raise e -> e = Exception.
Proof. unfold mult_init. destruct (type_of x); congruence. Qed.

Lemma mult_match_advances (i : nat) :
  i0 <= i -> advances snd 1 str i (mult_match pm str i).
Proof.
  intros Hi. unfold mult_match.
  apply (advances_bind snd snd 1 0); [lia | |].
  { apply advances_try.
    - apply (advances_bind id snd 1 0); [lia | apply (matchStatic_advances str i "(") |].
      intros j1 H1 H2. cbn [id] in *.
      apply (advances_bind snd snd 0 0); [lia | apply pm_advances; lia |].
      intros [x j2] _ _. cbn [snd]. apply static_then_advances. lia.
    - apply (advances_bind snd snd 1 0); [lia | apply charclass_match_advances |].
      intros [c j1] _ _. cbn [snd advances]. lia. }
  intros [x j1] _ _. cbn [snd].
  apply (advances_bind snd snd 0 0); [lia | apply multiplier_match_advances |].
  intros [mu j2] _ _. cbn [snd].
  destruct (mult_init x mu) as [m|e] eqn:E; cbn [mbind result_bind advances snd]; [lia|].
  right. apply (mult_init_raises _ _ _ E).
Qed.

Lemma conc_init_raises (ms : list lego) (e : exn) :
  conc_init ms = Raise e -> e = Exception.
Proof. unfold conc_init. destruct (forallb _ ms); congruence. Qed.

Lemma conc_match_loop_advances (fuel : nat) (mults : list lego) (i : nat) :
  i0 <= i -> String.length str - i < fuel ->
  advances snd 0 str i (conc_match_loop pm fuel str mults i).
Proof.
  revert mults i. induction fuel as [|fuel IH]; intros mults i Hi Hf; [lia|].
  cbn [conc_match_loop].
  pose proof (mult_match_advances i Hi) as H.
  destruct (mult_match pm str i) as [[x j]|e]; cbn [advances snd] in H.
  - assert (Hj : String.length str - j < fuel) by lia.
    assert (Hi' : i0 <= j) by lia.
    specialize (IH (mults ++ [x]) j Hi' Hj).
    destruct (conc_match_loop pm fuel str (mults ++ [x]) j) as [[v k]|e];
      cbn [advances snd] in *; [lia | exact IH].
  - destruct H as [->| ->]; [|right; reflexivity].
    destruct (conc_init mults) as [c|e] eqn:E; cbn [mbind result_bind advances snd]; [lia|].
    right. apply (conc_init_raises _ _ E).
Qed.

Lemma conc_match_advances (i : nat) :
  i0 <= i -> advances snd 0 str i (conc_match pm str i).
Proof. intros Hi. apply conc_match_loop_advances; [exact Hi | lia]. Qed.

Lemma pattern_init_raises (cs : list lego) (e : exn) :
  pattern_init cs = Raise e -> e = Exception.
Proof.
  unfold pattern_init, pattern_init_args. intros H.
  apply bind_raise in H as [H|(elems & _ & H)]; [|discriminate].
  apply map_result_raise in H. apply Exists_exists in H as (v & _ & Hv).
  destruct v as [x|k]; [|congruence]. destruct (has_type KConc x); congruence.
Qed.

Lemma pattern_match_loop_advances (fuel : nat) (concs : list lego) (i : nat) :
  i0 <= i -> String.length str - i < fuel ->
  advances snd 0 str i (pattern_match_loop pm fuel str concs i).
Proof.
  revert concs i. induction fuel as [|fuel IH]; intros concs i Hi Hf; [lia|].
  cbn [pattern_match_loop].
  assert (H : advances snd 1 str i (i' ← matchStatic str i "|"; conc_match pm str i')).
  { apply (advances_bind id snd 1 0); [lia | apply (matchStatic_advances str i "|") |].
    intros j H1 _. cbn [id] in *. apply conc_match_advances. lia. }
  destruct (i' ← matchStatic str i "|"; conc_match pm str i') as [[x j]|e];
    cbn [advances snd] in H.
  - assert (Hj : String.length str - j < fuel) by lia.
    assert (Hi' : i0 <= j) by lia.
    specialize (IH (concs ++ [x]) j Hi' Hj).
    destruct (pattern_match_loop pm fuel str (concs ++ [x]) j) as [[v k]|e];
      cbn [advances snd] in *; [lia | exact IH].
  - destruct H as [->| ->]; [|right; reflexivity].
    destruct (pattern_init concs) as [p|e] eqn:E; cbn [mbind result_bind advances snd];
      [lia|].
    right. apply (pattern_init_raises _ _ E).
Qed.

Lemma pattern_match_body_advances (i : nat) :
  i0 <= i -> advances snd 0 str i (pattern_match_body pm str i).
Proof.
  intros Hi. unfold pattern_match_body.
  apply (advances_bind snd snd 0 0); [lia | apply conc_match_advances, Hi |].
  intros [x j] H1 _. cbn [snd] in *.
  apply pattern_match_loop_advances; lia.
Qed.
End ParserBounds.

Lemma pattern_match_fuel_advances (fuel : nat) (str : string) (i : nat) :
  String.length str - i < fuel ->
  advances snd 0 str i (pattern_match_fuel fuel str i).
Proof.
  revert i. induction fuel as [|fuel IH]; intros i Hf; [lia|].
  cbn [pattern_match_fuel]. apply (pattern_match_body_advances _ str i); [|lia].
  intros j Hj Hle. apply IH. lia.
Qed.

(** ** The fuel of the subpattern parser *)

Section ParserExt.
Variables pm1 pm2 : string -> nat -> result (lego * nat).
Variable str : string.
Variable i0 : nat.
Hypothesis pm_ext :
  forall j, i0 < j -> j <= String.length str -> pm1 str j = pm2 str j.
Hypothesis pm1_advances :
  forall j, i0 < j -> j <= String.length str -> advances snd 0 str j (pm1 str j).

Lemma mult_match_ext (i : nat) :
  i0 <= i -> mult_match pm1 str i = mult_match pm2 str i.
Proof.
  intros Hi. unfold mult_match.
  pose proof (matchStatic_advances str i "(") as H.
  destruct (matchStatic str i "(") as [j|e]; [|reflexivity].
  cbn [advances id String.length] in H. cbn [mbind result_bind].
  rewrite pm_ext by lia. reflexivity.
Qed.

Lemma conc_match_loop_ext (fuel : nat) (mults : list lego) (i : nat) :
  i0 <= i ->
  conc_match_loop pm1 fuel str mults i = conc_match_loop pm2 fuel str mults i.
Proof.
  revert mults i. induction fuel as [|fuel IH]; intros mults i Hi; [reflexivity|].
  cbn [conc_match_loop]. rewrite <- (mult_match_ext i Hi).
  pose proof (mult_match_advances pm1 str i0 pm1_advances i Hi) as H.
  destruct (mult_match pm1 str i) as [[x j]|e]; [|reflexivity].
  cbn [advances snd] in H. apply IH. lia.
Qed.

Lemma conc_match_ext (i : nat) :
  i0 <= i -> conc_match pm1 str i = conc_match pm2 str i.
Proof. apply conc_match_loop_ext. Qed.

Lemma pattern_match_loop_ext (fuel : nat) (concs : list lego) (i : nat) :
  i0 <= i ->
  pattern_match_loop pm1 fuel str concs i = pattern_match_loop pm2 fuel str concs i.
Proof.
  revert concs i. induction fuel as [|fuel IH]; intros concs i Hi; [reflexivity|].
  cbn [pattern_match_loop].
  assert (E : (i' ← matchStatic str i "|"; conc_match pm1 str i')
              = (i' ← matchStatic str i "|"; conc_match pm2 str i')).
  { pose proof (matchStatic_advances str i "|") as H.
    destruct (matchStatic str i "|") as [j|e]; [|reflexivity].
    cbn [advances id String.length] in H. cbn [mbind result_bind].
    apply conc_match_ext. lia. }
  rewrite <- E.
  assert (H : advances snd 1 str i (i' ← matchStatic str i "|"; conc_match pm1 str i')).
  { apply (advances_bind id snd 1 0); [lia | apply (matchStatic_advances str i "|") |].
    intros j H1 _. cbn [id] in *.
    apply (conc_match_advances pm1 str i0 pm1_advances). lia. }
  destruct (i' ← matchStatic str i "|"; conc_match pm1 str i') as [[x j]|e];
    [|reflexivity].
  cbn [advances snd] in H. apply IH. lia.
Qed.

Lemma pattern_match_body_ext (i : nat) :
  i0 <= i -> pattern_match_body pm1 str i = pattern_match_body pm2 str i.
Proof.
  intros Hi. unfold pattern_match_body. rewrite <- (conc_match_ext i Hi).
  pose proof (conc_match_advances pm1 str i0 pm1_advances i Hi) as H.
  destruct (conc_match pm1 str i) as [[x j]|e]; [|reflexivity].
  cbn [advances snd] in H. cbn [mbind result_bind].
  apply pattern_match_loop_ext. lia.
Qed.
End ParserExt.

Lemma pattern_match_fuel_stable (f1 f2 : nat) (str : string) (i : nat) :
  String.length str - i < f1 -> String.length str - i < f2 ->
  pattern_match_fuel f1 str i = pattern_match_fuel f2 str i.
Proof.
  revert f2 i. induction f1 as [|f1 IH]; intros f2 i H1 H2; [lia|].
  destruct f2 as [|f2]; [lia|]. cbn [pattern_match_fuel].
  apply (pattern_match_body_ext _ _ str i); [| |lia].
  - intros j Hj Hle. apply IH; lia.
  - intros j Hj Hle. apply pattern_match_fuel_advances. lia.
Qed.

Lemma pattern_match_unfold (str : string) (i : nat) :
  pattern_match str i = pattern_match_body pattern_match str i.
Proof.
  unfold pattern_match at 1. cbn [pattern_match_fuel].
  apply (pattern_match_body_ext _ _ str i); [| |lia].
  - intros j Hj Hle. unfold pattern_match. apply pattern_match_fuel_stable; lia.
  - intros j Hj Hle. apply pattern_match_fuel_advances. lia.
Qed.

(** X19. When [pattern.match] returns from position [i] of a text, the
    position that it returns is not before [i] and not beyond the end of
    the text (it is [i] itself when [i] is beyond the end). *)
Theorem pattern_match_stays_in_text (str : string) (i : nat) (p : lego) (j : nat) :
  pattern_match str i = Ok (p, j) ->
  i <= j /\ j <= Nat.max i (String.length str).
Proof.
  intros H. pose proof (pattern_match_fuel_advances (S (String.length str - i)) str i) as Ha.
  unfold pattern_match in H. rewrite H in Ha. cbn [advances snd] in Ha. lia.
Qed.

Lemma pattern_match_stays_in_text_witness :
  pattern_match "x(a|b)*c" 1
  = Ok (LPattern [LConc [LMult (LPattern [LConc [LMult (LCharclass (charclass_init "a" false)) one];
                                          LConc [LMult (LCharclass (charclass_init "b" false)) one]])
                           star;
                         LMult (LCharclass (charclass_init "c" false)) one]], 8)
  /\ 1 <= 8 /\ 8 <= Nat.max 1 (String.length "x(a|b)*c").
Proof.
  assert (H : pattern_match "x(a|b)*c" 1
              = Ok (LPattern [LConc [LMult (LPattern
                       [LConc [LMult (LCharclass (charclass_init "a" false)) one];
                        LConc [LMult (LCharclass (charclass_init "b" false)) one]]) star;
                     LMult (LCharclass (charclass_init "c" false)) one]], 8))
    by (vm_compute; reflexivity).
  split; [exact H|]. exact (pattern_match_stays_in_text _ _ _ _ H).
Defined.

(** X20. [charclass.match] and [mult.match] consume at least one character
    when they return: the position that they return is beyond the one
    they start from, and inside the text.  (This is what makes the loop of
    [conc.match] end.) *)
Theorem mult_match_consumes (str : string) (i : nat) :
  (forall c j, charclass_match str i = Ok (c, j) -> i < j /\ j <= String.length str)
  /\ (forall m j, mult_match pattern_match str i = Ok (m, j) ->
        i < j /\ j <= String.length str).
Proof.
  split.
  - intros c j H. pose proof (charclass_match_advances str i) as Ha.
    rewrite H in Ha. cbn [advances snd] in Ha. lia.
  - intros m j H.
    assert (Ha : advances snd 1 str i (mult_match pattern_match str i)).
    { apply (mult_match_advances pattern_match str i); [|lia].
      intros k _ _. apply pattern_match_fuel_advances. lia. }
    rewrite H in Ha. cbn [advances snd] in Ha. lia.
Qed.

Lemma mult_match_consumes_witness :
  mult_match pattern_match "ab*c" 1
  = Ok (LMult (LCharclass (charclass_init "b" false)) star, 3)
  /\ 1 < 3 /\ 3 <= String.length "ab*c".
Proof.
  assert (H : mult_match pattern_match "ab*c" 1
              = Ok (LMult (LCharclass (charclass_init "b" false)) star, 3))
    by (vm_compute; reflexivity).
  split; [exact H|]. exact (proj2 (mult_match_consumes "ab*c" 1) _ _ H).
Defined.

(** X21. [pattern.parse] ends on every text: it returns a pattern, or it
    raises [MatchFailureException], or it raises [Exception] (from the
    constructor of a multiplier whose maximum is below its minimum, as in
    [a{2,1}]).  The loops of the parser never use up the bound on their
    rounds that is computed from the length of the text. *)
Theorem pattern_parse_raises_only (str : string) (e : exn) :
  pattern_parse str = Raise e -> e = MatchFailureException \/ e = Exception.
Proof.
  unfold pattern_parse, pattern_match.
  pose proof (pattern_match_fuel_advances (S (String.length str - 0)) str 0) as Ha.
  destruct (pattern_match_fuel (S (String.length str - 0)) str 0) as [[p j]|e'];
    cbn [mbind result_bind advances] in *.
  - destruct (negb (j =? String.length str)%nat); [|discriminate].
    intros [= <-]. left. reflexivity.
  - intros [= <-]. apply Ha. lia.
Qed.

Lemma pattern_parse_raises_only_witness :
  pattern_parse "a{2,1}" = Raise Exception
  /\ (Exception = MatchFailureException \/ Exception = Exception).
Proof.
  assert (H : pattern_parse "a{2,1}" = Raise Exception) by (vm_compute; reflexivity).
  split; [exact H|]. exact (pattern_parse_raises_only _ _ H).
Defined.

(** X22. [pattern.match] satisfies the recursive definition of the source:
    it is the body of the method in which the call for a parenthesised
    subpattern is [pattern.match] again.  The bound on the nesting of
    parentheses does not matter once it exceeds the length of the text
    that remains. *)
Theorem pattern_match_unrolls (str : string) (i : nat) :
  pattern_match str i = pattern_match_body pattern_match str i
  /\ forall fuel, String.length str - i < fuel ->
       pattern_match_fuel fuel str i = pattern_match str i.
Proof.
  split; [apply pattern_match_unfold|].
  intros fuel Hf. unfold pattern_match. apply pattern_match_fuel_stable; lia.
Qed.

Lemma pattern_match_unrolls_witness :
  String.length "(a|b)c" - 0 < 20
  /\ pattern_match_fuel 20 "(a|b)c" 0 = pattern_match "(a|b)c" 0.
Proof.
  assert (H : String.length "(a|b)c" - 0 < 20) by (simpl; lia).
  split; [exact H|].
  exact (proj2 (pattern_match_unrolls "(a|b)c" 0) 20 H).
Defined.

(** X23. [pattern.match] looks at the text from position [i] on only: with
    the text [pre] in front, it returns the same pattern, at the position
    moved by the length of [pre]. *)
Theorem pattern_match_ignores_prefix (pre s : string) (i : nat) :
  pattern_match (pre +:+ s) (String.length pre + i)
  = shift (String.length pre) (pattern_match s i).
Proof.
  unfold pattern_match. rewrite length_shift. apply pattern_match_fuel_shift.
Qed.

(** X24. What [pattern.parse] returns is a pattern that the constructors
    accept at every level: its concs hold mults, the multiplicand of every
    mult is a character class or a pattern, no conc occurs twice in a
    pattern, and every multiplier is one that [multiplier.__init__]
    accepts (a minimum that is not negative, and a maximum that is
    infinite or not below it). *)
Theorem pattern_parse_returns_well_formed (t : string) (P : lego) :
  pattern_parse t = Ok P ->
  has_type KPattern P = true /\ well_formed P = true.
Proof.
  intros H. apply pattern_parse_well_formed in H. apply andb_true_iff in H. exact H.
Qed.

Lemma pattern_parse_returns_well_formed_witness :
  pattern_parse "a{2,}|b"
  = Ok (LPattern [LConc [LMult (LCharclass (charclass_init "a" false))
                           (Multiplier (Some 2%Z) None)];
                  LConc [LMult (LCharclass (charclass_init "b" false)) one]])
  /\ has_type KPattern
       (LPattern [LConc [LMult (LCharclass (charclass_init "a" false))
                           (Multiplier (Some 2%Z) None)];
                  LConc [LMult (LCharclass (charclass_init "b" false)) one]]) = true
  /\ well_formed
       (LPattern [LConc [LMult (LCharclass (charclass_init "a" false))
                           (Multiplier (Some 2%Z) None)];
                  LConc [LMult (LCharclass (charclass_init "b" false)) one]]) = true.
Proof.
  assert (H : pattern_parse "a{2,}|b"
              = Ok (LPattern [LConc [LMult (LCharclass (charclass_init "a" false))
                                       (Multiplier (Some 2%Z) None)];
                              LConc [LMult (LCharclass (charclass_init "b" false)) one]]))
    by (vm_compute; reflexivity).
  split; [exact H|]. exact (pattern_parse_returns_well_formed _ _ H).
Defined.
